(** * build2: target set, built-in rules, project loader, test-script runner

    A shallow embedding of the engine code of
    - build2/target.cxx            (target::recipe, target_set::find/insert,
                                    to_stream and the print functions,
                                    path_target::derive_path, the factories),
    - build/rule.cxx               (path_rule, dir_rule, fsdir_rule),
    - build/file.cxx               (source_once, create_root, the bootstrap
                                    steps, load_root_pre, import),
    - build2/test/script/runner.cxx (non_empty, check_output, enter, leave,
                                    the exit status check of run),
    with the properties the specification states about them and further
    properties read off the code.

    Conventions.  A C++ function that can throw [failed] (through [fail <<]
    or [throw failed ()]) or trip an [assert] returns a [result]: [Ok v] or
    [Fail d] with the diagnostic [d].  Objects that the C++ code reaches
    through references live in an explicit store and are named by their key
    in it.  A collaborator whose code is in a header that is not part of the
    sources is either a [Variable] of the enclosing section or a definition
    whose comment starts with "Modelled from the spec". *)

From Stdlib Require Import ZArith String Ascii List Bool Lia.
From stdpp Require Import base option list functions gmap sets strings.

Local Open Scope string_scope.
Local Open Scope list_scope.
Set Warnings "-register-all".

(** ** Results of fallible code *)

Inductive result (E A : Type) : Type :=
| Ok (a : A)
| Fail (d : E).

Arguments Ok {E A} a.
Arguments Fail {E A} d.

#[global] Instance result_ret {E : Type} : MRet (result E) := fun A a => Ok a.

#[global] Instance result_bind {E : Type} : MBind (result E) := fun A B k r =>
  match r with
  | Ok a => k a
  | Fail d => Fail d
  end.

Definition is_ok {E A : Type} (r : result E A) : bool :=
  match r with Ok _ => true | Fail _ => false end.

(** * The test-script runner (build2/test/script/runner.cxx) *)

Module Runner.

(** Paths are kept in their external representation. *)
Definition path := string.
Definition dir_path := string.

(** Modelled from the spec: [path::to_directory] (butl, not part of the
    sources); a path that denotes a directory ends with the separator. *)
Fixpoint to_directory (p : path) : bool :=
  match p with
  | EmptyString => false
  | String c EmptyString => bool_decide (c = "/"%char)
  | String _ rest => to_directory rest
  end.

(** Modelled from the spec: the file system the runner works on (the
    primitives [exists], [rmdir], [rmfile] and the fd streams come from
    build2/filesystem and butl, which are not part of the sources).  Regular
    files carry their bytes; [io_faulty] holds the paths on which a stream
    operation raises [io_error]. *)
Record filesystem := mk_filesystem {
  files : gmap path (list ascii);
  dirs : gset dir_path;
  io_faulty : gset path
}.

Inductive rmdir_status := rmdir_success | rmdir_not_empty | rmdir_not_exist.
Inductive rmfile_status := rmfile_success | rmfile_not_exist.

(** Modelled from the spec: [exists (p)] for a file path, and the same for
    a directory (build2/filesystem). *)
Definition file_exists (p : path) (fs : filesystem) : bool :=
  bool_decide (is_Some (files fs !! p)).

Definition dir_exists (d : dir_path) (fs : filesystem) : bool :=
  bool_decide (d ∈ dirs fs).

(** An entry lies under [d] when [d] is a proper prefix of its path. *)
Definition under (d : dir_path) (p : path) : bool :=
  String.prefix d p && negb (String.eqb d p).

Definition dir_empty (d : dir_path) (fs : filesystem) : bool :=
  forallb (fun p => negb (under d p))
          (elements (dom (files fs)) ++ elements (dirs fs)).

(** Modelled from the spec: [rmdir] removes an existing empty directory and
    otherwise reports why it did not. *)
Definition rmdir (d : dir_path) (fs : filesystem) : rmdir_status * filesystem :=
  if negb (dir_exists d fs) then (rmdir_not_exist, fs)
  else if negb (dir_empty d fs) then (rmdir_not_empty, fs)
  else (rmdir_success,
        mk_filesystem (files fs) (dirs fs ∖ {[d]}) (io_faulty fs)).

(** Modelled from the spec: [rmfile] removes an existing file and otherwise
    reports that there is none. *)
Definition rmfile (p : path) (fs : filesystem) : rmfile_status * filesystem :=
  if file_exists p fs
  then (rmfile_success,
        mk_filesystem (delete p (files fs)) (dirs fs) (io_faulty fs))
  else (rmfile_not_exist, fs).

(** Modelled from the spec: [ifdstream is (p); is.peek ()] (the fd streams
    are butl's); [Some None] is end of file, [None] an [io_error]. *)
Definition peek (p : path) (fs : filesystem) : option (option ascii) :=
  if bool_decide (p ∈ io_faulty fs) then None
  else match files fs !! p with
       | Some data => Some (head data)
       | None => None
       end.

(** Modelled from the spec: [ofdstream os (p); os << s; os.close ()]; [None]
    is an [io_error]. *)
Definition write_file (p : path) (s : list ascii) (fs : filesystem) : option filesystem :=
  if bool_decide (p ∈ io_faulty fs) then None
  else Some (mk_filesystem (<[p := s]> (files fs)) (dirs fs) (io_faulty fs)).

Inductive redirect_type :=
| none | pass | null | merge | here_string | here_document | file.

Record redirect := mk_redirect {
  type : redirect_type;
  fd : Z;
  str : string;
  doc : string
}.

(** A test-script scope: its working directory and its cleanup stack, in
    registration order ([sp.cleanups.emplace_back]). *)
Record scope := mk_scope {
  wd_path : dir_path;
  cleanups : list path
}.

Definition register (p : path) (sp : scope) : scope :=
  mk_scope (wd_path sp) (cleanups sp ++ [p]).

(** The diagnostics the runner fails with. *)
Inductive diag :=
| unable_to_read (p : path)
| unexpectedly_writes (nm : string) (saved_to : path)
| unable_to_write (p : path)
| doesnt_match (nm : string) (output expected : option path)
| failed_to_compare (nm : string)
| unable_to_execute (child : bool)
| assertion (what : string)
| wd_not_empty (d : dir_path)
| cleanup_dir_not_empty (d : dir_path)
| cleanup_dir_not_exist (d : dir_path)
| cleanup_file_not_exist (p : path).

(** [non_empty (p, cl)]: the path is not empty, the file exists and holds at
    least one byte. *)
Definition non_empty (p : path) (fs : filesystem) : result diag bool :=
  if String.eqb p "" || negb (file_exists p fs) then Ok false
  else match peek p fs with
       | Some c => Ok (bool_decide (c <> None))
       | None => Fail (unable_to_read p)
       end.

(** How the [diff] child process ends. *)
Inductive process_end :=
| exited (zero : bool)
| wait_io_error
| process_error (child : bool).

Section check.

(** The [diff] utility, run on the expected and the actual output. *)
Variable diff : path -> path -> filesystem -> process_end.

Definition output_info (p : path) (fs : filesystem) : result diag (option path) :=
  b ← non_empty p fs; Ok (if b : bool then Some p else None).

(** [check_output (pr, nm, op, rd, cl, sp)]. *)
Definition check_output (nm : string) (op : path) (rd : redirect)
    (sp : scope) (fs : filesystem) : result diag (scope * filesystem) :=
  match type rd with
  | none =>
      if String.eqb op "" then Fail (assertion "!op.empty ()")
      else
        b ← non_empty op fs;
        if b : bool then Fail (unexpectedly_writes nm op) else Ok (sp, fs)
  | here_string | here_document =>
      if String.eqb op "" then Fail (assertion "!op.empty ()")
      else
        let orp := op +:+ ".orig" in
        let expected :=
          match type rd with here_string => str rd | _ => doc rd end in
        match write_file orp (list_ascii_of_string expected) fs with
        | None => Fail (unable_to_write orp)
        | Some fs1 =>
            let sp1 := register orp sp in
            match diff orp op fs1 with
            | exited true => Ok (sp1, fs1)
            | exited false =>
                o ← output_info op fs1;
                e ← output_info orp fs1;
                Fail (doesnt_match nm o e)
            | wait_io_error => Fail (failed_to_compare nm)
            | process_error child => Fail (unable_to_execute child)
            end
        end
  | _ => Ok (sp, fs)
  end.

End check.

Section enter.

(** [mkdir (d, 2)] (build2/filesystem, not part of the sources): it makes
    the directory or fails, for one when what lies above the directory is
    not there. *)
Variable mkdir : dir_path -> filesystem -> result diag filesystem.

(** [concurrent_runner::enter]. *)
Definition enter (sp : scope) (fs : filesystem) : result diag (scope * filesystem) :=
  if negb (dir_exists (wd_path sp) fs)
  then fs1 ← mkdir (wd_path sp) fs; Ok (register (wd_path sp) sp, fs1)
  else if negb (dir_empty (wd_path sp) fs) then Fail (wd_not_empty (wd_path sp))
  else Ok (register (wd_path sp) sp, fs).

End enter.

(** One removal of [leave]: what is done for a path seen for the first
    time. *)
Definition remove (p : path) (fs : filesystem) : result diag filesystem :=
  if to_directory p then
    match rmdir p fs with
    | (rmdir_success, fs') => Ok fs'
    | (rmdir_not_empty, _) => Fail (cleanup_dir_not_empty p)
    | (rmdir_not_exist, _) => Fail (cleanup_dir_not_exist p)
    end
  else
    match rmfile p fs with
    | (rmfile_not_exist, _) => Fail (cleanup_file_not_exist p)
    | (rmfile_success, fs') => Ok fs'
    end.

(** The loop of [concurrent_runner::leave] over the reversed cleanup stack:
    [rp] is the set of paths already seen, [done] the removals performed so
    far, oldest first. *)
Fixpoint leave_loop (ps : list path) (rp : gset path) (done : list path)
    (fs : filesystem) : result (diag * list path) (filesystem * list path) :=
  match ps with
  | [] => Ok (fs, done)
  | p :: ps' =>
      if bool_decide (p ∈ rp) then leave_loop ps' rp done fs
      else
        match remove p fs with
        | Ok fs' => leave_loop ps' ({[p]} ∪ rp) (done ++ [p]) fs'
        | Fail d => Fail (d, done ++ [p])
        end
  end.

Definition leave (sp : scope) (fs : filesystem)
    : result (diag * list path) (filesystem * list path) :=
  leave_loop (rev (cleanups sp)) ∅ [] fs.

(** The cleanup order as the specification words it: the paths of a list
    with the later duplicates dropped. *)
Fixpoint first_occurrences (ps : list path) : list path :=
  match ps with
  | [] => []
  | p :: ps' => p :: filter (fun q => q <> p) (first_occurrences ps')
  end.

(** Removing the paths of a list one after the other, each exactly once,
    stopping at the first removal that fails. *)
Fixpoint remove_all (ps : list path) (done : list path) (fs : filesystem)
    : result (diag * list path) (filesystem * list path) :=
  match ps with
  | [] => Ok (fs, done)
  | p :: ps' =>
      match remove p fs with
      | Ok fs' => remove_all ps' (done ++ [p]) fs'
      | Fail d => Fail (d, done ++ [p])
      end
  end.

(** ** The exit status check of [run] *)

(** The exit status a command is expected to end with ([command_exit] of
    the script header, not part of the sources): a comparison and an
    8-bit status. *)
Inductive exit_comparison := exit_eq | exit_ne.

Record command_exit := mk_command_exit {
  comparison : exit_comparison;
  status : Z
}.

(** What [run] says about a wrong exit status, and its two ways to fail
    there: with one of the diagnostics of [non_empty], or with the report
    of the exit status and of where the outputs are saved. *)
Inductive exit_diag :=
| terminated_abnormally
| exit_status_invalid (s : Z)
| exit_status_differs (s : Z) (c : exit_comparison) (expected : Z).

Inductive run_diag :=
| runner_failure (d : diag)
| wrong_exit (why : exit_diag) (stdout_saved stderr_saved : option path).

Definition lift_failure {A : Type} (r : result diag A) : result run_diag A :=
  match r with
  | Ok a => Ok a
  | Fail d => Fail (runner_failure d)
  end.

(** [valid_status] and [correct_status] of [concurrent_runner::run]; [st]
    is the status of the process, if it has one. *)
Definition valid_status (st : option Z) : bool :=
  match st with
  | Some s => (0 <=? s)%Z && (s <? 256)%Z
  | None => false
  end.

Definition correct_status (st : option Z) (exit : command_exit) : bool :=
  valid_status st
  && match st with
     | Some s =>
         Bool.eqb (s =? status exit)%Z
                  (match comparison exit with exit_eq => true | exit_ne => false end)
     | None => false
     end.

(** The block of [concurrent_runner::run] between [pr.wait ()] and the
    checks of the outputs: nothing to do for a correct status; otherwise
    the cached stderr is dumped (it must be readable) and the call fails
    with the reason and the places of the outputs that are not empty. *)
Definition check_exit_status (st : option Z) (exit : command_exit)
    (stdout stderr : path) (fs : filesystem) : result run_diag () :=
  if negb (correct_status st exit) then
    (if file_exists stderr fs
     then match peek stderr fs with
          | Some _ => Ok ()
          | None => Fail (runner_failure (unable_to_read stderr))
          end
     else Ok ());;
    why ← match st with
          | None => Ok terminated_abnormally
          | Some s =>
              if negb (valid_status st) then Ok (exit_status_invalid s)
              else if negb (correct_status st exit)
                   then Ok (exit_status_differs s (comparison exit) (status exit))
                   else Fail (runner_failure (assertion "false"))
          end;
    so ← lift_failure (non_empty stdout fs);
    se ← lift_failure (non_empty stderr fs);
    Fail (wrong_exit why
                     (if so : bool then Some stdout else None)
                     (if se : bool then Some stderr else None))
  else Ok ().

(** ** Properties of [first_occurrences] *)

Lemma elem_of_first_occurrences (ps : list path) (p : path) :
  p ∈ first_occurrences ps <-> p ∈ ps.
Proof.
  revert p; induction ps as [|q ps IH]; intros p; simpl; [reflexivity|].
  rewrite !elem_of_cons, list_elem_of_filter, IH.
  destruct (decide (p = q)) as [->|Hne]; [tauto|].
  split; [intros [?|[_ ?]]; auto | intros [?|?]; auto].
Qed.

Lemma NoDup_first_occurrences (ps : list path) : NoDup (first_occurrences ps).
Proof.
  induction ps as [|q ps IH]; simpl; constructor.
  - rewrite list_elem_of_filter. intros [Hne _]. by apply Hne.
  - by apply NoDup_filter.
Qed.

Lemma first_occurrences_sublist (ps : list path) :
  first_occurrences ps `sublist_of` ps.
Proof.
  induction ps as [|q ps IH]; simpl; [constructor|].
  apply sublist_skip. etrans; [apply sublist_filter | exact IH].
Qed.

Lemma filter_ne_absent (p : path) (ps : list path) :
  p ∉ ps -> filter (fun q => q <> p) ps = ps.
Proof.
  induction ps as [|q ps IH]; intros Hp; [reflexivity|].
  apply not_elem_of_cons in Hp as [Hne Hp].
  rewrite filter_cons_True by congruence. f_equal. by apply IH.
Qed.

Lemma first_occurrences_NoDup_id (ps : list path) :
  NoDup ps -> first_occurrences ps = ps.
Proof.
  induction 1 as [|q ps Hq _ IH]; simpl; [reflexivity|].
  rewrite IH. f_equal. by apply filter_ne_absent.
Qed.

(** ** The loop of [leave] against the specification's order *)

Lemma filter_seen_step (rp : gset path) (p : path) (l : list path) :
  filter (fun q => q ∉ rp) (filter (fun q => q <> p) l)
  = filter (fun q => q ∉ {[p]} ∪ rp) l.
Proof.
  rewrite list_filter_filter. apply list_filter_iff. intros q.
  rewrite not_elem_of_union, not_elem_of_singleton. tauto.
Qed.

Lemma filter_seen_skip (rp : gset path) (p : path) (l : list path) :
  p ∈ rp ->
  filter (fun q => q ∉ rp) (filter (fun q => q <> p) l)
  = filter (fun q => q ∉ rp) l.
Proof.
  intros Hp. rewrite list_filter_filter. apply list_filter_iff.
  intros q. split; [tauto|]. intros Hq. split; [exact Hq|]. intros ->. contradiction.
Qed.

Lemma leave_loop_spec (ps : list path) (rp : gset path) (done : list path)
    (fs : filesystem) :
  leave_loop ps rp done fs
  = remove_all (filter (fun q => q ∉ rp) (first_occurrences ps)) done fs.
Proof.
  revert rp done fs; induction ps as [|p ps IH]; intros rp done fs; simpl.
  - reflexivity.
  - case_bool_decide as Hp.
    + rewrite filter_cons_False by tauto.
      rewrite filter_seen_skip by exact Hp. apply IH.
    + rewrite filter_cons_True by exact Hp. simpl.
      destruct (remove p fs) as [fs'|d]; [|reflexivity].
      rewrite filter_seen_step. apply IH.
Qed.

Lemma remove_all_done (ps done : list path) (fs : filesystem) :
  match remove_all ps done fs with
  | Ok (_, done') => done' = done ++ ps
  | Fail (_, done') =>
      exists before p after, ps = before ++ p :: after /\ done' = done ++ before ++ [p]
  end.
Proof.
  revert done fs; induction ps as [|p ps IH]; intros done fs; simpl.
  - by rewrite app_nil_r.
  - destruct (remove p fs) as [fs'|d].
    + specialize (IH (done ++ [p]) fs').
      destruct (remove_all ps (done ++ [p]) fs') as [[fs2 done2]|[d2 done2]].
      * rewrite IH, <- app_assoc. reflexivity.
      * destruct IH as (before & q & after & -> & ->).
        exists (p :: before), q, after. split; [reflexivity|].
        rewrite <- !app_assoc. reflexivity.
    + exists [], p, ps. split; reflexivity.
Qed.

Lemma remove_is_ok (p : path) (fs : filesystem) :
  is_ok (remove p fs)
  = if to_directory p then dir_exists p fs && dir_empty p fs
    else file_exists p fs.
Proof.
  unfold remove, rmdir, rmfile.
  destruct (to_directory p).
  - destruct (dir_exists p fs); simpl; [|reflexivity].
    destruct (dir_empty p fs); reflexivity.
  - destruct (file_exists p fs); reflexivity.
Qed.

(** C9.  [leave] goes through the cleanup stack in reverse registration
    order and acts on each distinct path exactly once, at its first
    occurrence in that order: it is the one-after-the-other removal of
    [first_occurrences (rev cleanups)], a duplicate-free list with exactly
    the registered paths, in the order of the reversed stack.  A removal
    succeeds exactly when a directory path exists and is empty, respectively
    a file path exists; the first one that does not makes the call fail, and
    a successful call has removed all of them in that order. *)
Theorem leave_reverse_unique (sp : scope) (fs : filesystem) :
  let order := first_occurrences (rev (cleanups sp)) in
  leave sp fs = remove_all order [] fs
  /\ NoDup order
  /\ (forall p, p ∈ order <-> p ∈ cleanups sp)
  /\ order `sublist_of` rev (cleanups sp)
  /\ (forall p fs0,
        is_ok (remove p fs0)
        = if to_directory p then dir_exists p fs0 && dir_empty p fs0
          else file_exists p fs0)
  /\ match leave sp fs with
     | Ok (_, done) => done = order
     | Fail (_, done) =>
         exists before p after,
           order = before ++ p :: after /\ done = before ++ [p]
     end.
Proof.
  intros order.
  assert (Hleave : leave sp fs = remove_all order [] fs).
  { unfold leave. rewrite leave_loop_spec. f_equal.
    clear. induction (first_occurrences (rev (cleanups sp))) as [|q l IH];
      [reflexivity|].
    rewrite filter_cons_True by apply not_elem_of_empty. by f_equal. }
  split; [exact Hleave|].
  split; [apply NoDup_first_occurrences|].
  split.
  { intros p. subst order. rewrite elem_of_first_occurrences.
    rewrite !list_elem_of_In. symmetry. apply in_rev. }
  split; [apply first_occurrences_sublist|].
  split; [apply remove_is_ok|].
  rewrite Hleave. exact (remove_all_done order [] fs).
Qed.

Lemma leave_reverse_unique_witness :
  leave (mk_scope "/t/" ["/t/p"; "/t/p"; "/t/q"])
        (mk_filesystem {[ "/t/p" := []; "/t/q" := [] ]} ∅ ∅)
  = remove_all ["/t/q"; "/t/p"] []
               (mk_filesystem {[ "/t/p" := []; "/t/q" := [] ]} ∅ ∅).
Proof.
  exact (proj1 (leave_reverse_unique
                  (mk_scope "/t/" ["/t/p"; "/t/p"; "/t/q"])
                  (mk_filesystem {[ "/t/p" := []; "/t/q" := [] ]} ∅ ∅))).
Defined.

(** Scenario S6: a path registered twice and another one once are removed
    in two steps, the later registration first. *)
Example leave_dedup_scenario :
  let fs := mk_filesystem {[ "/t/p" := []; "/t/q" := [] ]} ∅ ∅ in
  leave (mk_scope "/t/" ["/t/p"; "/t/p"; "/t/q"]) fs
  = Ok (mk_filesystem ∅ ∅ ∅, ["/t/q"; "/t/p"]).
Proof. vm_compute. reflexivity. Qed.

Example leave_missing_file :
  leave (mk_scope "/t/" ["/t/p"; "/t/q"]) (mk_filesystem {[ "/t/q" := [] ]} ∅ ∅)
  = Fail (cleanup_file_not_exist "/t/p", ["/t/q"; "/t/p"]).
Proof. vm_compute. reflexivity. Qed.

Example leave_dir_not_empty :
  leave (mk_scope "/t/" ["/t/"; "/t/q"])
        (mk_filesystem {[ "/t/q" := []; "/t/r" := [] ]} {[ "/t/" ]} ∅)
  = Fail (cleanup_dir_not_empty "/t/", ["/t/q"; "/t/"]).
Proof. vm_compute. reflexivity. Qed.

(** ** The no-output check *)

Lemma non_empty_readable (p : path) (fs : filesystem) :
  p ∉ io_faulty fs ->
  non_empty p fs
  = Ok (match files fs !! p with
        | Some (_ :: _) => negb (String.eqb p "")
        | _ => false
        end).
Proof.
  intros Hio. unfold non_empty, file_exists, peek.
  rewrite (bool_decide_eq_false_2 (p ∈ io_faulty fs)) by exact Hio.
  destruct (files fs !! p) as [data|] eqn:Hp.
  - rewrite (bool_decide_eq_true_2 (is_Some (Some data))) by (eexists; reflexivity).
    destruct (String.eqb p ""), data; reflexivity.
  - rewrite (bool_decide_eq_false_2 (is_Some None)) by (intros [? ?]; discriminate).
    destruct (String.eqb p ""); reflexivity.
Qed.

Lemma non_empty_io_error (p : path) (fs : filesystem) :
  p <> "" -> is_Some (files fs !! p) -> p ∈ io_faulty fs ->
  non_empty p fs = Fail (unable_to_read p).
Proof.
  intros Hp Hex Hio. unfold non_empty, file_exists, peek.
  apply String.eqb_neq in Hp. rewrite Hp.
  rewrite (bool_decide_eq_true_2 (is_Some (files fs !! p))) by exact Hex.
  rewrite (bool_decide_eq_true_2 (p ∈ io_faulty fs)) by exact Hio.
  reflexivity.
Qed.

(** C10 as amended.  For a redirect of type [none] the check of the
    captured output [op] passes, leaving the scope and the file system as
    they are, when the file does not exist.  When the file exists and can
    be read, the check passes exactly when it is zero-length and fails,
    with the diagnostic that says where the output is saved, exactly when
    it holds at least one byte.  When the file exists and reading it raises
    an I/O error, the check fails with the unable-to-read diagnostic,
    whatever the file holds. *)
Theorem check_output_none_empty (diff : path -> path -> filesystem -> process_end)
    (nm : string) (op : path) (rd : redirect) (sp : scope) (fs : filesystem) :
  type rd = none -> op <> "" ->
  (files fs !! op = None -> check_output diff nm op rd sp fs = Ok (sp, fs))
  /\ (op ∉ io_faulty fs ->
      (check_output diff nm op rd sp fs = Ok (sp, fs)
       <-> files fs !! op = None \/ files fs !! op = Some [])
      /\ (check_output diff nm op rd sp fs = Fail (unexpectedly_writes nm op)
          <-> exists c data, files fs !! op = Some (c :: data))
      /\ (is_ok (check_output diff nm op rd sp fs) = false
          <-> exists c data, files fs !! op = Some (c :: data)))
  /\ (op ∈ io_faulty fs -> is_Some (files fs !! op) ->
      check_output diff nm op rd sp fs = Fail (unable_to_read op)).
Proof.
  intros Hrd Hop. unfold check_output. rewrite Hrd.
  pose proof Hop as Hop'. apply String.eqb_neq in Hop'. rewrite Hop'.
  split; [|split].
  - intros Hnone. unfold non_empty, file_exists. rewrite Hop', Hnone.
    rewrite (bool_decide_eq_false_2 (is_Some None)) by (intros [? ?]; discriminate).
    reflexivity.
  - intros Hio. rewrite non_empty_readable by exact Hio. rewrite Hop'. simpl.
    destruct (files fs !! op) as [[|c data]|]; simpl.
    + repeat split; try (intros _; auto; fail); try discriminate;
        intros (? & ? & ?); discriminate.
    + repeat split; try discriminate; try (intros _; eauto; fail);
        intros [?|?]; discriminate.
    + repeat split; try (intros _; auto; fail); try discriminate;
        intros (? & ? & ?); discriminate.
  - intros Hio Hex. by rewrite non_empty_io_error.
Qed.

Lemma check_output_none_empty_witness :
  let fs := mk_filesystem {[ "/t/stdout" := [] ]} {[ "/t/" ]} ∅ in
  let sp := mk_scope "/t/" ["/t/"; "/t/stdout"] in
  check_output (fun _ _ _ => exited true) "stdout" "/t/stdout"
               (mk_redirect none 1 "" "") sp fs = Ok (sp, fs).
Proof.
  intros fs sp.
  apply (proj1 (proj2 (check_output_none_empty (fun _ _ _ => exited true) "stdout"
                         "/t/stdout" (mk_redirect none 1 "" "") sp fs
                         eq_refl ltac:(discriminate)))).
  - apply not_elem_of_empty.
  - right. reflexivity.
Defined.

(** C10, the claim as stated, fails: the check of a capture file that
    exists and is zero-length does not succeed when reading the file raises
    an I/O error; it fails then, and with the unable-to-read diagnostic, not
    the one that reports where the output is saved. *)
Lemma check_output_none_unreadable :
  let fs := mk_filesystem {[ "/t/stdout" := [] ]} {[ "/t/" ]} {[ "/t/stdout" ]} in
  let sp := mk_scope "/t/" ["/t/"; "/t/stdout"] in
  let r := check_output (fun _ _ _ => exited true) "stdout" "/t/stdout"
                        (mk_redirect none 1 "" "") sp fs in
  files fs !! "/t/stdout" = Some []
  /\ r = Fail (unable_to_read "/t/stdout")
  /\ is_ok r = false
  /\ r <> Fail (unexpectedly_writes "stdout" "/t/stdout").
Proof. vm_compute. repeat split. discriminate. Qed.

Example check_output_none_absent :
  let fs := mk_filesystem ∅ {[ "/t/" ]} ∅ in
  let sp := mk_scope "/t/" ["/t/"] in
  check_output (fun _ _ _ => exited true) "stdout" "/t/stdout"
               (mk_redirect none 1 "" "") sp fs = Ok (sp, fs).
Proof. vm_compute. reflexivity. Qed.

Example check_output_none_written :
  let fs := mk_filesystem {[ "/t/stdout" := ["x"%char] ]} {[ "/t/" ]} ∅ in
  let sp := mk_scope "/t/" ["/t/"; "/t/stdout"] in
  check_output (fun _ _ _ => exited true) "stdout" "/t/stdout"
               (mk_redirect none 1 "" "") sp fs
  = Fail (unexpectedly_writes "stdout" "/t/stdout").
Proof. vm_compute. reflexivity. Qed.

(** ** What [leave] leaves behind, [enter] and [leave] together *)

Lemma dir_empty_spec (d : dir_path) (fs : filesystem) :
  dir_empty d fs = true
  <-> (forall p, p ∈ dom (files fs) \/ p ∈ dirs fs -> under d p = false).
Proof.
  unfold dir_empty. rewrite forallb_forall. split.
  - intros H p Hp. specialize (H p). rewrite in_app_iff in H.
    rewrite <- !list_elem_of_In, !elem_of_elements in H.
    apply negb_true_iff. apply H. tauto.
  - intros H p Hp. rewrite in_app_iff in Hp.
    rewrite <- !list_elem_of_In, !elem_of_elements in Hp.
    apply negb_true_iff. apply H. tauto.
Qed.

Lemma under_irrefl (d : dir_path) : under d d = false.
Proof. unfold under. rewrite String.eqb_refl. apply andb_false_r. Qed.

Lemma leave_remove_all (sp : scope) (fs : filesystem) :
  leave sp fs = remove_all (first_occurrences (rev (cleanups sp))) [] fs.
Proof.
  unfold leave. rewrite leave_loop_spec. f_equal.
  induction (first_occurrences (rev (cleanups sp))) as [|q l IH]; [reflexivity|].
  rewrite filter_cons_True by apply not_elem_of_empty. by f_equal.
Qed.

Lemma remove_effect (p : path) (fs fs' : filesystem) :
  remove p fs = Ok fs' ->
  io_faulty fs' = io_faulty fs
  /\ (if to_directory p
      then files fs' = files fs /\ dirs fs' = dirs fs ∖ {[p]}
      else files fs' = delete p (files fs) /\ dirs fs' = dirs fs).
Proof.
  unfold remove, rmdir, rmfile. destruct (to_directory p).
  - destruct (negb (dir_exists p fs)); [discriminate|].
    destruct (negb (dir_empty p fs)); [discriminate|].
    intros [= <-]. auto.
  - destruct (file_exists p fs); [|discriminate].
    intros [= <-]. auto.
Qed.

Lemma remove_all_effect (ps done : list path) (fs fs' : filesystem)
    (done' : list path) :
  remove_all ps done fs = Ok (fs', done') ->
  io_faulty fs' = io_faulty fs
  /\ (forall q, q ∈ ps -> to_directory q = false -> files fs' !! q = None)
  /\ (forall q, q ∈ ps -> to_directory q = true -> q ∉ dirs fs')
  /\ (forall q, q ∉ ps \/ to_directory q = true -> files fs' !! q = files fs !! q)
  /\ (forall q, q ∉ ps \/ to_directory q = false -> (q ∈ dirs fs' <-> q ∈ dirs fs)).
Proof.
  revert done fs; induction ps as [|p ps IH]; intros done fs; simpl.
  - intros [= <- _]. split; [reflexivity|].
    split; [intros q Hq; by apply elem_of_nil in Hq|].
    split; [intros q Hq; by apply elem_of_nil in Hq|].
    split; reflexivity.
  - destruct (remove p fs) as [fs1|d] eqn:Hp; [|discriminate].
    intros Hrest. apply IH in Hrest as (Hio & Hfile & Hdir & Hfiles & Hdirs).
    apply remove_effect in Hp as [Hio1 Hp].
    split; [congruence|].
    destruct (to_directory p) eqn:Hdp; destruct Hp as [Hf1 Hd1].
    + split; [|split; [|split]].
      * intros q Hq Hdq. apply elem_of_cons in Hq as [->|Hq]; [congruence|].
        by apply Hfile.
      * intros q Hq Hdq. destruct (decide (q ∈ ps)) as [Hin|Hin]; [by apply Hdir|].
        apply elem_of_cons in Hq as [->|Hq]; [|contradiction].
        rewrite Hdirs by auto. rewrite Hd1.
        intros [_ Hn]%elem_of_difference. apply Hn. by apply elem_of_singleton.
      * intros q Hq. destruct (decide (q ∈ ps)) as [Hin|Hin].
        -- destruct Hq as [Hq|Hq]; [exfalso; apply Hq; by right|].
           rewrite Hfiles by auto. by rewrite Hf1.
        -- rewrite Hfiles by auto. by rewrite Hf1.
      * intros q Hq.
        assert (q ∉ ps \/ to_directory q = false) as Hq'.
        { destruct Hq as [Hq|Hq]; [left|by right].
          intros Hin. apply Hq. by right. }
        rewrite (Hdirs q Hq'). rewrite Hd1.
        assert (q <> p).
        { intros ->. destruct Hq as [Hq|Hq]; [apply Hq; by left | congruence]. }
        rewrite elem_of_difference, elem_of_singleton. tauto.
    + split; [|split; [|split]].
      * intros q Hq Hdq. destruct (decide (q ∈ ps)) as [Hin|Hin]; [by apply Hfile|].
        apply elem_of_cons in Hq as [->|Hq]; [|contradiction].
        rewrite Hfiles by auto. rewrite Hf1. apply lookup_delete_eq.
      * intros q Hq Hdq. apply elem_of_cons in Hq as [->|Hq]; [congruence|].
        by apply Hdir.
      * intros q Hq.
        assert (q ∉ ps \/ to_directory q = true) as Hq'.
        { destruct Hq as [Hq|Hq]; [left|by right].
          intros Hin. apply Hq. by right. }
        rewrite (Hfiles q Hq'). rewrite Hf1.
        assert (q <> p).
        { intros ->. destruct Hq as [Hq|Hq]; [apply Hq; by left | congruence]. }
        by rewrite lookup_delete_ne.
      * intros q Hq. destruct (decide (q ∈ ps)) as [Hin|Hin].
        -- destruct Hq as [Hq|Hq]; [exfalso; apply Hq; by right|].
           rewrite Hdirs by auto. by rewrite Hd1.
        -- rewrite Hdirs by auto. by rewrite Hd1.
Qed.

(** X1.  A [leave] that succeeds has removed what was registered and
    nothing else: no registered directory path is a directory and no
    registered file path is a file any more, every file that is not a
    registered file path and every directory that is not a registered
    directory path is as it was, and so is what cannot be read. *)
Theorem leave_removes_what_is_registered (sp : scope) (fs fs' : filesystem)
    (done : list path) :
  leave sp fs = Ok (fs', done) ->
  (forall p, p ∈ cleanups sp ->
     if to_directory p then p ∉ dirs fs' else files fs' !! p = None)
  /\ (forall q, q ∉ cleanups sp \/ to_directory q = true ->
        files fs' !! q = files fs !! q)
  /\ (forall q, q ∉ cleanups sp \/ to_directory q = false ->
        (q ∈ dirs fs' <-> q ∈ dirs fs))
  /\ io_faulty fs' = io_faulty fs.
Proof.
  rewrite leave_remove_all. intros H.
  apply remove_all_effect in H as (Hio & Hfile & Hdir & Hfiles & Hdirs).
  assert (Hin : forall p, p ∈ first_occurrences (rev (cleanups sp)) <-> p ∈ cleanups sp).
  { intros p. rewrite elem_of_first_occurrences.
    rewrite !list_elem_of_In. symmetry. apply in_rev. }
  split; [|split; [|split; [|exact Hio]]].
  - intros p Hp. apply Hin in Hp. destruct (to_directory p) eqn:Hd.
    + by apply Hdir.
    + by apply Hfile.
  - intros q Hq. apply Hfiles. rewrite Hin. exact Hq.
  - intros q Hq. apply Hdirs. rewrite Hin. exact Hq.
Qed.

(** X2.  [enter] and [leave] of a scope with nothing registered yet, whose
    working directory (a directory path) has nothing under it, with a
    [mkdir] that, when it succeeds, makes the directory and nothing else.
    Where the working directory is there [enter] succeeds without touching
    the file system; where it is not, [enter] succeeds exactly when [mkdir]
    does and fails as [mkdir] fails.  An [enter] that succeeds leaves the
    working directory in place and registered as the only cleanup, and
    touches no file; a [leave] right after it removes the working directory
    and nothing else, also when the directory was there before [enter];
    when it was not, the file system is back as it was. *)
Theorem enter_leave_round_trip
    (mkdir : dir_path -> filesystem -> result diag filesystem)
    (sp : scope) (fs : filesystem) :
  cleanups sp = [] ->
  to_directory (wd_path sp) = true ->
  dir_empty (wd_path sp) fs = true ->
  (forall fs1, mkdir (wd_path sp) fs = Ok fs1 ->
     fs1 = mk_filesystem (files fs) ({[wd_path sp]} ∪ dirs fs) (io_faulty fs)) ->
  (dir_exists (wd_path sp) fs = true ->
   enter mkdir sp fs = Ok (register (wd_path sp) sp, fs))
  /\ (dir_exists (wd_path sp) fs = false ->
      enter mkdir sp fs
      = match mkdir (wd_path sp) fs with
        | Ok fs1 => Ok (register (wd_path sp) sp, fs1)
        | Fail d => Fail d
        end)
  /\ (forall sp' fs',
        enter mkdir sp fs = Ok (sp', fs') ->
        cleanups sp' = [wd_path sp]
        /\ dir_exists (wd_path sp) fs' = true
        /\ files fs' = files fs
        /\ leave sp' fs'
           = Ok (mk_filesystem (files fs) (dirs fs ∖ {[wd_path sp]}) (io_faulty fs),
                 [wd_path sp])
        /\ (dir_exists (wd_path sp) fs = false ->
            dirs fs ∖ {[wd_path sp]} = dirs fs)).
Proof.
  intros Hcl Hdir Hempty Hmk. unfold enter. rewrite Hempty. simpl.
  set (wd := wd_path sp) in *.
  assert (Hleave : forall fs1,
            dir_exists wd fs1 = true -> dir_empty wd fs1 = true ->
            leave (register wd sp) fs1
            = Ok (mk_filesystem (files fs1) (dirs fs1 ∖ {[wd]}) (io_faulty fs1), [wd])).
  { intros fs1 Hex Hem. unfold leave, register. rewrite Hcl. simpl.
    rewrite bool_decide_eq_false_2 by apply not_elem_of_empty.
    unfold remove, rmdir. rewrite Hdir, Hex, Hem. reflexivity. }
  destruct (dir_exists wd fs) eqn:Hex; simpl.
  - split; [reflexivity|]. split; [discriminate|].
    intros sp' fs' [= <- <-].
    split; [unfold register; by rewrite Hcl|]. split; [exact Hex|].
    split; [reflexivity|]. split; [by apply Hleave | discriminate].
  - split; [discriminate|]. split; [by destruct (mkdir wd fs)|].
    intros sp' fs'. destruct (mkdir wd fs) as [fs1|d] eqn:Hfs1; simpl; [|discriminate].
    intros [= <- <-]. rewrite (Hmk fs1 eq_refl).
    split; [unfold register; by rewrite Hcl|].
    assert (Hex' : dir_exists wd
                     (mk_filesystem (files fs) ({[wd]} ∪ dirs fs) (io_faulty fs)) = true).
    { unfold dir_exists. simpl. apply bool_decide_eq_true.
      apply elem_of_union. left. by apply elem_of_singleton. }
    split; [exact Hex'|]. split; [reflexivity|].
    assert (Hnot : wd ∉ dirs fs).
    { unfold dir_exists in Hex. by apply bool_decide_eq_false in Hex. }
    assert (Hsame : ({[wd]} ∪ dirs fs) ∖ {[wd]} = dirs fs ∖ {[wd]}).
    { apply set_eq. intros q.
      rewrite !elem_of_difference, elem_of_union, elem_of_singleton. tauto. }
    split.
    + rewrite Hleave; [simpl; by rewrite Hsame | exact Hex' |].
      apply dir_empty_spec. simpl. intros p [Hp|Hp].
      * apply (proj1 (dir_empty_spec wd fs) Hempty). by left.
      * apply elem_of_union in Hp as [Hp|Hp].
        -- apply elem_of_singleton in Hp. subst p. apply under_irrefl.
        -- apply (proj1 (dir_empty_spec wd fs) Hempty). by right.
    + intros _. apply set_eq. intros q.
      rewrite elem_of_difference, elem_of_singleton. split; [tauto|].
      intros Hq. split; [exact Hq|]. intros ->. contradiction.
Qed.

Lemma length_append (a b : string) :
  String.length (a +:+ b) = String.length a + String.length b.
Proof. induction a as [|c a IH]; simpl; [reflexivity | by rewrite IH]. Qed.

Lemma orig_differs (op : path) : op +:+ ".orig" <> op.
Proof.
  intros H. apply (f_equal String.length) in H.
  rewrite length_append in H. simpl in H. lia.
Qed.

Lemma orig_not_empty (op : path) : String.eqb (op +:+ ".orig") "" = false.
Proof.
  apply String.eqb_neq. intros H. apply (f_equal String.length) in H.
  rewrite length_append in H. simpl in H. lia.
Qed.

(** X3.  For a here-string or here-document redirect [check_output] saves
    the expected text to [op.orig]: if that cannot be written the call
    fails with unable-to-write; otherwise it succeeds exactly when [diff]
    exits with zero, and then [op.orig] holds the expected text and is the
    last path registered for cleanup.  When [diff] exits with non-zero the
    failure names the output and the expected output that are not empty. *)
Theorem check_output_here_expected (diff : path -> path -> filesystem -> process_end)
    (nm : string) (op : path) (rd : redirect) (sp : scope) (fs : filesystem) :
  type rd = here_string \/ type rd = here_document ->
  op <> "" ->
  let orp : path := op +:+ ".orig" in
  let expected :=
    list_ascii_of_string
      (match type rd with here_string => str rd | _ => doc rd end) in
  let fs1 := mk_filesystem (<[orp := expected]> (files fs)) (dirs fs) (io_faulty fs) in
  (orp ∈ io_faulty fs ->
   check_output diff nm op rd sp fs = Fail (unable_to_write orp))
  /\ (orp ∉ io_faulty fs ->
      (forall sp' fs',
         check_output diff nm op rd sp fs = Ok (sp', fs')
         <-> diff orp op fs1 = exited true /\ sp' = register orp sp /\ fs' = fs1)
      /\ (diff orp op fs1 = exited false -> op ∉ io_faulty fs ->
          check_output diff nm op rd sp fs
          = Fail (doesnt_match nm
                    (match files fs !! op with
                     | Some (_ :: _) => Some op
                     | _ => None
                     end)
                    (match expected with
                     | _ :: _ => Some orp
                     | [] => None
                     end)))).
Proof.
  intros Hrd Hop orp expected fs1.
  assert (Hcheck : check_output diff nm op rd sp fs
                   = match write_file orp expected fs with
                     | None => Fail (unable_to_write orp)
                     | Some fs1 =>
                         match diff orp op fs1 with
                         | exited true => Ok (register orp sp, fs1)
                         | exited false =>
                             o ← output_info op fs1;
                             e ← output_info orp fs1;
                             Fail (doesnt_match nm o e)
                         | wait_io_error => Fail (failed_to_compare nm)
                         | process_error child => Fail (unable_to_execute child)
                         end
                     end).
  { unfold check_output. apply String.eqb_neq in Hop.
    destruct Hrd as [Hrd|Hrd]; subst expected; rewrite Hrd, Hop; reflexivity. }
  rewrite Hcheck. unfold write_file. split.
  - intros Hio. by rewrite (bool_decide_eq_true_2 (orp ∈ io_faulty fs)) by exact Hio.
  - intros Hio. rewrite (bool_decide_eq_false_2 (orp ∈ io_faulty fs)) by exact Hio.
    subst fs1. set (fs1 := mk_filesystem _ _ _). split.
    + intros sp' fs'. destruct (diff orp op fs1) as [[|]|  |child] eqn:Hdiff.
      * split; [intros [= <- <-]; auto | intros (_ & -> & ->); reflexivity].
      * split; [|intros (? & _); discriminate].
        destruct (output_info op fs1) as [o|d]; simpl; [|discriminate].
        destruct (output_info orp fs1) as [e|d]; simpl; discriminate.
      * split; [discriminate | intros (? & _); discriminate].
      * split; [discriminate | intros (? & _); discriminate].
    + intros -> Hopio. unfold output_info.
      rewrite (non_empty_readable op fs1) by exact Hopio.
      rewrite (non_empty_readable orp fs1) by exact Hio.
      cbn [files fs1]. rewrite lookup_insert_eq.
      rewrite (lookup_insert_ne (files fs) orp op) by apply orig_differs.
      apply String.eqb_neq in Hop. rewrite Hop.
      pose proof (orig_not_empty op) as Horp. fold orp in Horp. rewrite Horp.
      destruct (files fs !! op) as [[|c data]|]; destruct expected; reflexivity.
Qed.

Lemma non_empty_cases (p : path) (fs : filesystem) :
  (exists b, non_empty p fs = Ok b) \/ non_empty p fs = Fail (unable_to_read p).
Proof.
  unfold non_empty. destruct (_ || _); [eauto|].
  destruct (peek p fs); eauto.
Qed.

Lemma correct_status_spec (st : option Z) (exit : command_exit) :
  correct_status st exit = true
  <-> exists s, st = Some s /\ (0 <= s < 256)%Z
        /\ (s = status exit <-> comparison exit = exit_eq).
Proof.
  unfold correct_status, valid_status. destruct st as [s|]; simpl.
  - rewrite !andb_true_iff, Z.leb_le, Z.ltb_lt.
    assert (Bool.eqb (s =? status exit)%Z
              match comparison exit with exit_eq => true | exit_ne => false end = true
            <-> (s = status exit <-> comparison exit = exit_eq)) as ->.
    { rewrite <- Z.eqb_eq.
      destruct (s =? status exit)%Z, (comparison exit); simpl;
        split; try discriminate; try reflexivity; try (split; congruence);
        intros [H1 H2]; try (specialize (H1 eq_refl)); try (specialize (H2 eq_refl));
        discriminate. }
    split.
    + intros [Hr Hc]. exists s. auto.
    + intros (s' & [= <-] & Hr & Hc). auto.
  - split; [discriminate | intros (s & [=] & _)].
Qed.

(** X4.  The exit status check of [run] passes exactly when the process
    has a status in 0..255 that compares to the expected one as the command
    asks (equal for [==], different for [!=]); a status out of that range
    is wrong whatever the comparison.  The reason it reports is: abnormal
    termination without a status, an invalid status out of range, a
    mismatch otherwise; the [assert (false)] branch is never reached; and
    with readable outputs a wrong status always gives that report. *)
Theorem exit_status_verdict (st : option Z) (exit : command_exit)
    (stdout stderr : path) (fs : filesystem) :
  let r := check_exit_status st exit stdout stderr fs in
  (r = Ok ()
   <-> exists s, st = Some s /\ (0 <= s < 256)%Z
         /\ (s = status exit <-> comparison exit = exit_eq))
  /\ (forall what, r <> Fail (runner_failure (assertion what)))
  /\ (forall why so se, r = Fail (wrong_exit why so se) ->
        why = match st with
              | None => terminated_abnormally
              | Some s =>
                  if ((0 <=? s) && (s <? 256))%Z
                  then exit_status_differs s (comparison exit) (status exit)
                  else exit_status_invalid s
              end)
  /\ (stdout ∉ io_faulty fs -> stderr ∉ io_faulty fs ->
      is_ok r = false -> exists why so se, r = Fail (wrong_exit why so se)).
Proof.
  intros r. subst r. rewrite <- correct_status_spec. unfold check_exit_status.
  destruct (correct_status st exit) eqn:Hcorrect; simpl.
  { split; [tauto|]. repeat split; discriminate. }
  set (why := match st with
              | None => terminated_abnormally
              | Some s =>
                  if ((0 <=? s) && (s <? 256))%Z
                  then exit_status_differs s (comparison exit) (status exit)
                  else exit_status_invalid s
              end).
  assert (Hwhy : match st with
                 | None => Ok terminated_abnormally
                 | Some s =>
                     if negb (valid_status st) then Ok (exit_status_invalid s)
                     else Ok (exit_status_differs s (comparison exit) (status exit))
                 end = Ok (E:=run_diag) why).
  { subst why. destruct st as [s|]; [|reflexivity]. simpl.
    by destruct ((0 <=? s)%Z && (s <? 256)%Z). }
  rewrite Hwhy. clear Hwhy.
  assert (Hdump : forall p,
            (if file_exists p fs
             then match peek p fs with
                  | Some _ => Ok ()
                  | None => Fail (runner_failure (unable_to_read p))
                  end
             else Ok ()) = Ok (E:=run_diag) ()
            \/ (if file_exists p fs
                then match peek p fs with
                     | Some _ => Ok ()
                     | None => Fail (runner_failure (unable_to_read p))
                     end
                else Ok ()) = Fail (runner_failure (unable_to_read p))).
  { intros p. destruct (file_exists p fs); [destruct (peek p fs)|]; auto. }
  split; [|split; [|split]].
  - split; [|discriminate].
    destruct (Hdump stderr) as [-> | ->]; simpl; [|discriminate].
    destruct (non_empty stdout fs); simpl; [|discriminate].
    destruct (non_empty stderr fs); simpl; discriminate.
  - intros what.
    destruct (Hdump stderr) as [-> | ->]; simpl; [|discriminate].
    destruct (non_empty_cases stdout fs) as [[b ->] | ->]; simpl; [|discriminate].
    destruct (non_empty_cases stderr fs) as [[b' ->] | ->]; simpl; discriminate.
  - intros why' so se.
    destruct (Hdump stderr) as [-> | ->]; simpl; [|discriminate].
    destruct (non_empty stdout fs); simpl; [|discriminate].
    destruct (non_empty stderr fs); simpl; [|discriminate].
    by intros [= <- _ _].
  - intros Hso Hse _.
    rewrite (non_empty_readable stdout fs Hso), (non_empty_readable stderr fs Hse).
    unfold file_exists, peek.
    rewrite (bool_decide_eq_false_2 (stderr ∈ io_faulty fs)) by exact Hse.
    destruct (files fs !! stderr) as [data|]; simpl; eauto.
Qed.

Lemma leave_removes_what_is_registered_witness :
  let fs := mk_filesystem {[ "/t/p" := []; "/t/keep" := [] ]} {[ "/t/" ]} ∅ in
  let fs' := mk_filesystem {[ "/t/keep" := [] ]} {[ "/t/" ]} ∅ in
  files fs' !! "/t/keep" = files fs !! "/t/keep".
Proof.
  intros fs fs'.
  refine (proj1 (proj2 (leave_removes_what_is_registered
                          (mk_scope "/t/" ["/t/p"]) fs fs' ["/t/p"] _))
            "/t/keep" _).
  - vm_compute. reflexivity.
  - left. intros H. apply list_elem_of_singleton in H. discriminate H.
Defined.

Lemma enter_leave_round_trip_witness :
  let mkdir (d : dir_path) (fs : filesystem) : result diag filesystem :=
    Ok (mk_filesystem (files fs) ({[d]} ∪ dirs fs) (io_faulty fs)) in
  let sp := mk_scope "/t/" [] in
  let fs := mk_filesystem {[ "/other" := [] ]} ∅ ∅ in
  enter mkdir sp fs
  = match mkdir (wd_path sp) fs with
    | Ok fs1 => Ok (register (wd_path sp) sp, fs1)
    | Fail d => Fail d
    end.
Proof.
  intros mkdir sp fs.
  refine (proj1 (proj2 (enter_leave_round_trip mkdir sp fs eq_refl eq_refl _ _)) _).
  - vm_compute. reflexivity.
  - intros fs1 [= <-]. reflexivity.
  - vm_compute. reflexivity.
Defined.

Lemma check_output_here_expected_witness :
  let sp := mk_scope "/t/" ["/t/"; "/t/stdout"] in
  let fs := mk_filesystem {[ "/t/stdout" := ["h"%char] ]} {[ "/t/" ]} ∅ in
  check_output (fun _ _ _ => exited true) "stdout" "/t/stdout"
               (mk_redirect here_string 1 "h" "") sp fs
  = Ok (register "/t/stdout.orig" sp,
        mk_filesystem (<["/t/stdout.orig" := ["h"%char]]> (files fs))
                      (dirs fs) (io_faulty fs)).
Proof.
  intros sp fs.
  refine (proj2 (proj1 (proj2 (check_output_here_expected
                                 (fun _ _ _ => exited true) "stdout" "/t/stdout"
                                 (mk_redirect here_string 1 "h" "") sp fs _ _) _)
                   _ _) _).
  - left. reflexivity.
  - discriminate.
  - apply not_elem_of_empty.
  - split; [reflexivity|]. split; reflexivity.
Defined.

End Runner.

(** * Targets and the target set (build2/target.cxx) *)

Module Target.

Definition path := string.
Definition dir_path := string.

(** ** Target types *)

(** The functions a target type descriptor points to. *)
Inductive factory_fn := target_factory | file_factory | man_factory.

Inductive extension_fn :=
| target_extension_null
| target_extension_assert
| target_extension_var (var def : string)
| target_extension_fix (e : string)
| buildfile_target_extension.

Inductive print_fn := target_print_0_ext_verb | target_print_1_ext_verb.

Inductive search_fn := search_target | search_file | search_alias.

Inductive target_type := mk_target_type {
  type_name : string;
  base : option target_type;
  factory : option factory_fn;
  extension : option extension_fn;
  print : option print_fn;
  search : search_fn;
  see_through : bool
}.

(** Target types are compared by identity; every descriptor has a name of
    its own, which stands for its address. *)
Definition type_eqb (x y : target_type) : bool :=
  String.eqb (type_name x) (type_name y).

(** [target_type::is_a]: walk the chain of bases. *)
Fixpoint is_a (this tt : target_type) : bool :=
  match this with
  | mk_target_type _ b _ _ _ _ _ =>
      type_eqb this tt
      || match b with
         | Some p => is_a p tt
         | None => false
         end
  end.

Definition file_ext_var : string := "extension".
Definition file_ext_def : string := "".
Definition man1_ext : string := "1".

Definition target_static_type : target_type :=
  mk_target_type "target" None None None None search_target false.

Definition mtime_target_static_type : target_type :=
  mk_target_type "mtime_target" (Some target_static_type)
                 None None None search_target false.

Definition path_target_static_type : target_type :=
  mk_target_type "path_target" (Some mtime_target_static_type)
                 None None None search_target false.

Definition file_static_type : target_type :=
  mk_target_type "file" (Some path_target_static_type)
                 (Some file_factory)
                 (Some (target_extension_var file_ext_var file_ext_def))
                 (Some target_print_1_ext_verb) search_file false.

Definition alias_static_type : target_type :=
  mk_target_type "alias" (Some target_static_type)
                 (Some target_factory) None None search_alias false.

Definition dir_static_type : target_type :=
  mk_target_type "dir" (Some alias_static_type)
                 (Some target_factory) None None search_alias false.

Definition fsdir_static_type : target_type :=
  mk_target_type "fsdir" (Some target_static_type)
                 (Some target_factory) None None search_target false.

Definition buildfile_static_type : target_type :=
  mk_target_type "buildfile" (Some file_static_type)
                 (Some file_factory) (Some buildfile_target_extension)
                 None search_file false.

Definition doc_static_type : target_type :=
  mk_target_type "doc" (Some file_static_type)
                 (Some file_factory)
                 (Some (target_extension_var file_ext_var file_ext_def))
                 (Some target_print_1_ext_verb) search_file false.

Definition man_static_type : target_type :=
  mk_target_type "man" (Some doc_static_type)
                 (Some man_factory) (Some target_extension_null)
                 (Some target_print_1_ext_verb) search_file false.

Definition man1_static_type : target_type :=
  mk_target_type "man1" (Some man_static_type)
                 (Some file_factory) (Some (target_extension_fix man1_ext))
                 (Some target_print_0_ext_verb) search_file false.

(** ** Actions, recipes, target states *)

(** Modelled from the spec: an action is the triple of a meta-operation id,
    an outer operation id (0 when the operation is not nested) and an inner
    operation id; ids are positions in the operation tables, with [perform]
    the first meta-operation and [default], [update], [clean] the first
    three operations (the operation header is not part of the sources). *)
Record action := mk_action {
  meta_operation : N;
  operation : N;
  outer_operation : N
}.

Definition perform_id : N := 1.
Definition default_id : N := 1.
Definition update_id : N := 2.
Definition clean_id : N := 3.

(** An [action_id] is what [switch (a)] and [a == perform_update_id] look
    at: the meta-operation with the inner operation. *)
Definition action_id : Type := N * N.
Definition to_action_id (a : action) : action_id := (meta_operation a, operation a).
Definition perform_update_id : action_id := (perform_id, update_id).

Inductive target_state :=
| unknown | unchanged | postponed | changed | failed | group.

#[global] Instance target_state_eq_dec : EqDecision target_state.
Proof. solve_decision. Defined.

(** A recipe: the empty one, one of the engine's three stock functions, or
    a function of a rule, named by the rule and the function. *)
Inductive recipe_type :=
| empty_recipe
| noop_recipe
| default_recipe
| group_recipe
| rule_recipe (rule fn : string).

Definition is_empty (r : recipe_type) : bool :=
  match r with empty_recipe => true | _ => false end.

(** [recipe_.target<recipe_function*> ()] with [*f == &noop_action]. *)
Definition is_noop (r : recipe_type) : bool :=
  match r with noop_recipe => true | _ => false end.

Abbreviation target_id := nat (only parsing).

(** Modelled from the spec: timestamps (butl) are points in time; two values
    that are no real time, below every real one, stand for "not known yet"
    and "no such file". *)
Definition timestamp : Type := Z.
Definition timestamp_unknown : timestamp := (-1)%Z.
Definition timestamp_nonexistent : timestamp := 0%Z.

(** ** Targets *)

Record target := mk_target {
  type : target_type;
  dir : dir_path;
  out : dir_path;
  name : string;
  ext : option string;
  path_ : path;
  mtime_ : timestamp;
  has_prerequisites : bool;
  prerequisite_targets : list target_id;
  action_ : action;
  recipe_ : recipe_type;
  raw_state : target_state;
  dependents : nat
}.

Record target_key := mk_target_key {
  key_type : target_type;
  key_dir : dir_path;
  key_out : dir_path;
  key_name : string;
  key_ext : option string
}.

(** [target::key ()]: the key holds references into the target, the
    extension included, so it follows the target's extension. *)
Definition key (t : target) : target_key :=
  mk_target_key (type t) (dir t) (out t) (name t) (ext t).

Definition set_ext (e : option string) (t : target) : target :=
  mk_target (type t) (dir t) (out t) (name t) e (path_ t) (mtime_ t)
            (has_prerequisites t) (prerequisite_targets t)
            (action_ t) (recipe_ t) (raw_state t) (dependents t).

Inductive diag :=
| assertion (what : string)
| man_without_section (n : string)
| no_default_extension (n : string)
| path_mismatch (assigned derived : path)
| bad_cast (to : string)
| no_recipe_prerequisite_ahead (t pt : target_id) (by_time : option Z)
| unable_to_create_directory (d : dir_path)
| other_failure (what : string).

(** ** target::recipe *)

Section recipe.

(** The override order and the equality of actions ([action::operator>]
    and [operator==] of the operation header, not part of the sources). *)
Variable action_gt : action -> action -> bool.
Variable action_eq : action -> action -> bool.

(** [target::recipe (a, r)]. *)
Definition recipe (a : action) (r : recipe_type) (t : target) : result diag target :=
  if negb (action_gt a (action_ t) || is_empty (recipe_ t))
  then Fail (assertion "a > action || !recipe_")
  else
    let override := action_eq a (action_ t) && negb (is_empty (recipe_ t)) in
    if override && negb (is_noop (recipe_ t))
    then Fail (assertion "f != nullptr && *f == &noop_action")
    else
      Ok (mk_target (type t) (dir t) (out t) (name t) (ext t) (path_ t)
                    (mtime_ t) (has_prerequisites t) (prerequisite_targets t)
                    a r
                    (if is_noop r then unchanged else unknown)
                    (if override then dependents t else 0)).

End recipe.

(** ** The target set *)

(** Modelled from the spec: the comparison of target keys (it is declared
    with [target_key] in the target header, which is not part of the
    sources).  The type is compared by identity and dir, out and name by
    value; an unspecified extension is taken to be the same as any other
    (this is what lets [find] meet a target whose extension differs from the
    key's, "assuming" it "is the same as the one with unspecified
    extension"), and two specified extensions are compared by value. *)
Definition ext_eqb (x y : option string) : bool :=
  match x, y with
  | Some a, Some b => String.eqb a b
  | _, _ => true
  end.

Definition key_eqb (x y : target_key) : bool :=
  type_eqb (key_type x) (key_type y)
  && String.eqb (key_dir x) (key_dir y)
  && String.eqb (key_out x) (key_out y)
  && String.eqb (key_name x) (key_name y)
  && ext_eqb (key_ext x) (key_ext y).

(** Modelled from the spec: the order of the map, [operator<] of target
    keys (declared with [target_key] in the target header).  Keys that
    differ in type, dir, out or name never compare equal; among keys that
    agree on them the order is the one of the extensions, which are compared
    only when both are specified. *)
Definition ext_ltb (x y : option string) : bool :=
  match x, y with
  | Some a, Some b => String.ltb a b
  | _, _ => false
  end.

(** The set owns its targets, never drops one and hands out references to
    them: it is the list of the targets in the order they were entered, and
    a reference is a position in it. *)
Abbreviation target_set := (list target) (only parsing).

(** [map_.find (k)]: of the targets whose key compares equal to [k], the
    first one in the order of the map, which is not the order of entry.  The
    walk keeps the best candidate met so far and replaces it by one whose
    extension is less.  (For a key with a specified extension at most one
    target of a set built by [insert] compares equal, for one with an
    unspecified extension all of its type, dir, out and name do, and they
    have an unspecified extension and are alone, or specified extensions
    that differ from one another.) *)
Fixpoint map_first (k : target_key) (ts : list target) (i : nat)
    (best : option (target_id * target)) : option (target_id * target) :=
  match ts with
  | [] => best
  | t :: ts' =>
      map_first k ts' (S i)
        (if key_eqb (key t) k
         then match best with
              | Some (_, u) => if ext_ltb (ext t) (ext u) then Some (i, t) else best
              | None => Some (i, t)
              end
         else best)
  end.

Definition map_find (k : target_key) (ts : target_set) : option (target_id * target) :=
  map_first k ts 0 None.

(** [target_set::find (k, trace)]: the iterator, and the set with the
    extension of the target found updated. *)
Definition find (k : target_key) (ts : target_set) : option target_id * target_set :=
  match map_find k ts with
  | Some (i, t) =>
      (Some i,
       if bool_decide (ext t <> key_ext k)
       then match key_ext k with
            | Some e => <[i := set_ext (Some e) t]> ts
            | None => ts
            end
       else ts)
  | None => (None, ts)
  end.

Definition new_target (tt : target_type) (d o : dir_path) (n : string)
    (e : option string) : target :=
  mk_target tt d o n e "" timestamp_unknown false [] (mk_action 0 0 0)
            empty_recipe unknown 0.

(** [tt.factory (tt, dir, out, name, ext)].  [file_factory] and
    [man_factory] are the functions of target.cxx.  Modelled from the spec:
    [target_factory] (a template of the target header, not part of the
    sources) makes the target with the extension as given. *)
Definition call_factory (tt : target_type) (d o : dir_path) (n : string)
    (e : option string) : result diag target :=
  match factory tt with
  | None => Fail (assertion "tt.factory != nullptr")
  | Some target_factory => Ok (new_target tt d o n e)
  | Some file_factory =>
      Ok (new_target tt d o n (Some (match e with Some x => x | None => "" end)))
  | Some man_factory =>
      match e with
      | None => Fail (man_without_section n)
      | Some _ => Ok (new_target tt d o n e)
      end
  end.

(** [target_set::insert (tt, dir, out, name, ext, trace)]: the reference to
    the target, the inserted flag, and the set afterwards.  [map_.emplace]
    enters the new target unless a key equal to its own is in the map
    already, and returns that entry if so. *)
Definition insert (tt : target_type) (d o : dir_path) (n : string)
    (e : option string) (ts : target_set)
    : result diag (target_id * bool * target_set) :=
  let '(i, ts1) := find (mk_target_key tt d o n e) ts in
  match i with
  | Some i => Ok (i, false, ts1)
  | None =>
      pt ← call_factory tt d o n e;
      match map_find (key pt) ts1 with
      | Some (j, _) => Ok (j, true, ts1)
      | None => Ok (length ts1, true, ts1 ++ [pt])
      end
  end.

Definition insert_key (k : target_key) (ts : target_set) :=
  insert (key_type k) (key_dir k) (key_out k) (key_name k) (key_ext k) ts.

(** Any number of further calls of [insert], each of which returns. *)
Fixpoint insert_all (ks : list target_key) (ts : target_set) : option target_set :=
  match ks with
  | [] => Some ts
  | k :: ks' =>
      match insert_key k ts with
      | Ok (_, _, ts') => insert_all ks' ts'
      | Fail _ => None
      end
  end.

(** ** path_target::derive_path *)

Section derive_path.

(** [target_extension_var<var, def>] (a template of the header): the
    extension the variable [var] gives the target in its base scope, or
    else [def]. *)
Variable extension_var : string -> string -> target_key -> option string.

(** The call [f (key (), base_scope ())] of an extension function. *)
Definition call_extension (f : extension_fn) (tk : target_key)
    : result diag (option string) :=
  match f with
  | target_extension_null => Ok None
  | target_extension_assert => Fail (assertion "false")
  | target_extension_var var def => Ok (extension_var var def tk)
  | target_extension_fix e => Ok (Some e)
  | buildfile_target_extension =>
      Ok (Some (if String.eqb (key_name tk) "buildfile" then "" else "build"))
  end.

Definition set_ext_path (e : option string) (p : path) (t : target) : target :=
  mk_target (type t) (dir t) (out t) (name t) e p (mtime_ t)
            (has_prerequisites t) (prerequisite_targets t)
            (action_ t) (recipe_ t) (raw_state t) (dependents t).

Definition opt_string (o : option string) : string :=
  match o with Some x => x | None => "" end.

(** [path_target::derive_path (de, np, ns)]. *)
Definition derive_path (de np ns : option string) (t : target) : result diag target :=
  let n := opt_string np +:+ name t +:+ opt_string ns in
  if bool_decide (de <> None) && bool_decide (extension (type t) = None)
  then Fail (assertion "de == nullptr || type ().extension != nullptr")
  else
    e ← match ext t with
        | Some e => Ok e
        | None =>
            e1 ← match extension (type t) with
                 | Some f => call_extension f (key t)
                 | None => Ok None
                 end;
            match e1, de with
            | Some e, _ => Ok e
            | None, Some d => Ok d
            | None, None => Fail (no_default_extension (name t))
            end
        end;
    let n := if String.eqb e "" then n else n +:+ "." +:+ e in
    let p := dir t +:+ n in
    if String.eqb (path_ t) "" then Ok (set_ext_path (Some e) p t)
    else if negb (String.eqb p (path_ t)) then Fail (path_mismatch (path_ t) p)
    else Ok (set_ext_path (Some e) (path_ t) t).

End derive_path.

(** ** How the set changes: targets only gain an extension *)

Definition same4 (x y : target_key) : bool :=
  type_eqb (key_type x) (key_type y)
  && String.eqb (key_dir x) (key_dir y)
  && String.eqb (key_out x) (key_out y)
  && String.eqb (key_name x) (key_name y).

(** [t'] is [t] but for the extension, which is the one of [t] unless [t]
    had it unspecified. *)
Definition ext_le (t t' : target) : Prop :=
  t' = set_ext (ext t') t /\ (ext t = None \/ ext t' = ext t).

(** [ts'] holds the targets of [ts] at the same positions, each with at
    most its extension specified meanwhile, and maybe more targets. *)
Definition grows (ts ts' : target_set) : Prop :=
  exists us new, ts' = us ++ new /\ Forall2 ext_le ts us.

(** A key with a specified extension is settled on the reference [r] when
    the target at [r] has the key's type, dir, out, name and extension, and
    no target entered before it compares equal to the key. *)
Definition settled (k : target_key) (r : target_id) (ts : target_set) : Prop :=
  exists t, ts !! r = Some t
    /\ same4 (key t) k = true
    /\ (key_ext k <> None /\ ext t = key_ext k)
    /\ forall j u, ts !! j = Some u -> j < r -> key_eqb (key u) k = false.

(** ** Instances for the examples *)

(** A type whose targets can be entered with the extension unspecified (the
    language modules have such types). *)
Definition cxx_static_type : target_type :=
  mk_target_type "cxx" (Some file_static_type) (Some target_factory)
                 (Some (target_extension_var "extension" "cxx"))
                 (Some target_print_1_ext_verb) search_file false.

(** An override order for the examples: an action is stronger than another
    one with a different inner operation, and than one with the same inner
    operation that is nested in another outer operation. *)
Definition overrides (x y : action) : bool :=
  negb (N.eqb (meta_operation x) (meta_operation y)
        && N.eqb (operation x) (operation y))
  || (negb (N.eqb (outer_operation x) (outer_operation y))
      && negb (N.eqb (outer_operation y) 0)).

Definition same_inner (x y : action) : bool :=
  N.eqb (meta_operation x) (meta_operation y)
  && N.eqb (operation x) (operation y).

(** ** Printing target keys *)

Section print.

(** [diag_relative] (build2/diagnostics, not part of the sources): the
    directory as the diagnostics show it. *)
Variable diag_relative : dir_path -> bool -> string.

(** [to_stream (os, k, ev)], with [sv] the verbosity of the stream
    ([stream_verb (os)]): what is written to the stream. *)
Definition to_stream (sv : N) (k : target_key) (ev : N) : result diag string :=
  let n := negb (String.eqb (key_name k) "") in
  let before :=
    if n then (if (sv <? 2)%N then diag_relative (key_dir k) false else key_dir k)
    else "" in
  inside ←
    (if n then
       match extension (key_type k) with
       | Some _ =>
           Ok (key_name k
               +:+ (if (0 <? ev)%N
                       && ((1 <? ev)%N
                           || match key_ext k with
                              | Some e => negb (String.eqb e "")
                              | None => false
                              end)
                    then "." +:+ match key_ext k with Some e => e | None => "?" end
                    else ""))
       | None =>
           if bool_decide (key_ext k = None) then Ok (key_name k)
           else Fail (assertion "k.ext == nullptr")
       end
     else Ok (key_dir k));
  Ok (before +:+ type_name (key_type k) +:+ "{" +:+ inside +:+ "}"
      +:+ (if negb (String.eqb (key_out k) "")
           then "@" +:+ diag_relative (key_out k) false
           else "")).

(** [target_print_0_ext_verb] and [target_print_1_ext_verb]. *)
Definition print_0_ext_verb (sv : N) (k : target_key) : result diag string :=
  to_stream sv k (if (sv <? 2)%N then 0%N else sv).

Definition print_1_ext_verb (sv : N) (k : target_key) : result diag string :=
  to_stream sv k (if (sv <? 1)%N then 1%N else sv).

(** [operator<< (os, k)] for a target key. *)
Definition print_key (sv : N) (k : target_key) : result diag string :=
  match print (key_type k) with
  | Some target_print_0_ext_verb => print_0_ext_verb sv k
  | Some target_print_1_ext_verb => print_1_ext_verb sv k
  | None => to_stream sv k sv
  end.

End print.

(** The factory of a type leaves no extension unspecified. *)
Definition specifies_extension (tt : target_type) : bool :=
  match factory tt with
  | Some file_factory | Some man_factory => true
  | _ => false
  end.

(** ** Facts about the comparison of keys and the growth of the set *)

Lemma key_eqb_split (x y : target_key) :
  key_eqb x y = same4 x y && ext_eqb (key_ext x) (key_ext y).
Proof. reflexivity. Qed.

Lemma ext_eqb_Some (x : option string) (e : string) :
  ext_eqb x (Some e) = true -> x = None \/ x = Some e.
Proof.
  destruct x as [a|]; simpl; [|auto].
  intros H. apply String.eqb_eq in H. subst. auto.
Qed.

Lemma ext_eqb_refl (x : option string) : ext_eqb x x = true.
Proof. destruct x; simpl; [apply String.eqb_refl | reflexivity]. Qed.

Lemma set_ext_id (t : target) : set_ext (ext t) t = t.
Proof. destruct t; reflexivity. Qed.

Lemma ext_le_refl (t : target) : ext_le t t.
Proof. split; [symmetry; apply set_ext_id | auto]. Qed.

Lemma ext_le_trans (t u v : target) : ext_le t u -> ext_le u v -> ext_le t v.
Proof.
  intros [Hu Hu'] [Hv Hv']. split.
  - rewrite Hv, Hu. destruct t; reflexivity.
  - destruct Hu' as [?|Hu']; [auto|]. destruct Hv' as [Hv'|Hv'].
    + left. congruence.
    + right. congruence.
Qed.

Lemma ext_le_same4 (t t' : target) (k : target_key) :
  ext_le t t' -> same4 (key t') k = same4 (key t) k.
Proof. intros [-> _]. reflexivity. Qed.

Lemma Forall2_ext_le_refl (ts : target_set) : Forall2 ext_le ts ts.
Proof. induction ts; constructor; auto using ext_le_refl. Qed.

Lemma grows_refl (ts : target_set) : grows ts ts.
Proof.
  exists ts, []. split; [by rewrite app_nil_r | apply Forall2_ext_le_refl].
Qed.

Lemma grows_trans (ts1 ts2 ts3 : target_set) :
  grows ts1 ts2 -> grows ts2 ts3 -> grows ts1 ts3.
Proof.
  intros (us & new & -> & H12) (vs & new' & -> & H23).
  apply Forall2_app_inv_l in H23 as (vs1 & vs2 & H23 & _ & ->).
  exists vs1, (vs2 ++ new'). split; [by rewrite app_assoc|].
  clear - H12 H23. revert vs1 H23.
  induction H12 as [|t u ts us Htu _ IH]; intros vs1 H23.
  - inversion H23. constructor.
  - inversion H23 as [|? v ? vs Huv Hrest]; subst. constructor.
    + by eapply ext_le_trans.
    + by apply IH.
Qed.

Lemma grows_lookup (ts ts' : target_set) (i : nat) (t : target) :
  grows ts ts' -> ts !! i = Some t ->
  exists t', ts' !! i = Some t' /\ ext_le t t'.
Proof.
  intros (us & new & -> & H) Hi.
  destruct (Forall2_lookup_l _ _ _ _ _ H Hi) as (t' & Hi' & Hle).
  exists t'. split; [by apply lookup_app_l_Some | exact Hle].
Qed.

(** ** The walk of the map *)

Lemma compare_refl (s : string) : String.compare s s = Eq.
Proof.
  pose proof (String.compare_antisym s s) as H.
  destruct (String.compare s s); simpl in H; congruence.
Qed.

Lemma ext_ltb_irrefl (x : option string) : ext_ltb x x = false.
Proof.
  destruct x as [a|]; simpl; [|reflexivity].
  unfold String.ltb. by rewrite compare_refl.
Qed.

Lemma ltb_trans (a b c : string) :
  String.ltb a b = true -> String.ltb b c = true -> String.ltb a c = true.
Proof.
  unfold String.ltb.
  assert (H : String.compare a b = Lt -> String.compare b c = Lt
              -> String.compare a c = Lt).
  { revert b c. induction a as [|x a IH]; intros [|y b] [|z c]; simpl;
      try discriminate; try reflexivity.
    unfold Ascii.compare.
    destruct (N.compare_spec (N_of_ascii x) (N_of_ascii y)) as [Hxy|Hxy|Hxy];
      destruct (N.compare_spec (N_of_ascii y) (N_of_ascii z)) as [Hyz|Hyz|Hyz];
      destruct (N.compare_spec (N_of_ascii x) (N_of_ascii z)) as [Hxz|Hxz|Hxz];
      try discriminate; try reflexivity; try lia; intros Hab Hbc.
    by apply (IH b c). }
  destruct (String.compare a b), (String.compare b c); try discriminate.
  intros _ _. by rewrite H.
Qed.

Lemma ext_ltb_trans (x y z : option string) :
  ext_ltb x y = true -> ext_ltb y z = true -> ext_ltb x z = true.
Proof.
  destruct x as [a|], y as [b|], z as [c|]; simpl; try discriminate.
  apply ltb_trans.
Qed.

Lemma map_first_None (k : target_key) (ts : target_set) (i : nat)
    (best : option (target_id * target)) :
  map_first k ts i best = None
  <-> best = None /\ forall t, t ∈ ts -> key_eqb (key t) k = false.
Proof.
  revert i best. induction ts as [|t ts IH]; intros i best; simpl.
  - split.
    + intros ->. split; [reflexivity|]. intros t Ht. by apply elem_of_nil in Ht.
    + by intros [-> _].
  - rewrite IH. split.
    + intros [Hb Hall]. destruct (key_eqb (key t) k) eqn:Hk.
      * destruct best as [[j u]|]; [destruct (ext_ltb (ext t) (ext u))|];
          discriminate.
      * split; [exact Hb|]. intros u Hu.
        apply elem_of_cons in Hu as [-> | Hu]; auto.
    + intros [-> Hall]. rewrite (Hall t) by constructor.
      split; [reflexivity|]. intros u Hu. apply Hall. by constructor.
Qed.

Lemma map_first_Some (k : target_key) (ts : target_set) (i : nat)
    (best : option (target_id * target)) (r : target_id) (u : target) :
  map_first k ts i best = Some (r, u) ->
  best = Some (r, u)
  \/ exists j, r = i + j /\ ts !! j = Some u /\ key_eqb (key u) k = true.
Proof.
  revert i best. induction ts as [|t ts IH]; intros i best; simpl; [auto|].
  intros H. apply IH in H as [H|(j & -> & Hj & Hk)].
  - destruct (key_eqb (key t) k) eqn:Hk; [|by left].
    assert (best = Some (r, u) \/ (i, t) = (r, u)) as [Hb|Hb].
    { destruct best as [[j v]|]; [destruct (ext_ltb (ext t) (ext v))|].
      - right. congruence.
      - by left.
      - right. congruence. }
    + by left.
    + injection Hb as <- <-. right. exists 0.
      split; [lia|]. split; [reflexivity | exact Hk].
  - right. exists (S j). split; [lia|]. split; [exact Hj | exact Hk].
Qed.

Lemma map_first_keep (k : target_key) (ts : target_set) (i j : nat) (v : target) :
  (forall u, u ∈ ts -> key_eqb (key u) k = true -> ext_ltb (ext u) (ext v) = false) ->
  map_first k ts i (Some (j, v)) = Some (j, v).
Proof.
  revert i. induction ts as [|t ts IH]; intros i Hall; simpl; [reflexivity|].
  assert (Hrest : forall u, u ∈ ts -> key_eqb (key u) k = true
                            -> ext_ltb (ext u) (ext v) = false).
  { intros u Hu. apply Hall. by constructor. }
  destruct (key_eqb (key t) k) eqn:Hk; [|by apply IH].
  rewrite (Hall t); [by apply IH | constructor | exact Hk].
Qed.

(** Where no candidate is less than another one the walk stops at the
    candidate entered first. *)
Lemma map_first_first (k : target_key) (ts : target_set) (i : nat)
    (r : target_id) (t : target) :
  (forall u v, u ∈ ts -> v ∈ ts -> key_eqb (key u) k = true ->
               key_eqb (key v) k = true -> ext_ltb (ext u) (ext v) = false) ->
  map_first k ts i None = Some (r, t) ->
  exists j, r = i + j /\ ts !! j = Some t
    /\ forall j' u, ts !! j' = Some u -> j' < j -> key_eqb (key u) k = false.
Proof.
  revert i. induction ts as [|t0 ts IH]; intros i Hall; simpl; [discriminate|].
  assert (Hrest : forall u v, u ∈ ts -> v ∈ ts -> key_eqb (key u) k = true ->
                              key_eqb (key v) k = true
                              -> ext_ltb (ext u) (ext v) = false).
  { intros u v Hu Hv. apply Hall; by constructor. }
  destruct (key_eqb (key t0) k) eqn:Hk.
  - rewrite map_first_keep.
    + intros [= <- <-]. exists 0. split; [lia|]. split; [reflexivity|].
      intros j' u _ Hlt. lia.
    + intros u Hu Hku. apply Hall; [by constructor | constructor | exact Hku | exact Hk].
  - intros H. apply IH in H as (j & -> & Hj & Hbefore); [|exact Hrest].
    exists (S j). split; [lia|]. split; [exact Hj|].
    intros [|j'] u Hu Hlt.
    + injection Hu as <-. exact Hk.
    + apply (Hbefore j' u Hu). lia.
Qed.

Lemma map_find_None (k : target_key) (ts : target_set) :
  map_find k ts = None <-> forall t, t ∈ ts -> key_eqb (key t) k = false.
Proof. unfold map_find. rewrite map_first_None. tauto. Qed.

(** What [map_.find] returns is a target of the set whose key compares
    equal. *)
Lemma map_find_Some (k : target_key) (ts : target_set) (i : target_id) (t : target) :
  map_find k ts = Some (i, t) -> ts !! i = Some t /\ key_eqb (key t) k = true.
Proof.
  intros H. apply map_first_Some in H as [H|(j & -> & Hj & Hk)]; [discriminate|].
  auto.
Qed.

Lemma map_find_unique (k : target_key) (ts : target_set) (i : target_id) (t : target) :
  ts !! i = Some t ->
  key_eqb (key t) k = true ->
  (forall j u, ts !! j = Some u -> key_eqb (key u) k = true -> j = i) ->
  map_find k ts = Some (i, t).
Proof.
  intros Hi Hk Hone. destruct (map_find k ts) as [[r u]|] eqn:Hfind.
  - apply map_find_Some in Hfind as [Hr Hu].
    pose proof (Hone r u Hr Hu) as ->. congruence.
  - exfalso. rewrite map_find_None in Hfind.
    rewrite (Hfind t) in Hk; [discriminate|]. by eapply list_elem_of_lookup_2.
Qed.

Lemma map_first_below (k : target_key) (ts : target_set) (i j : nat)
    (v : target) (r : target_id) (t : target) (x : option string) :
  map_first k ts i (Some (j, v)) = Some (r, t) ->
  ext_ltb x (ext v) = false -> ext_ltb x (ext t) = false.
Proof.
  revert i j v. induction ts as [|t0 ts IH]; intros i j v; simpl.
  - by intros [= <- <-].
  - destruct (key_eqb (key t0) k); [|apply IH].
    destruct (ext_ltb (ext t0) (ext v)) eqn:Hlt; [|apply IH].
    intros H Hx. apply (IH _ _ _ H).
    destruct (ext_ltb x (ext t0)) eqn:Hx0; [|reflexivity].
    rewrite (ext_ltb_trans _ _ _ Hx0 Hlt) in Hx. discriminate.
Qed.

Lemma map_first_least (k : target_key) (ts : target_set) (i : nat)
    (best : option (target_id * target)) (r : target_id) (t : target) :
  map_first k ts i best = Some (r, t) ->
  forall u, u ∈ ts -> key_eqb (key u) k = true -> ext_ltb (ext u) (ext t) = false.
Proof.
  revert i best. induction ts as [|t0 ts IH]; intros i best; simpl.
  - intros _ u Hu. by apply elem_of_nil in Hu.
  - intros H u Hu Hk. apply elem_of_cons in Hu as [-> | Hu]; [|by eapply IH].
    rewrite Hk in H. destruct best as [[j v]|].
    + destruct (ext_ltb (ext t0) (ext v)) eqn:Hlt.
      * apply (map_first_below _ _ _ _ _ _ _ _ H). apply ext_ltb_irrefl.
      * apply (map_first_below _ _ _ _ _ _ _ _ H). exact Hlt.
    + apply (map_first_below _ _ _ _ _ _ _ _ H). apply ext_ltb_irrefl.
Qed.

(** What [map_.find] returns is first in the order of the map: no target
    that compares equal to the key has a lesser extension. *)
Lemma map_find_least (k : target_key) (ts : target_set) (i : target_id) (t : target) :
  map_find k ts = Some (i, t) ->
  forall u, u ∈ ts -> key_eqb (key u) k = true -> ext_ltb (ext u) (ext t) = false.
Proof. apply map_first_least. Qed.

(** Two targets that compare equal to a key with a specified extension are
    not ordered by the map. *)
Lemma specified_incomparable (k : target_key) (u v : target) :
  key_ext k <> None ->
  key_eqb (key u) k = true -> key_eqb (key v) k = true ->
  ext_ltb (ext u) (ext v) = false.
Proof.
  intros He Hu Hv. rewrite key_eqb_split in Hu, Hv.
  apply andb_true_iff in Hu as [_ Hu]. apply andb_true_iff in Hv as [_ Hv].
  destruct (key_ext k) as [e|]; [|contradiction].
  apply ext_eqb_Some in Hu, Hv. simpl in Hu, Hv.
  destruct Hu as [Hu|Hu], Hv as [Hv|Hv]; rewrite Hu, Hv;
    [reflexivity | reflexivity | reflexivity | apply ext_ltb_irrefl].
Qed.

(** For a key with a specified extension [map_.find] returns the target
    entered first among those that compare equal. *)
Lemma map_find_specified (k : target_key) (ts : target_set) (i : target_id)
    (t : target) :
  key_ext k <> None ->
  map_find k ts = Some (i, t)
  <-> ts !! i = Some t
      /\ key_eqb (key t) k = true
      /\ forall j u, ts !! j = Some u -> j < i -> key_eqb (key u) k = false.
Proof.
  intros He.
  assert (Hfirst : forall r u, map_find k ts = Some (r, u) ->
            forall j v, ts !! j = Some v -> j < r -> key_eqb (key v) k = false).
  { intros r u H. apply map_first_first in H as (j & -> & _ & Hbefore).
    - exact Hbefore.
    - intros x y _ _. by apply specified_incomparable. }
  split.
  - intros H. pose proof (map_find_Some _ _ _ _ H) as [Hi Hk]. eauto.
  - intros (Hi & Hk & Hbefore).
    destruct (map_find k ts) as [[r u]|] eqn:Hfind.
    + pose proof (map_find_Some _ _ _ _ Hfind) as [Hr Hu].
      pose proof (Hfirst r u eq_refl) as Hbefore'.
      assert (r = i) as ->.
      { destruct (lt_eq_lt_dec r i) as [[Hlt|Heq]|Hgt]; [|exact Heq|].
        - rewrite (Hbefore r u Hr Hlt) in Hu. discriminate.
        - rewrite (Hbefore' i t Hi Hgt) in Hk. discriminate. }
      congruence.
    + exfalso. rewrite map_find_None in Hfind.
      rewrite (Hfind t) in Hk; [discriminate|]. by eapply list_elem_of_lookup_2.
Qed.

(** [find] leaves a target alone or specifies its unspecified extension. *)
Lemma find_result (k : target_key) (ts : target_set) :
  match find k ts with
  | (Some i, ts') =>
      exists t, ts !! i = Some t
        /\ key_eqb (key t) k = true
        /\ map_find k ts = Some (i, t)
        /\ ((ts' = ts /\ (key_ext k = None \/ ext t = key_ext k))
            \/ (exists e, key_ext k = Some e /\ ext t = None
                  /\ ts' = <[i := set_ext (Some e) t]> ts))
  | (None, ts') =>
      ts' = ts /\ forall t, t ∈ ts -> key_eqb (key t) k = false
  end.
Proof.
  unfold find.
  destruct (map_find k ts) as [[i t]|] eqn:Hfind.
  - pose proof (map_find_Some _ _ _ _ Hfind) as [Hi Hk].
    exists t. split; [exact Hi|]. split; [exact Hk|]. split; [reflexivity|].
    case_bool_decide as Hne.
    + destruct (key_ext k) as [e|] eqn:He; [|left; auto].
      right. exists e. split; [reflexivity|]. split; [|reflexivity].
      rewrite key_eqb_split in Hk. apply andb_true_iff in Hk as [_ Hk].
      rewrite He in Hk. apply ext_eqb_Some in Hk as [Hk|Hk]; [exact Hk|].
      simpl in Hk. contradiction.
    + left. split; [reflexivity|]. right.
      destruct (decide (ext t = key_ext k)) as [?|Hn]; [assumption|].
      contradiction.
  - split; [reflexivity|]. by apply map_find_None.
Qed.

Lemma find_ext_le (k : target_key) (ts : target_set) :
  Forall2 ext_le ts (find k ts).2.
Proof.
  pose proof (find_result k ts) as H.
  destruct (find k ts) as [[i|] ts']; simpl.
  - destruct H as (t & Hi & _ & _ & [[-> _]|(e & _ & Hnone & ->)]).
    + apply Forall2_ext_le_refl.
    + rewrite <- (list_insert_id ts i t Hi) at 1.
      apply Forall2_insert; [apply Forall2_ext_le_refl|].
      split; [reflexivity | auto].
  - destruct H as [-> _]. apply Forall2_ext_le_refl.
Qed.

Lemma find_set_lookup (k : target_key) (ts : target_set) (i : nat) (t : target) :
  ts !! i = Some t ->
  exists t', (find k ts).2 !! i = Some t'
    /\ t' = set_ext (ext t') t
    /\ (ext t' = ext t \/ (ext t = None /\ ext t' = key_ext k)).
Proof.
  intros Hi. pose proof (find_result k ts) as H.
  destruct (find k ts) as [[r|] ts']; simpl.
  - destruct H as (u & Hr & _ & _ & [[-> _]|(e & He & Hnone & ->)]).
    + exists t. rewrite set_ext_id. auto.
    + destruct (decide (r = i)) as [->|Hne].
      * pose proof (eq_trans (eq_sym Hr) Hi) as [= ->].
        exists (set_ext (Some e) t). split; [|split].
        -- apply list_lookup_insert_eq. by eapply lookup_lt_Some.
        -- reflexivity.
        -- right. split; [exact Hnone | by rewrite He].
      * exists t. rewrite list_lookup_insert_ne by exact Hne.
        rewrite set_ext_id. auto.
  - destruct H as [-> _]. exists t. rewrite set_ext_id. auto.
Qed.

Lemma call_factory_result (tt : target_type) (d o : dir_path) (n : string)
    (e : option string) (pt : target) :
  call_factory tt d o n e = Ok pt ->
  exists e', pt = new_target tt d o n e' /\ (e = None \/ e' = e).
Proof.
  unfold call_factory. destruct (factory tt) as [[| |]|]; try discriminate.
  - intros [= <-]. eauto.
  - intros [= <-]. destruct e; eauto.
  - destruct e; [|discriminate]. intros [= <-]. eauto.
Qed.

Lemma settled_grows (k : target_key) (r : target_id) (ts ts' : target_set) :
  settled k r ts -> grows ts ts' -> settled k r ts'.
Proof.
  intros (t & Hr & H4 & [Hsome Hext] & Hbefore) Hgrow.
  destruct (grows_lookup _ _ _ _ Hgrow Hr) as (t' & Hr' & Hle).
  exists t'. split; [exact Hr'|]. split; [by rewrite (ext_le_same4 t t')|]. split.
  - split; [exact Hsome|].
    destruct Hle as [_ [Hnone|Hsame]]; congruence.
  - intros j u' Hj Hlt.
    assert (exists u, ts !! j = Some u /\ ext_le u u') as (u & Hu & Huu').
    { destruct Hgrow as (us & new & -> & HF).
      assert (j < length us) as Hlen.
      { rewrite <- (Forall2_length _ _ _ HF). apply lookup_lt_Some in Hr. lia. }
      rewrite lookup_app_l in Hj by exact Hlen.
      destruct (Forall2_lookup_r _ _ _ _ _ HF Hj) as (u & Hu & Huu'). eauto. }
    specialize (Hbefore j u Hu Hlt).
    rewrite key_eqb_split in Hbefore |- *.
    rewrite (ext_le_same4 u u') by exact Huu'.
    destruct (same4 (key u) k); [|reflexivity]. simpl in *.
    destruct Huu' as [_ [Hnone|Hsame]].
    + unfold key in Hbefore. simpl in Hbefore. rewrite Hnone in Hbefore.
      discriminate.
    + unfold key in *. simpl in *. by rewrite Hsame.
Qed.

Lemma settled_map_find (k : target_key) (r : target_id) (ts : target_set) :
  settled k r ts -> exists t, map_find k ts = Some (r, t) /\ ext t = key_ext k.
Proof.
  intros (t & Hr & H4 & [Hsome Hext] & Hbefore).
  exists t. split; [|exact Hext].
  apply map_find_specified; [exact Hsome|].
  split; [exact Hr|]. split; [|exact Hbefore].
  rewrite key_eqb_split, H4. simpl. rewrite Hext. apply ext_eqb_refl.
Qed.

Lemma settled_find (k : target_key) (r : target_id) (ts : target_set) :
  settled k r ts -> find k ts = (Some r, ts).
Proof.
  intros H. apply settled_map_find in H as (t & Hfind & Hext).
  unfold find. rewrite Hfind.
  rewrite bool_decide_eq_false_2; [reflexivity|]. intros Hne. by apply Hne.
Qed.

Lemma settled_insert (k : target_key) (r : target_id) (ts : target_set) :
  settled k r ts -> insert_key k ts = Ok (r, false, ts).
Proof.
  intros H. apply settled_find in H.
  unfold insert_key, insert. destruct k as [tt d o n e]. simpl in *.
  by rewrite H.
Qed.

(** What a call of [insert] that returns has done. *)
Lemma insert_result (k : target_key) (ts : target_set) (r : target_id)
    (b : bool) (ts1 : target_set) :
  insert_key k ts = Ok (r, b, ts1) ->
  (exists new, ts1 = (find k ts).2 ++ new)
  /\ (exists t, ts1 !! r = Some t
        /\ same4 (key t) k = true
        /\ (key_ext k = None \/ ext t = key_ext k))
  /\ (key_ext k <> None -> settled k r ts1)
  /\ (b = true <-> forall t, t ∈ ts -> key_eqb (key t) k = false)
  /\ find k ts1 = (Some r, ts1).
Proof.
  unfold insert_key, insert. destruct k as [tt d o n e]. simpl.
  set (k := mk_target_key tt d o n e).
  pose proof (find_result k ts) as H.
  destruct (find k ts) as [[i|] ts'] eqn:Hfind; simpl.
  - intros [= <- <- <-].
    destruct H as (t & Hi & Hk & Hmap & Hupd).
    split; [exists []; by rewrite app_nil_r|].
    pose proof Hk as Hk'.
    rewrite key_eqb_split in Hk'. apply andb_true_iff in Hk' as [H4 _].
    assert (Hset : key_ext k <> None -> settled k i ts').
    { intros Hsome.
      apply (map_find_specified k ts i t Hsome) in Hmap as (_ & _ & Hbefore).
      destruct Hupd as [[-> [Hnone|Hext]]|(e' & He & Hnone & ->)].
      - contradiction.
      - exists t. auto.
      - exists (set_ext (Some e') t). split; [|split; [|split]].
        + apply list_lookup_insert_eq. by eapply lookup_lt_Some.
        + exact H4.
        + split; [exact Hsome | by rewrite He].
        + intros j u Hj Hlt.
          rewrite list_lookup_insert_ne in Hj by lia. eauto. }
    split; [|split; [exact Hset|split]].
    + destruct Hupd as [[-> Hext]|(e' & He & Hnone & ->)].
      * exists t. auto.
      * exists (set_ext (Some e') t). split; [|split].
        -- apply list_lookup_insert_eq. by eapply lookup_lt_Some.
        -- exact H4.
        -- right. unfold k in He. simpl in He |- *. congruence.
    + split; [discriminate|]. intros Hall.
      rewrite (Hall t) in Hk; [discriminate|]. by eapply list_elem_of_lookup_2.
    + destruct (key_ext k) as [e0|] eqn:He0.
      * apply settled_find. apply Hset. discriminate.
      * destruct Hupd as [[-> _]|(e' & He & _)]; [exact Hfind|].
        simpl in He0. congruence.
  - destruct H as [-> Hall].
    destruct (call_factory tt d o n e) as [pt|dg] eqn:Hpt; simpl; [|discriminate].
    apply call_factory_result in Hpt as (e' & -> & He').
    destruct (map_find _ ts) as [[j u]|] eqn:Hemplace.
    + exfalso. apply map_find_Some in Hemplace as (Hj & Hu).
      apply list_elem_of_lookup_2 in Hj. specialize (Hall u Hj).
      rewrite key_eqb_split in Hu, Hall.
      apply andb_true_iff in Hu as [H4 Hu]. change (same4 (key u) k = true) in H4.
      rewrite H4 in Hall. simpl in Hall, Hu.
      destruct He' as [-> | ->]; [|congruence].
      by destruct (ext u).
    + intros [= <- <- <-].
      assert (H4 : same4 (key (new_target tt d o n e')) k = true).
      { unfold same4. simpl. unfold type_eqb. by rewrite !String.eqb_refl. }
      assert (Hnew : (ts ++ [new_target tt d o n e']) !! length ts
                     = Some (new_target tt d o n e')).
      { by apply list_lookup_middle. }
      assert (Hk : key_eqb (key (new_target tt d o n e')) k = true).
      { rewrite key_eqb_split, H4. simpl.
        destruct He' as [-> | ->]; [by destruct e' | apply ext_eqb_refl]. }
      assert (Hbefore : forall j u, (ts ++ [new_target tt d o n e']) !! j = Some u ->
                          j < length ts -> key_eqb (key u) k = false).
      { intros j u Hj Hlt. rewrite lookup_app_l in Hj by exact Hlt.
        apply Hall. by eapply list_elem_of_lookup_2. }
      split; [eauto|]. split; [|split; [|split; [tauto|]]].
      * exists (new_target tt d o n e'). split; [exact Hnew|]. split; [exact H4|].
        simpl. destruct He' as [-> | ->]; auto.
      * intros Hsome. exists (new_target tt d o n e').
        split; [exact Hnew|]. split; [exact H4|]. split; [|exact Hbefore].
        split; [exact Hsome|]. simpl in *. destruct He' as [-> | ->]; congruence.
      * unfold find.
        rewrite (map_find_unique k _ (length ts) (new_target tt d o n e') Hnew Hk).
        -- simpl. destruct He' as [-> | ->]; [by case_bool_decide|].
           rewrite bool_decide_eq_false_2; [reflexivity|]. intros Hne. by apply Hne.
        -- intros j u Hj Hu.
           destruct (decide (j < length ts)) as [Hlt|Hge].
           ++ rewrite (Hbefore j u Hj Hlt) in Hu. discriminate.
           ++ apply lookup_lt_Some in Hj. rewrite length_app in Hj. simpl in Hj. lia.
Qed.

Lemma find_insert (k : target_key) (r : target_id) (ts : target_set) :
  find k ts = (Some r, ts) -> insert_key k ts = Ok (r, false, ts).
Proof.
  intros H. unfold insert_key, insert. destruct k as [tt d o n e]. simpl in *.
  by rewrite H.
Qed.

(** Once a call of [insert] with a key has returned, the set holds a target
    that compares equal to the key for good. *)
Lemma insert_found_later (k : target_key) (ts : target_set) (r : target_id)
    (b : bool) (ts1 ts2 : target_set) :
  insert_key k ts = Ok (r, b, ts1) ->
  grows ts1 ts2 ->
  exists r', find k ts2 = (Some r', ts2).
Proof.
  intros H Hgrow. apply insert_result in H as (_ & (t & Hr & H4 & Hext) & Hset & _).
  destruct (key_ext k) as [e|] eqn:He.
  - exists r. apply settled_find. eapply settled_grows; [|exact Hgrow].
    rewrite <- He in Hset. apply Hset. congruence.
  - destruct (grows_lookup _ _ _ _ Hgrow Hr) as (t' & Hr' & Hle).
    assert (Hk : key_eqb (key t') k = true).
    { rewrite key_eqb_split, (ext_le_same4 t t' k Hle), H4, He. simpl.
      by destruct (ext t'). }
    unfold find. destruct (map_find k ts2) as [[i u]|] eqn:Hfind.
    + exists i. rewrite He. by case_bool_decide.
    + exfalso. rewrite map_find_None in Hfind.
      rewrite (Hfind t') in Hk; [discriminate|]. by eapply list_elem_of_lookup_2.
Qed.

Lemma insert_grows (k : target_key) (ts : target_set) (r : target_id)
    (b : bool) (ts1 : target_set) :
  insert_key k ts = Ok (r, b, ts1) -> grows ts ts1.
Proof.
  intros H. apply insert_result in H as [[new ->] _].
  exists (find k ts).2, new. split; [reflexivity | apply find_ext_le].
Qed.

Lemma insert_all_grows (ks : list target_key) (ts ts' : target_set) :
  insert_all ks ts = Some ts' -> grows ts ts'.
Proof.
  revert ts; induction ks as [|k ks IH]; intros ts; simpl.
  - intros [= <-]. apply grows_refl.
  - destruct (insert_key k ts) as [[[r b] ts1]|dg] eqn:Hk; [|discriminate].
    intros H. eapply grows_trans; [by eapply insert_grows | by apply IH].
Qed.

(** When [insert] returns: the set holds a target with that key, or the
    factory of the type makes one. *)
Lemma insert_is_ok (k : target_key) (ts : target_set) :
  is_ok (insert_key k ts)
  = bool_decide (is_Some (map_find k ts))
    || is_ok (call_factory (key_type k) (key_dir k) (key_out k) (key_name k)
                           (key_ext k)).
Proof.
  unfold insert_key, insert, find. destruct k as [tt d o n e]. simpl.
  destruct (map_find _ ts) as [[i t]|] eqn:Hfind; simpl; [reflexivity|].
  destruct (call_factory tt d o n e) as [pt|dg]; simpl; [|reflexivity].
  by destruct (map_find (key pt) ts) as [[j u]|].
Qed.

(** C1 as amended.  A call of [insert] with the key (type, dir, out, name,
    ext) that returns the reference [r]: its inserted flag is true exactly
    when the set held no target whose key compares equal to that key (an
    unspecified extension being equal to any); the next call with the key
    returns [r] again with the flag false and leaves the set as it is; every
    later call with the key, whatever other calls of [insert] came in
    between, has the flag false and leaves the set as it is, and returns
    [r] if the extension of the key is specified. *)
Theorem insert_interning (tt : target_type) (d o : dir_path) (n : string)
    (e : option string) (ts : target_set) (r : target_id) (b : bool)
    (ts1 : target_set) :
  insert tt d o n e ts = Ok (r, b, ts1) ->
  (b = true
   <-> forall t, t ∈ ts -> key_eqb (key t) (mk_target_key tt d o n e) = false)
  /\ insert tt d o n e ts1 = Ok (r, false, ts1)
  /\ (forall ks ts2,
        insert_all ks ts1 = Some ts2 ->
        exists r', insert tt d o n e ts2 = Ok (r', false, ts2)
                   /\ (e <> None -> r' = r)).
Proof.
  intros H. pose proof H as H0.
  apply (insert_result (mk_target_key tt d o n e)) in H
    as (_ & _ & Hset & Hflag & Hnext).
  split; [exact Hflag|]. split.
  - exact (find_insert _ _ _ Hnext).
  - intros ks ts2 Hks. apply insert_all_grows in Hks.
    destruct (insert_found_later (mk_target_key tt d o n e) _ _ _ _ _ H0 Hks)
      as [r' Hr'].
    exists r'. split; [exact (find_insert _ _ _ Hr')|].
    intros He. specialize (Hset He).
    pose proof (settled_find _ _ _ (settled_grows _ _ _ _ Hset Hks)) as Hr.
    congruence.
Qed.

Lemma insert_interning_witness :
  let hello := new_target file_static_type "d/" "" "hello" (Some "") in
  insert file_static_type "d/" "" "hello" None [] = Ok (0, true, [hello])
  /\ insert file_static_type "d/" "" "hello" None [hello] = Ok (0, false, [hello]).
Proof.
  intros hello. split; [reflexivity|].
  apply (insert_interning file_static_type "d/" "" "hello" None [] 0 true [hello]).
  reflexivity.
Defined.

(** C1, the claim as stated, fails twice.  The first call with a key has
    the flag false when a call with another key that compares equal to it
    came before: [file{hello.}] entered with the empty extension is
    [file{hello}] with the extension unspecified.  And two calls with the
    same key return different targets: [cxx{x}] without an extension is the
    target entered first, that target is [cxx{x.cxx}] from the next call on,
    [cxx{x.cpp}] is entered beside it and comes before it in the map, and
    then [cxx{x}] without an extension is [cxx{x.cpp}]. *)
Lemma insert_not_interning :
  ~ (forall ks k ts r b ts',
       insert_all ks [] = Some ts ->
       k ∉ ks ->
       insert_key k ts = Ok (r, b, ts') ->
       b = true)
  /\ ~ (forall k ts r b ts1 ks ts2 r' b' ts3,
          insert_key k ts = Ok (r, b, ts1) ->
          insert_all ks ts1 = Some ts2 ->
          insert_key k ts2 = Ok (r', b', ts3) ->
          r' = r).
Proof.
  split.
  - intros H.
    specialize (H [mk_target_key file_static_type "d/" "" "hello" (Some "")]
                  (mk_target_key file_static_type "d/" "" "hello" None)
                  [new_target file_static_type "d/" "" "hello" (Some "")]
                  0 false
                  [new_target file_static_type "d/" "" "hello" (Some "")]
                  eq_refl).
    assert (Hnew : mk_target_key file_static_type "d/" "" "hello" None
                   ∉ [mk_target_key file_static_type "d/" "" "hello" (Some "")]).
    { intros Hin. apply list_elem_of_singleton in Hin. discriminate Hin. }
    specialize (H Hnew eq_refl). discriminate H.
  - intros H.
    specialize (H (mk_target_key cxx_static_type "d/" "" "x" None)
                  [] 0 true
                  [new_target cxx_static_type "d/" "" "x" None]
                  [mk_target_key cxx_static_type "d/" "" "x" (Some "cxx");
                   mk_target_key cxx_static_type "d/" "" "x" (Some "cpp")]
                  [new_target cxx_static_type "d/" "" "x" (Some "cxx");
                   new_target cxx_static_type "d/" "" "x" (Some "cpp")]
                  1 false
                  [new_target cxx_static_type "d/" "" "x" (Some "cxx");
                   new_target cxx_static_type "d/" "" "x" (Some "cpp")]
                  eq_refl eq_refl eq_refl).
    discriminate H.
Qed.

(** The first call with a key on the empty set enters the target the
    factory makes, with the flag true. *)
Lemma insert_first (tt : target_type) (d o : dir_path) (n : string)
    (e : option string) :
  insert tt d o n e [] = pt ← call_factory tt d o n e; Ok (0, true, [pt]).
Proof. unfold insert. simpl. by destruct (call_factory tt d o n e). Qed.

Example insert_interleaved :
  let k (e : option string) := mk_target_key cxx_static_type "d/" "" "x" e in
  let a := new_target cxx_static_type "d/" "" "x" (Some "cpp") in
  let c := new_target cxx_static_type "d/" "" "x" (Some "cxx") in
  insert_key (k None) [] = Ok (0, true, [new_target cxx_static_type "d/" "" "x" None])
  /\ insert_all [k None; k (Some "cpp"); k (Some "cxx")] [] = Some [a; c]
  /\ insert_key (k None) [a; c] = Ok (0, false, [a; c])
  /\ insert_key (k (Some "cpp")) [a; c] = Ok (0, false, [a; c])
  /\ insert_key (k (Some "cxx")) [a; c] = Ok (1, false, [a; c])
  /\ insert_key (k None) [c; a] = Ok (1, false, [c; a]).
Proof. vm_compute. repeat split. Qed.

Example insert_man_without_section :
  insert man_static_type "d/" "" "b" None [] = Fail (man_without_section "b").
Proof. reflexivity. Qed.

(** C2.  A find or an insert with a key leaves every target of the set
    where it is and as it is but for the extension; the extension of a
    target changes only from unspecified to the extension of the key, and a
    specified one stays what it is ([find] raises no error at all). *)
Theorem extension_update_monotonic (k : target_key) (ts : target_set)
    (i : nat) (t : target) :
  ts !! i = Some t ->
  (exists t', (find k ts).2 !! i = Some t'
     /\ t' = set_ext (ext t') t
     /\ (ext t' = ext t \/ (ext t = None /\ ext t' = key_ext k)))
  /\ (forall r b ts1,
        insert_key k ts = Ok (r, b, ts1) ->
        exists t', ts1 !! i = Some t'
          /\ t' = set_ext (ext t') t
          /\ (ext t' = ext t \/ (ext t = None /\ ext t' = key_ext k))).
Proof.
  intros Hi. pose proof (find_set_lookup k ts i t Hi) as (t' & Hi' & Ht').
  split; [eauto|].
  intros r b ts1 H. apply insert_result in H as [[new ->] _].
  exists t'. split; [by apply lookup_app_l_Some | exact Ht'].
Qed.

Lemma extension_update_monotonic_witness :
  let x := new_target cxx_static_type "d/" "" "x" None in
  let k := mk_target_key cxx_static_type "d/" "" "x" (Some "cpp") in
  exists t', (find k [x]).2 !! 0 = Some t'
    /\ t' = set_ext (ext t') x
    /\ (ext t' = ext x \/ (ext x = None /\ ext t' = key_ext k)).
Proof.
  intros x k.
  exact (proj1 (extension_update_monotonic k [x] 0 x eq_refl)).
Defined.

Example find_specifies_extension :
  let x := new_target cxx_static_type "d/" "" "x" None in
  find (mk_target_key cxx_static_type "d/" "" "x" (Some "cpp")) [x]
  = (Some 0, [set_ext (Some "cpp") x]).
Proof. reflexivity. Qed.

Example find_keeps_extension :
  let x := new_target cxx_static_type "d/" "" "x" (Some "cpp") in
  find (mk_target_key cxx_static_type "d/" "" "x" None) [x] = (Some 0, [x])
  /\ find (mk_target_key cxx_static_type "d/" "" "x" (Some "cxx")) [x] = (None, [x]).
Proof. split; reflexivity. Qed.

(** C3.  On a target that has a recipe, [recipe (a, r)] trips its first
    assertion unless [a] is stronger than the action the recipe is for, so
    a call that installs [r] was made with a stronger action. *)
Theorem recipe_override_stronger (action_gt action_eq : action -> action -> bool)
    (a : action) (r : recipe_type) (t : target) :
  is_empty (recipe_ t) = false ->
  (action_gt a (action_ t) = false ->
   recipe action_gt action_eq a r t = Fail (assertion "a > action || !recipe_"))
  /\ (forall t',
        recipe action_gt action_eq a r t = Ok t' ->
        action_gt a (action_ t) = true /\ action_ t' = a /\ recipe_ t' = r).
Proof.
  intros Hrec. unfold recipe. rewrite Hrec. split.
  - intros ->. reflexivity.
  - intros t'. destruct (action_gt a (action_ t)); simpl; [|discriminate].
    destruct (_ && _); [discriminate|].
    intros [= <-]. auto.
Qed.

Lemma recipe_override_stronger_witness :
  let update := mk_action perform_id update_id 0 in
  let t := mk_target file_static_type "d/" "" "x" (Some "") "" timestamp_unknown
                     false [] update noop_recipe unchanged 2 in
  recipe overrides same_inner update default_recipe t
  = Fail (assertion "a > action || !recipe_").
Proof.
  intros update t.
  apply (recipe_override_stronger overrides same_inner update default_recipe t).
  - reflexivity.
  - reflexivity.
Defined.

Example recipe_override_noop :
  let update := mk_action perform_id update_id 0 in
  let update_for_test := mk_action perform_id update_id 4 in
  let t := mk_target file_static_type "d/" "" "x" (Some "") "" timestamp_unknown
                     false [] update_for_test noop_recipe unchanged 2 in
  recipe overrides same_inner update default_recipe t
  = Ok (mk_target file_static_type "d/" "" "x" (Some "") "" timestamp_unknown
                  false [] update default_recipe unknown 2).
Proof. reflexivity. Qed.

(** ** More about [insert], [derive_path], [recipe] and printing *)

Lemma key_eqb_new_target (u : target) (tt : target_type) (d o : dir_path)
    (n : string) (e e' : option string) :
  key_eqb (key u) (mk_target_key tt d o n e) = false ->
  e = None \/ e' = e ->
  key_eqb (key u) (key (new_target tt d o n e')) = false.
Proof.
  intros Hk He. rewrite key_eqb_split in Hk |- *.
  change (same4 (key u) (key (new_target tt d o n e')))
    with (same4 (key u) (mk_target_key tt d o n e)).
  destruct (same4 (key u) (mk_target_key tt d o n e)); [|reflexivity].
  simpl in *. destruct He as [-> | ->]; [|exact Hk].
  by destruct (ext u).
Qed.

(** The two ways [insert] goes. *)
Lemma insert_cases (tt : target_type) (d o : dir_path) (n : string)
    (e : option string) (ts : target_set) :
  insert tt d o n e ts
  = match map_find (mk_target_key tt d o n e) ts with
    | Some (i, _) => Ok (i, false, (find (mk_target_key tt d o n e) ts).2)
    | None => pt ← call_factory tt d o n e; Ok (length ts, true, ts ++ [pt])
    end.
Proof.
  unfold insert. pose proof (find_result (mk_target_key tt d o n e) ts) as H.
  unfold find in *.
  destruct (map_find (mk_target_key tt d o n e) ts) as [[i t]|] eqn:Hfind;
    [reflexivity|].
  destruct H as [_ Hall].
  destruct (call_factory tt d o n e) as [pt|dg] eqn:Hpt; simpl; [|reflexivity].
  apply call_factory_result in Hpt as (e' & -> & He').
  destruct (map_find (key (new_target tt d o n e')) ts) as [[j u]|] eqn:Hemplace;
    [|reflexivity].
  exfalso. apply map_find_Some in Hemplace as (Hj & Hu).
  apply list_elem_of_lookup_2 in Hj.
  rewrite (key_eqb_new_target u tt d o n e e') in Hu; [discriminate| |exact He'].
  by apply Hall.
Qed.

Lemma find_length (k : target_key) (ts : target_set) :
  length (find k ts).2 = length ts.
Proof.
  unfold find. destruct (map_find k ts) as [[i t]|]; [|reflexivity].
  simpl. case_bool_decide; [|reflexivity].
  destruct (key_ext k); [apply length_insert | reflexivity].
Qed.

Lemma same4_eq (x y : target_key) :
  same4 x y = true ->
  type_eqb (key_type x) (key_type y) = true
  /\ key_dir x = key_dir y /\ key_out x = key_out y /\ key_name x = key_name y.
Proof.
  unfold same4. rewrite !andb_true_iff, !String.eqb_eq. tauto.
Qed.

(** X5.  The reference a call of [insert] returns is to a target of the
    set with the type, directory, out directory and name asked for, and
    with the extension asked for if one was specified.  The set has one
    target more exactly when the inserted flag is true; then the new target
    is the one the factory of the type made, entered last, and with the
    flag false the reference is to a target that was in the set. *)
Theorem insert_returns_requested (tt : target_type) (d o : dir_path) (n : string)
    (e : option string) (ts : target_set) (r : target_id) (b : bool)
    (ts1 : target_set) :
  insert tt d o n e ts = Ok (r, b, ts1) ->
  (exists t, ts1 !! r = Some t
     /\ type_eqb (type t) tt = true /\ dir t = d /\ out t = o /\ name t = n
     /\ (e = None \/ ext t = e))
  /\ length ts1 = length ts + (if b then 1 else 0)
  /\ (b = true ->
      r = length ts
      /\ exists pt, call_factory tt d o n e = Ok pt /\ ts1 = ts ++ [pt])
  /\ (b = false -> r < length ts).
Proof.
  intros H. pose proof H as Hset.
  apply (insert_result (mk_target_key tt d o n e)) in Hset
    as (_ & (t & Hr & H4 & Hext) & _).
  apply same4_eq in H4 as (Htt & Hd & Ho & Hn). simpl in *.
  split; [exists t; repeat split; assumption|].
  rewrite insert_cases in H.
  destruct (map_find (mk_target_key tt d o n e) ts) as [[i u]|] eqn:Hfind.
  - injection H as <- <- <-. rewrite find_length.
    split; [lia|]. split; [discriminate|]. intros _.
    apply map_find_Some in Hfind as [Hi _]. by eapply lookup_lt_Some.
  - destruct (call_factory tt d o n e) as [pt|dg]; simpl in H; [|discriminate].
    injection H as <- <- <-. rewrite length_app. simpl.
    split; [lia|]. split; [|discriminate]. intros _. split; [reflexivity|]. eauto.
Qed.

(** X6.  After an [insert] with a key, [find] with that key returns the
    reference [insert] returned and changes nothing; after any number of
    further calls of [insert] it still finds a target and changes nothing,
    and the target is the one [insert] returned if the extension of the key
    is specified. *)
Theorem find_after_insert (k : target_key) (ts : target_set) (r : target_id)
    (b : bool) (ts1 : target_set) :
  insert_key k ts = Ok (r, b, ts1) ->
  find k ts1 = (Some r, ts1)
  /\ (forall ks ts2,
        insert_all ks ts1 = Some ts2 ->
        exists r', find k ts2 = (Some r', ts2) /\ (key_ext k <> None -> r' = r)).
Proof.
  intros H. pose proof H as H0.
  apply insert_result in H as (_ & _ & Hset & _ & Hnext). split; [exact Hnext|].
  intros ks ts2 Hks. apply insert_all_grows in Hks.
  destruct (insert_found_later _ _ _ _ _ _ H0 Hks) as [r' Hr'].
  exists r'. split; [exact Hr'|].
  intros He. specialize (Hset He).
  pose proof (settled_find _ _ _ (settled_grows _ _ _ _ Hset Hks)) as Hr.
  congruence.
Qed.

(** X7.  For a type whose factory is [man_factory], [insert] without an
    extension returns the target of the set whose key compares equal, and
    fails with the must-include-extension diagnostic when there is none;
    whenever it enters a new target that target has the extension (the man
    section) given in the call. *)
Theorem insert_man_requires_section (tt : target_type) (d o : dir_path)
    (n : string) (e : option string) (ts : target_set) :
  factory tt = Some man_factory ->
  (e = None ->
   insert tt d o n e ts
   = match map_find (mk_target_key tt d o n None) ts with
     | Some (i, _) => Ok (i, false, ts)
     | None => Fail (man_without_section n)
     end)
  /\ (forall r ts1, insert tt d o n e ts = Ok (r, true, ts1) ->
        exists s, e = Some s /\ ts1 = ts ++ [new_target tt d o n (Some s)]).
Proof.
  intros Hman. split.
  - intros ->. rewrite insert_cases. unfold find, call_factory. rewrite Hman.
    destruct (map_find _ ts) as [[i t]|]; [|reflexivity].
    simpl. by case_bool_decide.
  - intros r ts1. rewrite insert_cases. unfold call_factory. rewrite Hman.
    destruct (map_find _ ts) as [[i t]|]; [discriminate|].
    destruct e as [s|]; simpl; [|discriminate].
    intros [= <- <-]. eauto.
Qed.

Lemma find_keeps_specified (k : target_key) (ts : target_set) (t' : target) :
  t' ∈ (find k ts).2 ->
  exists t, t ∈ ts /\ type t' = type t /\ (ext t <> None -> ext t' <> None).
Proof.
  intros Hin. apply list_elem_of_lookup in Hin as [i Hi].
  assert (i < length ts) as Hlt.
  { rewrite <- (find_length k ts). by eapply lookup_lt_Some. }
  apply lookup_lt_is_Some in Hlt as [t Ht].
  destruct (find_set_lookup k ts i t Ht) as (u & Hu & Hset & Hext).
  rewrite Hi in Hu. injection Hu as <-.
  exists t. split; [by eapply list_elem_of_lookup_2|]. split.
  - rewrite Hset. reflexivity.
  - intros Hsome. destruct Hext as [-> | [Hnone _]]; [exact Hsome | contradiction].
Qed.

Lemma insert_keeps_specified (k : target_key) (ts : target_set) (r : target_id)
    (b : bool) (ts1 : target_set) :
  (forall t, t ∈ ts -> specifies_extension (type t) = true -> ext t <> None) ->
  insert_key k ts = Ok (r, b, ts1) ->
  forall t, t ∈ ts1 -> specifies_extension (type t) = true -> ext t <> None.
Proof.
  intros Hinv. unfold insert_key. destruct k as [tt d o n e]. simpl.
  rewrite insert_cases.
  destruct (map_find (mk_target_key tt d o n e) ts) as [[i u]|].
  - intros [= <- <- <-] t Ht Hspec.
    apply find_keeps_specified in Ht as (t0 & Ht0 & Htype & Hext).
    apply Hext. apply Hinv; [exact Ht0 | by rewrite <- Htype].
  - destruct (call_factory tt d o n e) as [pt|dg] eqn:Hpt; simpl; [|discriminate].
    intros [= <- <- <-] t Ht Hspec.
    apply elem_of_app in Ht as [Ht|Ht]; [by apply Hinv|].
    apply list_elem_of_singleton in Ht. subst t.
    unfold call_factory in Hpt. unfold specifies_extension in Hspec.
    destruct (factory tt) as [[| |]|] eqn:Hf; try discriminate.
    + injection Hpt as <-. simpl in Hspec. by rewrite Hf in Hspec.
    + injection Hpt as <-. discriminate.
    + destruct e; [|discriminate]. injection Hpt as <-. discriminate.
Qed.

(** X8.  In a target set built by calls of [insert], every target of a
    type with [file_factory] or [man_factory] has its extension specified:
    [file{foo}] is entered as [file{foo.}], and no later [find] or [insert]
    takes an extension away. *)
Theorem insert_specifies_file_extensions (ks : list target_key) (ts : target_set) :
  insert_all ks [] = Some ts ->
  forall t, t ∈ ts -> specifies_extension (type t) = true -> ext t <> None.
Proof.
  assert (Hgen : forall ks ts0 ts1,
            (forall t, t ∈ ts0 -> specifies_extension (type t) = true -> ext t <> None) ->
            insert_all ks ts0 = Some ts1 ->
            forall t, t ∈ ts1 -> specifies_extension (type t) = true -> ext t <> None).
  { clear. induction ks as [|k ks IH]; intros ts0 ts1 Hinv; simpl.
    - by intros [= <-].
    - destruct (insert_key k ts0) as [[[r b] ts']|dg] eqn:Hk; [|discriminate].
      apply IH. by eapply insert_keeps_specified. }
  apply Hgen. intros t Ht. by apply elem_of_nil in Ht.
Qed.

Lemma derive_path_shape (ev : string -> string -> target_key -> option string)
    (de np ns : option string) (t t' : target) :
  derive_path ev de np ns t = Ok t' ->
  exists e,
    let n := opt_string np +:+ name t +:+ opt_string ns in
    let p := dir t +:+ (if String.eqb e "" then n else n +:+ "." +:+ e) in
    t' = set_ext_path (Some e) p t
    /\ (path_ t = "" \/ path_ t = p)
    /\ (de = None \/ extension (type t) <> None)
    /\ match ext t with
       | Some x => e = x
       | None =>
           match extension (type t) with
           | Some f =>
               call_extension ev f (key t) = Ok (Some e)
               \/ (call_extension ev f (key t) = Ok None /\ de = Some e)
           | None => de = Some e
           end
       end.
Proof.
  unfold derive_path.
  destruct (bool_decide (de <> None) && bool_decide (extension (type t) = None))
    eqn:Hassert; [discriminate|].
  assert (Hde : de = None \/ extension (type t) <> None).
  { apply andb_false_iff in Hassert as [H|H]; apply bool_decide_eq_false in H.
    - left. destruct de; [exfalso; apply H; discriminate | reflexivity].
    - by right. }
  assert (Hfinish : forall e,
    (if String.eqb (path_ t) ""
     then Ok (set_ext_path (Some e)
                (dir t +:+ (if String.eqb e ""
                            then opt_string np +:+ name t +:+ opt_string ns
                            else (opt_string np +:+ name t +:+ opt_string ns)
                                 +:+ "." +:+ e)) t)
     else if negb (String.eqb
                     (dir t +:+ (if String.eqb e ""
                                 then opt_string np +:+ name t +:+ opt_string ns
                                 else (opt_string np +:+ name t +:+ opt_string ns)
                                      +:+ "." +:+ e))
                     (path_ t))
          then Fail (path_mismatch (path_ t)
                       (dir t +:+ (if String.eqb e ""
                                   then opt_string np +:+ name t +:+ opt_string ns
                                   else (opt_string np +:+ name t +:+ opt_string ns)
                                        +:+ "." +:+ e)))
          else Ok (set_ext_path (Some e) (path_ t) t)) = Ok t' ->
    t' = set_ext_path (Some e)
           (dir t +:+ (if String.eqb e ""
                       then opt_string np +:+ name t +:+ opt_string ns
                       else (opt_string np +:+ name t +:+ opt_string ns)
                            +:+ "." +:+ e)) t
    /\ (path_ t = ""
        \/ path_ t = dir t +:+ (if String.eqb e ""
                                then opt_string np +:+ name t +:+ opt_string ns
                                else (opt_string np +:+ name t +:+ opt_string ns)
                                     +:+ "." +:+ e))).
  { intros e. destruct (String.eqb (path_ t) "") eqn:Hp.
    - intros [= <-]. apply String.eqb_eq in Hp. auto.
    - destruct (String.eqb _ (path_ t)) eqn:Hsame; simpl; [|discriminate].
      apply String.eqb_eq in Hsame. intros [= <-]. rewrite <- Hsame. auto. }
  destruct (ext t) as [x|] eqn:Hext; simpl.
  - intros H. apply Hfinish in H as [-> Hp]. exists x. simpl.
        split; [reflexivity|]. split; [exact Hp|]. split; [exact Hde|]. auto.
  - destruct (extension (type t)) as [f|] eqn:Hf; simpl.
    + destruct (call_extension ev f (key t)) as [[x|]|dg] eqn:Hcall; simpl;
        [| |discriminate].
      * intros H. apply Hfinish in H as [-> Hp]. exists x. simpl.
        split; [reflexivity|]. split; [exact Hp|]. split; [exact Hde|]. auto.
      * destruct de as [x|]; simpl; [|discriminate].
        intros H. apply Hfinish in H as [-> Hp]. exists x. simpl.
        split; [reflexivity|]. split; [exact Hp|]. split; [exact Hde|]. auto.
    + destruct de as [x|]; simpl; [|discriminate].
      intros H. apply Hfinish in H as [-> Hp]. exists x. simpl.
        split; [reflexivity|]. split; [exact Hp|]. split; [exact Hde|]. auto.
Qed.

(** X9.  A [derive_path] that succeeds leaves the target with a specified
    extension [e] and the path [dir / prefix name suffix [.e]] and changes
    nothing else.  The extension is the one the target had if it had one;
    otherwise the one the extension function of the type returns if it
    returns one; the default extension of the caller is used only after
    both.  A path that was assigned before is never replaced (the call
    fails instead when it differs). *)
Theorem derive_path_extension_precedence
    (ev : string -> string -> target_key -> option string)
    (de np ns : option string) (t t' : target) :
  derive_path ev de np ns t = Ok t' ->
  exists e,
    ext t' = Some e
    /\ path_ t'
       = dir t +:+ (if String.eqb e ""
                    then opt_string np +:+ name t +:+ opt_string ns
                    else (opt_string np +:+ name t +:+ opt_string ns) +:+ "." +:+ e)
    /\ (path_ t <> "" -> path_ t' = path_ t)
    /\ (forall x, ext t = Some x -> e = x)
    /\ (ext t = None ->
        forall f x, extension (type t) = Some f ->
          call_extension ev f (key t) = Ok (Some x) -> e = x)
    /\ (ext t = None ->
        (forall f, extension (type t) = Some f ->
           call_extension ev f (key t) = Ok None) ->
        de = Some e)
    /\ t' = set_ext_path (ext t') (path_ t') t.
Proof.
  intros H. apply derive_path_shape in H as (e & -> & Hp & Hde & Hchoice).
  exists e. simpl.
  split; [reflexivity|]. split; [reflexivity|].
  split; [intros Hne; destruct Hp as [?|Hp]; [contradiction | by rewrite Hp]|].
  split; [intros x Hx; rewrite Hx in Hchoice; exact Hchoice|].
  split; [|split; [|reflexivity]].
  - intros Hnone f x Hf Hcall. rewrite Hnone, Hf in Hchoice.
    destruct Hchoice as [Hc|[Hc _]]; congruence.
  - intros Hnone Hnull. rewrite Hnone in Hchoice.
    destruct (extension (type t)) as [f|]; [|exact Hchoice].
    destruct Hchoice as [Hc|[_ Hc]]; [|exact Hc].
    rewrite (Hnull f eq_refl) in Hc. discriminate.
Qed.

(** X10.  [derive_path] is idempotent: after a call that succeeded, a call
    with the same prefix and suffix succeeds again and changes nothing,
    whatever default extension it is given (provided the type has an
    extension function when one is given). *)
Theorem derive_path_idempotent
    (ev : string -> string -> target_key -> option string)
    (de de' np ns : option string) (t t' : target) :
  derive_path ev de np ns t = Ok t' ->
  de' = None \/ extension (type t) <> None ->
  derive_path ev de' np ns t' = Ok t'.
Proof.
  intros H Hde'. apply derive_path_shape in H as (e & -> & Hp & _ & _).
  unfold derive_path. cbn [type ext name dir path_ set_ext_path].
  assert (Hassert : bool_decide (de' <> None)
                    && bool_decide (extension (type t) = None) = false).
  { apply andb_false_iff. destruct Hde' as [-> | Hext].
    - left. apply bool_decide_eq_false. intros Hn. by apply Hn.
    - right. by apply bool_decide_eq_false. }
  rewrite Hassert. simpl.
  set (p := dir t +:+ _).
  destruct (String.eqb p "") eqn:Hempty; [reflexivity|].
  by rewrite String.eqb_refl.
Qed.

(** X11.  A call of [target::recipe] that succeeds while the target has a
    recipe for the same action (the override case) found the noop recipe
    there: no other recipe is ever overridden.  The call keeps the
    dependents count in the override case and resets it to zero otherwise,
    sets the state to [unchanged] for a noop recipe and to [unknown] for
    any other, and leaves the key, the path, the mtime and the prerequisite
    targets of the target alone. *)
Theorem recipe_override_only_noop (action_gt action_eq : action -> action -> bool)
    (a : action) (r : recipe_type) (t t' : target) :
  recipe action_gt action_eq a r t = Ok t' ->
  let override := action_eq a (action_ t) && negb (is_empty (recipe_ t)) in
  (override = true -> is_noop (recipe_ t) = true)
  /\ dependents t' = (if override then dependents t else 0)
  /\ raw_state t' = (if is_noop r then unchanged else unknown)
  /\ action_ t' = a /\ recipe_ t' = r
  /\ key t' = key t /\ path_ t' = path_ t /\ mtime_ t' = mtime_ t
  /\ prerequisite_targets t' = prerequisite_targets t.
Proof.
  unfold recipe. destruct (negb _); [discriminate|].
  destruct (action_eq a (action_ t) && negb (is_empty (recipe_ t))) eqn:Hov; simpl.
  - destruct (is_noop (recipe_ t)) eqn:Hnoop; simpl; [|discriminate].
    intros [= <-]. simpl. repeat split.
  - intros [= <-]. simpl. repeat split. discriminate.
Qed.

(** X12.  Printing a target key: for a type with a print function the
    output is the same at stream verbosity 0 and 1; from verbosity 2 on the
    print functions make no difference; below 2,
    [target_print_0_ext_verb] prints as for extension verbosity 0 (no
    extension) and [target_print_1_ext_verb] as for 1 (the extension if it
    is not empty). *)
Theorem print_key_verbosity (diag_relative : dir_path -> bool -> string)
    (k : target_key) :
  (print (key_type k) <> None ->
   print_key diag_relative 0 k = print_key diag_relative 1 k)
  /\ (forall sv, (2 <= sv)%N ->
        print_key diag_relative sv k = to_stream diag_relative sv k sv)
  /\ (forall sv, (sv < 2)%N ->
        print_key diag_relative sv k
        = to_stream diag_relative sv k
            (match print (key_type k) with
             | Some target_print_0_ext_verb => 0
             | Some target_print_1_ext_verb => 1
             | None => sv
             end)%N).
Proof.
  unfold print_key, print_0_ext_verb, print_1_ext_verb. split; [|split].
  - intros Hp. destruct (print (key_type k)) as [[|]|]; [| |contradiction];
      reflexivity.
  - intros sv Hsv.
    assert ((sv <? 2)%N = false) as H2 by (apply N.ltb_ge; lia).
    assert ((sv <? 1)%N = false) as H1 by (apply N.ltb_ge; lia).
    rewrite H2, H1. by destruct (print (key_type k)) as [[|]|].
  - intros sv Hsv.
    assert ((sv <? 2)%N = true) as H2 by (apply N.ltb_lt; lia).
    rewrite H2. destruct (print (key_type k)) as [[|]|]; try reflexivity.
    destruct (sv <? 1)%N eqn:H1; [reflexivity|].
    apply N.ltb_ge in H1. f_equal. lia.
Qed.

Lemma insert_returns_requested_witness :
  let hello := new_target file_static_type "d/" "" "hello" (Some "") in
  length [hello] = length (@nil target) + 1.
Proof.
  intros hello.
  exact (proj1 (proj2 (insert_returns_requested file_static_type "d/" "" "hello"
                         None [] 0 true [hello] eq_refl))).
Defined.

Lemma find_after_insert_witness :
  let k := mk_target_key cxx_static_type "d/" "" "x" (Some "cpp") in
  let x := new_target cxx_static_type "d/" "" "x" None in
  let x' := new_target cxx_static_type "d/" "" "x" (Some "cpp") in
  find k [x'] = (Some 0, [x']).
Proof.
  intros k x x'.
  exact (proj1 (find_after_insert k [x] 0 false [x'] eq_refl)).
Defined.

Lemma insert_man_requires_section_witness :
  insert man_static_type "d/" "" "b" None []
  = match map_find (mk_target_key man_static_type "d/" "" "b" None) [] with
    | Some (i, _) => Ok (i, false, [])
    | None => Fail (man_without_section "b")
    end.
Proof.
  exact (proj1 (insert_man_requires_section man_static_type "d/" "" "b" None []
                  eq_refl) eq_refl).
Defined.

Lemma insert_specifies_file_extensions_witness :
  ext (new_target file_static_type "d/" "" "hello" (Some "")) <> None.
Proof.
  refine (insert_specifies_file_extensions
            [mk_target_key file_static_type "d/" "" "hello" None]
            [new_target file_static_type "d/" "" "hello" (Some "")]
            eq_refl (new_target file_static_type "d/" "" "hello" (Some "")) _ eq_refl).
  apply list_elem_of_singleton. reflexivity.
Defined.

Lemma derive_path_extension_precedence_witness :
  let t := new_target buildfile_static_type "d/" "" "rules" None in
  exists t' e,
    derive_path (fun _ def _ => Some def) None None None t = Ok t'
    /\ ext t' = Some e /\ e = "build" /\ path_ t' = "d/rules.build".
Proof.
  intros t.
  destruct (derive_path_extension_precedence (fun _ def _ => Some def) None None None t
              (set_ext_path (Some "build") "d/rules.build" t) eq_refl)
    as (e & Hext & Hpath & _ & _ & Hfn & _).
  exists (set_ext_path (Some "build") "d/rules.build" t), e.
  split; [reflexivity|]. split; [exact Hext|]. split; [|reflexivity].
  exact (Hfn eq_refl buildfile_target_extension "build" eq_refl eq_refl).
Defined.

Lemma derive_path_idempotent_witness :
  let t := new_target file_static_type "d/" "" "hello" (Some "txt") in
  let t' := set_ext_path (Some "txt") "d/hello.txt" t in
  derive_path (fun _ def _ => Some def) (Some "cxx") None None t' = Ok t'.
Proof.
  intros t t'.
  refine (derive_path_idempotent (fun _ def _ => Some def) None (Some "cxx")
            None None t t' eq_refl _).
  right. discriminate.
Defined.

Lemma recipe_override_only_noop_witness :
  let update := mk_action perform_id update_id 0 in
  let update_for_test := mk_action perform_id update_id 4 in
  let t := mk_target file_static_type "d/" "" "x" (Some "") "" timestamp_unknown
                     false [] update_for_test noop_recipe unchanged 2 in
  let t' := mk_target file_static_type "d/" "" "x" (Some "") "" timestamp_unknown
                      false [] update default_recipe unknown 2 in
  dependents t' = dependents t.
Proof.
  intros update update_for_test t t'.
  exact (proj1 (proj2 (recipe_override_only_noop overrides same_inner update
                         default_recipe t t' eq_refl))).
Defined.

End Target.

(** * The built-in rules (build/rule.cxx) *)

Module Rule.

Import Target.

(** The state the rules work on: the targets, by reference, and the file
    system as far as the rules look at it (the modification time of every
    file there is, and the directories). *)
Record world := mk_world {
  targets : target_id -> target;
  files : gmap path positive;
  dirs : gset dir_path
}.

Definition set_target (id : target_id) (t : target) (w : world) : world :=
  mk_world (<[id := t]> (targets w)) (files w) (dirs w).

(** Modelled from the spec: [file_mtime] (butl) is the modification time of
    the file, or [timestamp_nonexistent] when there is no such file. *)
Definition file_mtime (p : path) (w : world) : timestamp :=
  match files w !! p with
  | Some m => Z.pos m
  | None => timestamp_nonexistent
  end.

Definition file_exists (p : path) (w : world) : bool :=
  bool_decide (is_Some (files w !! p)).

Definition dir_exists (d : dir_path) (w : world) : bool :=
  bool_decide (d ∈ dirs w).

Definition set_mtime (mt : timestamp) (t : target) : target :=
  mk_target (type t) (dir t) (out t) (name t) (ext t) (path_ t) mt
            (has_prerequisites t) (prerequisite_targets t)
            (action_ t) (recipe_ t) (raw_state t) (dependents t).

(** [file::load_mtime]. *)
Definition load_mtime (t : target) (w : world) : result diag timestamp :=
  if String.eqb (path_ t) "" then Fail (assertion "!f.empty ()")
  else Ok (file_mtime (path_ t) w).

(** Modelled from the spec: [mtime_target::mtime ()] is the modification
    time of the target as observed from the file system, loaded on the
    first call and kept in the target from then on. *)
Definition mtime (id : target_id) (w : world) : result diag (timestamp * world) :=
  let t := targets w id in
  if (mtime_ t =? timestamp_unknown)%Z
  then mt ← load_mtime t w; Ok (mt, set_target id (set_mtime mt t) w)
  else Ok (mtime_ t, w).

Inductive rmdir_status := rmdir_success | rmdir_not_empty | rmdir_not_exist.

(** What [perform_update] of [path_rule] did: how it ended, the state it
    left, and the prerequisites it executed, in order. *)
Record run := mk_run {
  outcome : result diag target_state;
  after : world;
  executed : list target_id
}.

Definition path_rule_perform_update_recipe : recipe_type :=
  rule_recipe "path_rule" "perform_update".
Definition fsdir_rule_perform_update_recipe : recipe_type :=
  rule_recipe "fsdir_rule" "perform_update".
Definition fsdir_rule_perform_clean_recipe : recipe_type :=
  rule_recipe "fsdir_rule" "perform_clean".

Section rules.

(** The engine's algorithms (build/algorithm) and the file system
    utilities (build/filesystem), which the rules call and which are not
    part of the sources.  Each returns how it ended and the state it left. *)
Variable extension_var : string -> string -> target_key -> option string.
Variable execute : action -> target_id -> world -> result diag target_state * world.
Variable search_and_match :
  action -> target_id -> option dir_path -> world -> result diag () * world.
Variable execute_prerequisites :
  action -> target_id -> world -> result diag target_state * world.
Variable reverse_execute_prerequisites :
  action -> target_id -> world -> result diag target_state * world.
Variable try_mkdir : dir_path -> world -> result diag () * world.
Variable rmdir : dir_path -> target_id -> world -> result diag rmdir_status * world.

(** ** path_rule *)

(** [path_rule::match]: whether the rule claims the target (a non-null
    result). *)
Definition path_rule_match (a : action) (id : target_id) (w : world)
    : result diag bool * world :=
  if bool_decide (to_action_id a = perform_update_id) then
    let t := targets w id in
    if negb (is_a (type t) path_target_static_type)
    then (Fail (bad_cast "path_target&"), w)
    else
      let derived :=
        if String.eqb (path_ t) ""
        then t' ← derive_path extension_var None None None t;
             Ok (set_target id t' w)
        else Ok w in
      match derived with
      | Fail d => (Fail d, w)
      | Ok w1 =>
          match mtime id w1 with
          | Fail d => (Fail d, w1)
          | Ok (mt, w2) => (Ok (negb (mt =? timestamp_nonexistent)%Z), w2)
          end
      end
  else (Ok true, w).

(** [path_rule::apply]. *)
Definition path_rule_apply (a : action) (id : target_id) (w : world)
    : result diag recipe_type * world :=
  if N.eqb (operation a) clean_id then (Ok noop_recipe, w)
  else
    match search_and_match a id None w with
    | (Fail d, w1) => (Fail d, w1)
    | (Ok _, w1) =>
        (Ok (if bool_decide (to_action_id a = perform_update_id)
             then path_rule_perform_update_recipe
             else if has_prerequisites (targets w1 id) then default_recipe
                  else noop_recipe),
         w1)
    end.

(** The test of the loop of [path_rule::perform_update] on the prerequisite
    [pt] just executed with state [ts]: the diagnostic to fail with when it
    is ahead of the target, whose mtime is [mt]. *)
Definition prerequisite_ahead (id : target_id) (mt : timestamp) (pt : target_id)
    (ts : target_state) (w : world) : result diag (option diag) * world :=
  if is_a (type (targets w pt)) mtime_target_static_type then
    match mtime pt w with
    | Fail d => (Fail d, w)
    | Ok (mp, w') =>
        (Ok (if (mt <? mp)%Z
             then Some (no_recipe_prerequisite_ahead id pt (Some (mp - mt)%Z))
             else None),
         w')
    end
  else
    (Ok (if bool_decide (ts = changed)
         then Some (no_recipe_prerequisite_ahead id pt None)
         else None),
     w).

(** The loop of [path_rule::perform_update] over the prerequisite targets
    still to go. *)
Fixpoint update_prerequisites (a : action) (id : target_id) (mt : timestamp)
    (pts : list target_id) (w : world) (done : list target_id) : run :=
  match pts with
  | [] => mk_run (Ok unchanged) w done
  | pt :: rest =>
      match execute a pt w with
      | (Fail d, w1) => mk_run (Fail d) w1 (done ++ [pt])
      | (Ok ts, w1) =>
          match prerequisite_ahead id mt pt ts w1 with
          | (Fail d, w2) => mk_run (Fail d) w2 (done ++ [pt])
          | (Ok (Some d), w2) => mk_run (Fail d) w2 (done ++ [pt])
          | (Ok None, w2) => update_prerequisites a id mt rest w2 (done ++ [pt])
          end
      end
  end.

(** [path_rule::perform_update]. *)
Definition path_rule_perform_update (a : action) (id : target_id) (w : world) : run :=
  let t := targets w id in
  if negb (is_a (type t) path_target_static_type)
  then mk_run (Fail (bad_cast "path_target&")) w []
  else
    match mtime id w with
    | Fail d => mk_run (Fail d) w []
    | Ok (mt, w0) => update_prerequisites a id mt (prerequisite_targets t) w0 []
    end.

(** ** fsdir_rule *)

(** [fsdir_rule::match] (and [dir_rule::match]). *)
Definition fsdir_rule_match (a : action) (id : target_id) (w : world)
    : result diag bool * world :=
  (Ok true, w).

(** [fsdir_rule::perform_update]. *)
Definition fsdir_rule_perform_update (a : action) (id : target_id) (w : world)
    : result diag target_state * world :=
  let t := targets w id in
  let '(r, w1) :=
    if has_prerequisites t then execute_prerequisites a id w
    else (Ok unchanged, w) in
  match r with
  | Fail d => (Fail d, w1)
  | Ok ts =>
      if negb (dir_exists (dir t) w1) then
        match try_mkdir (dir t) w1 with
        | (Fail _, w2) => (Fail (unable_to_create_directory (dir t)), w2)
        | (Ok _, w2) => (Ok changed, w2)
        end
      else (Ok ts, w1)
  end.

(** [fsdir_rule::perform_clean]. *)
Definition fsdir_rule_perform_clean (a : action) (id : target_id) (w : world)
    : result diag target_state * world :=
  let t := targets w id in
  match rmdir (dir t) id w with
  | (Fail d, w1) => (Fail d, w1)
  | (Ok rs, w1) =>
      let '(r, w2) :=
        if has_prerequisites t then reverse_execute_prerequisites a id w1
        else (Ok unchanged, w1) in
      match r with
      | Fail d => (Fail d, w2)
      | Ok ts =>
          (Ok (match rs with
               | rmdir_success => changed
               | rmdir_not_empty => postponed
               | rmdir_not_exist => ts
               end),
           w2)
      end
  end.

End rules.

(** ** Sample targets and collaborators *)

(** Scenario S3: [file{hello}] with the prerequisites [file{world}], which
    is newer, and [file{other}]. *)
Definition a_file (n : string) (pts : list target_id) : target :=
  mk_target file_static_type "d/" "" n (Some "") ("d/" +:+ n) timestamp_unknown
            (bool_decide (pts <> [])) pts (mk_action 0 0 0) empty_recipe unknown 0.

Definition hello_world : world :=
  mk_world (fun id => match id with
                      | 0 => a_file "hello" [1; 2]
                      | 1 => a_file "world" []
                      | _ => a_file "other" []
                      end)
           {[ "d/hello" := 1%positive; "d/world" := 5%positive;
              "d/other" := 1%positive ]}
           {[ "d/" ]}.

(** Executing a prerequisite that is up to date. *)
Definition execute_unchanged (a : action) (pt : target_id) (w : world)
    : result diag target_state * world :=
  (Ok unchanged, w).

Definition perform_update_action : action := mk_action perform_id update_id 0.

(** The same with [file{hello}] the newest of the three: nothing is ahead. *)
Definition hello_newest : world :=
  mk_world (targets hello_world)
           {[ "d/hello" := 9%positive; "d/world" := 5%positive;
              "d/other" := 1%positive ]}
           (dirs hello_world).

(** Matching prerequisites when there is nothing to match. *)
Definition nothing_to_match (a : action) (id : target_id) (d : option dir_path)
    (w : world) : result diag () * world :=
  (Ok (), w).

(** Scenario S1, the clean half: [fsdir{a/b/}] depends on [fsdir{a/}]. *)
Definition a_fsdir (d : dir_path) (pts : list target_id) : target :=
  mk_target fsdir_static_type d "" "" None "" timestamp_unknown
            (bool_decide (pts <> [])) pts (mk_action 0 0 0) empty_recipe unknown 0.

Definition nested_dirs : world :=
  mk_world (fun id => match id with
                      | 0 => a_fsdir "a/b/" [1]
                      | _ => a_fsdir "a/" []
                      end)
           ∅ {[ "a/"; "a/b/" ]}.

(** A directory can be removed when nothing lies under it. *)
Definition rmdir_empty (d : dir_path) (id : target_id) (w : world)
    : result diag rmdir_status * world :=
  if negb (dir_exists d w) then (Ok rmdir_not_exist, w)
  else if existsb (fun p => String.prefix d p && negb (String.eqb d p))
                  (elements (dom (files w)) ++ elements (dirs w))
       then (Ok rmdir_not_empty, w)
       else (Ok rmdir_success, mk_world (targets w) (files w) (dirs w ∖ {[d]})).

Definition no_prerequisites (a : action) (id : target_id) (w : world)
    : result diag target_state * world :=
  (Ok unchanged, w).

(** Cleaning the prerequisites of a target with [perform_clean] itself, one
    level deep. *)
Definition clean_prerequisites (a : action) (id : target_id) (w : world)
    : result diag target_state * world :=
  fold_left
    (fun acc pt =>
       match acc with
       | (Fail d, w1) => (Fail d, w1)
       | (Ok ts, w1) =>
           match fsdir_rule_perform_clean no_prerequisites rmdir_empty a pt w1 with
           | (Ok changed, w2) => (Ok changed, w2)
           | (Ok _, w2) => (Ok ts, w2)
           | (Fail d, w2) => (Fail d, w2)
           end
       end)
    (rev (prerequisite_targets (targets w id))) (Ok unchanged, w).

(** ** apply of dir_rule and fsdir_rule *)

Definition perform_clean_id : action_id := (perform_id, clean_id).

Section apply.

(** More of the engine's algorithms (build/algorithm) and of the path
    utilities (butl), not part of the sources. *)
Variable search_and_match :
  action -> target_id -> option dir_path -> world -> result diag () * world.
Variable inject_parent_fsdir : action -> target_id -> world -> result diag () * world.
Variable root : dir_path -> bool.
Variable directory : dir_path -> dir_path.

(** [dir_rule::match]. *)
Definition dir_rule_match (a : action) (id : target_id) (w : world)
    : result diag bool * world :=
  (Ok true, w).

(** [dir_rule::apply]. *)
Definition dir_rule_apply (a : action) (id : target_id) (w : world)
    : result diag recipe_type * world :=
  let t := targets w id in
  let '(r, w1) :=
    if N.eqb (operation a) default_id || N.eqb (operation a) update_id
    then search_and_match a id None w
    else if N.eqb (operation a) clean_id
         then search_and_match a id (Some (dir t)) w
         else (Fail (assertion "false"), w) in
  match r with
  | Fail d => (Fail d, w1)
  | Ok _ => (Ok default_recipe, w1)
  end.

(** [fsdir_rule::apply]. *)
Definition fsdir_rule_apply (a : action) (id : target_id) (w : world)
    : result diag recipe_type * world :=
  match inject_parent_fsdir a id w with
  | (Fail d, w0) => (Fail d, w0)
  | (Ok _, w0) =>
      let t := targets w0 id in
      let '(r, w1) :=
        if N.eqb (operation a) default_id || N.eqb (operation a) update_id
        then search_and_match a id None w0
        else if N.eqb (operation a) clean_id
             then search_and_match a id
                    (Some (if root (dir t) then dir t else directory (dir t))) w0
             else (Fail (assertion "false"), w0) in
      match r with
      | Fail d => (Fail d, w1)
      | Ok _ =>
          (Ok (if bool_decide (to_action_id a = perform_update_id)
               then fsdir_rule_perform_update_recipe
               else if bool_decide (to_action_id a = perform_clean_id)
                    then fsdir_rule_perform_clean_recipe
                    else default_recipe),
           w1)
      end
  end.

End apply.

(** ** perform_update of path_rule *)

Section perform_update.

Variable execute : action -> target_id -> world -> result diag target_state * world.

(** A loop that succeeds has executed every prerequisite and returns
    [unchanged]. *)
Lemma update_prerequisites_ok (a : action) (id : target_id) (mt : timestamp)
    (pts : list target_id) (w : world) (done : list target_id) (s : target_state) :
  outcome (update_prerequisites execute a id mt pts w done) = Ok s ->
  s = unchanged
  /\ executed (update_prerequisites execute a id mt pts w done) = done ++ pts.
Proof.
  revert w done; induction pts as [|pt rest IH]; intros w done; simpl.
  - intros [= <-]. by rewrite app_nil_r.
  - destruct (execute a pt w) as [[ts|dg] w1]; [|discriminate].
    destruct (prerequisite_ahead id mt pt ts w1) as [[[d|]|dg] w2]; simpl;
      try discriminate.
    intros Hs. destruct (IH _ _ Hs) as [-> Hex].
    split; [reflexivity|]. rewrite Hex, <- app_assoc. reflexivity.
Qed.

Lemma update_prerequisites_executed (a : action) (id : target_id) (mt : timestamp)
    (pts : list target_id) (w : world) (done : list target_id) :
  exists pre rest,
    pts = pre ++ rest
    /\ executed (update_prerequisites execute a id mt pts w done) = done ++ pre.
Proof.
  revert w done; induction pts as [|pt rest IH]; intros w done; simpl.
  - exists [], []. split; [reflexivity | by rewrite app_nil_r].
  - destruct (execute a pt w) as [[ts|dg] w1]; [|by exists [pt], rest].
    destruct (prerequisite_ahead id mt pt ts w1) as [[[d|]|dg] w2]; simpl;
      try (by exists [pt], rest).
    destruct (IH w2 (done ++ [pt])) as (pre & rest' & -> & Hex).
    exists (pt :: pre), rest'. split; [reflexivity|].
    rewrite Hex, <- app_assoc. reflexivity.
Qed.

Lemma update_prerequisites_app (a : action) (id : target_id) (mt : timestamp)
    (l1 l2 : list target_id) (w : world) (done : list target_id) :
  update_prerequisites execute a id mt (l1 ++ l2) w done
  = let r := update_prerequisites execute a id mt l1 w done in
    match outcome r with
    | Ok _ => update_prerequisites execute a id mt l2 (after r) (executed r)
    | Fail _ => r
    end.
Proof.
  revert w done; induction l1 as [|pt rest IH]; intros w done; simpl.
  - reflexivity.
  - destruct (execute a pt w) as [[ts|dg] w1]; [|reflexivity].
    destruct (prerequisite_ahead id mt pt ts w1) as [[[d|]|dg] w2]; simpl;
      try reflexivity.
    apply IH.
Qed.

(** The loop at the prerequisite [pt], the ones before it ([l1]) done and
    none of them ahead. *)
Lemma update_prerequisites_at (a : action) (id : target_id) (mt : timestamp)
    (l1 : list target_id) (pt : target_id) (l2 : list target_id) (w0 : world) :
  let before := update_prerequisites execute a id mt l1 w0 [] in
  outcome before = Ok unchanged ->
  update_prerequisites execute a id mt (l1 ++ pt :: l2) w0 []
  = match execute a pt (after before) with
    | (Fail d, w1) => mk_run (Fail d) w1 (l1 ++ [pt])
    | (Ok ts, w1) =>
        match prerequisite_ahead id mt pt ts w1 with
        | (Fail d, w2) => mk_run (Fail d) w2 (l1 ++ [pt])
        | (Ok (Some d), w2) => mk_run (Fail d) w2 (l1 ++ [pt])
        | (Ok None, w2) => update_prerequisites execute a id mt l2 w2 (l1 ++ [pt])
        end
    end.
Proof.
  intros before Hok. rewrite update_prerequisites_app. fold before.
  cbv zeta. rewrite Hok.
  destruct (update_prerequisites_ok _ _ _ _ _ _ _ Hok) as [_ Hex].
  fold before in Hex. rewrite Hex. reflexivity.
Qed.

(** C5 as amended.  [perform_update] of [path_rule] reads the mtime of the
    target and then takes the prerequisite targets in order, executing each
    and testing it right after.  At the first prerequisite that is ahead of
    the target (an mtime-based one whose mtime is strictly greater than the
    target's, or one without mtime that ended in state [changed]) it fails
    with the no-recipe/prerequisite-ahead diagnostic (naming the
    prerequisite and, for an mtime-based one, by how much it is ahead),
    having executed the prerequisites up to that one only.  A prerequisite
    that is not ahead lets the loop go on; if every prerequisite executes
    and none is ahead, [perform_update] returns [unchanged] having executed
    all of them, and whenever it succeeds it has done so. *)
Theorem path_rule_perform_update_first_ahead (a : action) (id : target_id) (w : world)
    (mt : timestamp) (w0 : world) :
  is_a (type (targets w id)) path_target_static_type = true ->
  mtime id w = Ok (mt, w0) ->
  let pts := prerequisite_targets (targets w id) in
  let code := path_rule_perform_update execute a id w in
  let upto l := update_prerequisites execute a id mt l w0 [] in
  (forall l1 pt l2 ts w1,
     pts = l1 ++ pt :: l2 ->
     outcome (upto l1) = Ok unchanged ->
     execute a pt (after (upto l1)) = (Ok ts, w1) ->
     (is_a (type (targets w1 pt)) mtime_target_static_type = true ->
      forall mp w2, mtime pt w1 = Ok (mp, w2) ->
        ((mt < mp)%Z ->
         code = mk_run (Fail (no_recipe_prerequisite_ahead id pt (Some (mp - mt)%Z)))
                       w2 (l1 ++ [pt]))
        /\ ((mp <= mt)%Z ->
            upto (l1 ++ [pt]) = mk_run (Ok unchanged) w2 (l1 ++ [pt])))
     /\ (is_a (type (targets w1 pt)) mtime_target_static_type = false ->
         (ts = changed ->
          code = mk_run (Fail (no_recipe_prerequisite_ahead id pt None))
                        w1 (l1 ++ [pt]))
         /\ (ts <> changed ->
             upto (l1 ++ [pt]) = mk_run (Ok unchanged) w1 (l1 ++ [pt]))))
  /\ ((forall l1 pt l2,
         pts = l1 ++ pt :: l2 ->
         outcome (upto l1) = Ok unchanged ->
         exists ts w1,
           execute a pt (after (upto l1)) = (Ok ts, w1)
           /\ if is_a (type (targets w1 pt)) mtime_target_static_type
              then exists mp w2, mtime pt w1 = Ok (mp, w2) /\ (mp <= mt)%Z
              else ts <> changed) ->
      outcome code = Ok unchanged)
  /\ (forall s, outcome code = Ok s -> s = unchanged /\ executed code = pts)
  /\ (exists rest, pts = executed code ++ rest).
Proof.
  intros Hpt Hmt pts code upto.
  assert (Hcode : code = upto pts).
  { subst code upto. unfold path_rule_perform_update. by rewrite Hpt, Hmt. }
  assert (Hstep : forall l1 pt l2 ts w1,
     outcome (upto l1) = Ok unchanged ->
     execute a pt (after (upto l1)) = (Ok ts, w1) ->
     (is_a (type (targets w1 pt)) mtime_target_static_type = true ->
      forall mp w2, mtime pt w1 = Ok (mp, w2) ->
        ((mt < mp)%Z ->
         upto (l1 ++ pt :: l2)
         = mk_run (Fail (no_recipe_prerequisite_ahead id pt (Some (mp - mt)%Z)))
                  w2 (l1 ++ [pt]))
        /\ ((mp <= mt)%Z ->
            upto (l1 ++ [pt]) = mk_run (Ok unchanged) w2 (l1 ++ [pt])))
     /\ (is_a (type (targets w1 pt)) mtime_target_static_type = false ->
         (ts = changed ->
          upto (l1 ++ pt :: l2)
          = mk_run (Fail (no_recipe_prerequisite_ahead id pt None)) w1 (l1 ++ [pt]))
         /\ (ts <> changed ->
             upto (l1 ++ [pt]) = mk_run (Ok unchanged) w1 (l1 ++ [pt])))).
  { intros l1 pt l2 ts w1 Hok Hex.
    pose proof (update_prerequisites_at a id mt l1 pt l2 w0 Hok) as Hat.
    pose proof (update_prerequisites_at a id mt l1 pt [] w0 Hok) as Hlast.
    cbv zeta in Hat, Hlast. fold (upto l1) in Hat, Hlast.
    rewrite Hex in Hat, Hlast. unfold prerequisite_ahead in Hat, Hlast.
    fold (upto (l1 ++ pt :: l2)) in Hat. fold (upto (l1 ++ [pt])) in Hlast.
    split.
    - intros Hm mp w2 Hmp. rewrite Hm, Hmp in Hat, Hlast. split.
      + intros Hlt. apply Z.ltb_lt in Hlt. by rewrite Hlt in Hat.
      + intros Hle. apply Z.ltb_ge in Hle. by rewrite Hle in Hlast.
    - intros Hm. rewrite Hm in Hat, Hlast. split.
      + intros Hch. by rewrite bool_decide_eq_true_2 in Hat by exact Hch.
      + intros Hch. by rewrite bool_decide_eq_false_2 in Hlast by exact Hch. }
  split; [|split; [|split]].
  - intros l1 pt l2 ts w1 Hpts Hok Hex. rewrite Hcode, Hpts.
    apply Hstep; assumption.
  - intros Hall. rewrite Hcode.
    assert (Hpre : forall l l', pts = l ++ l' -> outcome (upto l) = Ok unchanged).
    { induction l as [|pt l IH] using rev_ind; intros l' Hpts; [reflexivity|].
      rewrite <- app_assoc in Hpts. simpl in Hpts.
      pose proof (IH _ Hpts) as Hok.
      destruct (Hall l pt l' Hpts Hok) as (ts & w1 & Hex & Hnot).
      destruct (Hstep l pt l' ts w1 Hok Hex) as [Hm Hn].
      destruct (is_a (type (targets w1 pt)) mtime_target_static_type).
      - destruct Hnot as (mp & w2 & Hmp & Hle).
        destruct (Hm eq_refl mp w2 Hmp) as [_ Hgo]. by rewrite (Hgo Hle).
      - destruct (Hn eq_refl) as [_ Hgo]. by rewrite (Hgo Hnot). }
    apply (Hpre pts []). by rewrite app_nil_r.
  - intros s Hs. rewrite Hcode in Hs |- *.
    by apply update_prerequisites_ok in Hs.
  - rewrite Hcode.
    destruct (update_prerequisites_executed a id mt pts w0 [])
      as (pre & rest & Hpts & Hex).
    exists rest. fold (upto pts) in Hex. by rewrite Hex.
Qed.

End perform_update.

(** C5, the claim as stated, fails: with a first prerequisite ahead of the
    target, [perform_update] fails having executed that one only, not all
    of them. *)
Lemma perform_update_not_all_executed :
  let code := path_rule_perform_update execute_unchanged perform_update_action 0 hello_world in
  prerequisite_targets (targets hello_world 0) = [1; 2]
  /\ outcome code = Fail (no_recipe_prerequisite_ahead 0 1 (Some 4%Z))
  /\ executed code = [1]
  /\ executed code <> prerequisite_targets (targets hello_world 0).
Proof.
  repeat split; try (vm_compute; reflexivity).
  intros H. vm_compute in H. discriminate.
Qed.

Lemma path_rule_perform_update_first_ahead_witness :
  let code := path_rule_perform_update execute_unchanged perform_update_action 0 hello_newest in
  unchanged = unchanged /\ executed code = [1; 2].
Proof.
  intros code.
  refine (proj1 (proj2 (proj2 (path_rule_perform_update_first_ahead
                                 execute_unchanged perform_update_action 0
                                 hello_newest _ _ eq_refl eq_refl)))
            unchanged _).
  vm_compute. reflexivity.
Defined.

(** ** match and apply of path_rule *)

Lemma file_mtime_exists (p : path) (w : world) :
  negb (file_mtime p w =? timestamp_nonexistent)%Z = file_exists p w.
Proof.
  unfold file_mtime, file_exists. destruct (files w !! p) as [m|]; reflexivity.
Qed.

Lemma mtime_unknown (id : target_id) (w : world) :
  mtime_ (targets w id) = timestamp_unknown ->
  path_ (targets w id) <> "" ->
  mtime id w
  = Ok (file_mtime (path_ (targets w id)) w,
        set_target id (set_mtime (file_mtime (path_ (targets w id)) w) (targets w id)) w).
Proof.
  intros Hmt Hp. unfold mtime, load_mtime. rewrite Hmt. simpl.
  apply String.eqb_neq in Hp. rewrite Hp. reflexivity.
Qed.

Lemma derive_path_mtime (ev : string -> string -> target_key -> option string)
    (de np ns : option string) (t t' : target) :
  derive_path ev de np ns t = Ok t' -> mtime_ t' = mtime_ t.
Proof.
  unfold derive_path. destruct (_ && _); [discriminate|].
  destruct (ext t) as [e|]; simpl.
  - destruct (String.eqb (path_ t) ""); [by intros [= <-]|].
    destruct (negb _); [discriminate | by intros [= <-]].
  - destruct (match extension (type t) with
              | Some f => call_extension ev f (key t)
              | None => Ok None
              end) as [[e|]|dg]; simpl; try discriminate.
    + destruct (String.eqb (path_ t) ""); [by intros [= <-]|].
      destruct (negb _); [discriminate | by intros [= <-]].
    + destruct de as [d|]; simpl; [|discriminate].
      destruct (String.eqb (path_ t) ""); [by intros [= <-]|].
      destruct (negb _); [discriminate | by intros [= <-]].
Qed.

Lemma mtime_known (id : target_id) (w : world) :
  mtime_ (targets w id) <> timestamp_unknown ->
  mtime id w = Ok (mtime_ (targets w id), w).
Proof.
  intros Hmt. unfold mtime. apply Z.eqb_neq in Hmt. by rewrite Hmt.
Qed.

(** C6 as amended.  [match] of [path_rule] claims the target for every
    action other than perform-update and leaves the state as it is.  For
    perform-update it first derives the path of a target that has none
    (failing, with nothing changed, if that fails) and then claims the
    target exactly when its mtime is not that of a file that does not
    exist: for a target whose mtime is not known yet the mtime is read from
    the path just then and kept in the target, so the target is claimed
    exactly when its file exists; for a target whose mtime is known the
    file is not looked at.  [apply] returns the noop recipe for the clean
    operation; otherwise, once the prerequisites are matched, its own
    [perform_update] for perform-update and, for any other action, the
    default recipe when the target has prerequisites and the noop recipe
    when it has none. *)
Theorem path_rule_match_apply
    (extension_var : string -> string -> target_key -> option string)
    (search_and_match :
       action -> target_id -> option dir_path -> world -> result diag () * world)
    (a : action) (id : target_id) (w : world) :
  let t := targets w id in
  let claim (t1 : target) (w1 : world) :=
    if (mtime_ t1 =? timestamp_unknown)%Z
    then (Ok (file_exists (path_ t1) w),
          set_target id (set_mtime (file_mtime (path_ t1) w) t1) w1)
    else (Ok (negb (mtime_ t1 =? timestamp_nonexistent)%Z), w1) in
  (to_action_id a <> perform_update_id ->
   path_rule_match extension_var a id w = (Ok true, w))
  /\ (to_action_id a = perform_update_id ->
      is_a (type t) path_target_static_type = true ->
      (path_ t <> "" -> path_rule_match extension_var a id w = claim t w)
      /\ (path_ t = "" ->
          match derive_path extension_var None None None t with
          | Ok t' =>
              mtime_ t' = mtime_ t
              /\ (path_ t' <> "" ->
                  path_rule_match extension_var a id w
                  = claim t' (set_target id t' w))
          | Fail d => path_rule_match extension_var a id w = (Fail d, w)
          end))
  /\ (operation a = clean_id ->
      path_rule_apply search_and_match a id w = (Ok noop_recipe, w))
  /\ (operation a <> clean_id ->
      forall w1, search_and_match a id None w = (Ok (), w1) ->
        path_rule_apply search_and_match a id w
        = (Ok (if bool_decide (to_action_id a = perform_update_id)
               then path_rule_perform_update_recipe
               else if has_prerequisites (targets w1 id) then default_recipe
                    else noop_recipe),
           w1)).
Proof.
  intros t claim. split; [|split; [|split]].
  - intros Ha. unfold path_rule_match.
    by rewrite bool_decide_eq_false_2 by exact Ha.
  - intros Ha Hpt. unfold path_rule_match.
    rewrite bool_decide_eq_true_2 by exact Ha. fold t. rewrite Hpt. simpl.
    split.
    + intros Hp. pose proof Hp as Hp'. apply String.eqb_neq in Hp'. rewrite Hp'.
      unfold claim. destruct (mtime_ t =? timestamp_unknown)%Z eqn:Hmt.
      * apply Z.eqb_eq in Hmt. rewrite mtime_unknown by assumption.
        fold t. by rewrite file_mtime_exists.
      * apply Z.eqb_neq in Hmt. rewrite mtime_known by exact Hmt. reflexivity.
    + intros Hp. rewrite Hp. simpl.
      destruct (derive_path extension_var None None None t) as [t'|d] eqn:Hd;
        simpl; [|reflexivity].
      pose proof (derive_path_mtime _ _ _ _ _ _ Hd) as Hsame.
      split; [exact Hsame|]. intros Hp'.
      assert (Ht' : targets (set_target id t' w) id = t').
      { unfold set_target. simpl. apply fn_lookup_insert. }
      unfold claim. destruct (mtime_ t' =? timestamp_unknown)%Z eqn:Hmt.
      * apply Z.eqb_eq in Hmt. rewrite mtime_unknown.
        -- rewrite Ht', file_mtime_exists. reflexivity.
        -- by rewrite Ht'.
        -- by rewrite Ht'.
      * apply Z.eqb_neq in Hmt. rewrite mtime_known; rewrite Ht'; [reflexivity|].
        exact Hmt.
  - intros Hc. unfold path_rule_apply. by rewrite Hc.
  - intros Hc w1 Hsm. unfold path_rule_apply.
    apply N.eqb_neq in Hc. rewrite Hc, Hsm. reflexivity.
Qed.

(** C6, the claim as stated, fails twice.  For an action that is neither
    an update nor a clean, [apply] returns the noop recipe, not the default
    one, for a target without prerequisites.  And [match] for
    perform-update claims a target whose file does not exist when the mtime
    of the target is known: the first [match] reads the mtime of
    [file{world}] and keeps it, and with the file gone after that the
    second [match] claims the target all the same. *)
Lemma path_rule_apply_noop_without_prerequisites :
  let a := mk_action perform_id default_id 0 in
  let ev : string -> string -> target_key -> option string := fun _ def _ => Some def in
  let first := path_rule_match ev perform_update_action 1 hello_world in
  let gone := mk_world (targets first.2) (delete "d/world" (files first.2))
                       (dirs first.2) in
  (operation a <> clean_id
   /\ operation a <> update_id
   /\ path_rule_match ev a 1 hello_world = (Ok true, hello_world)
   /\ path_rule_apply nothing_to_match a 1 hello_world = (Ok noop_recipe, hello_world)
   /\ noop_recipe <> default_recipe)
  /\ (first.1 = Ok true
      /\ path_ (targets gone 1) = "d/world"
      /\ file_exists "d/world" gone = false
      /\ path_rule_match ev perform_update_action 1 gone = (Ok true, gone)).
Proof.
  split.
  - repeat split; discriminate.
  - vm_compute. repeat split.
Qed.

Lemma path_rule_match_apply_witness :
  path_rule_apply nothing_to_match (mk_action perform_id default_id 0) 0 hello_world
  = (Ok default_recipe, hello_world).
Proof.
  refine (proj2 (proj2 (proj2 (path_rule_match_apply
                                 (fun _ def _ => Some def) nothing_to_match
                                 (mk_action perform_id default_id 0) 0 hello_world)))
            _ hello_world _).
  - discriminate.
  - reflexivity.
Defined.

Example path_rule_match_existing_file :
  (path_rule_match (fun _ def _ => Some def) perform_update_action 1 hello_world).1
  = Ok true.
Proof. vm_compute. reflexivity. Qed.

Example path_rule_match_missing_file :
  let w := mk_world (fun _ => new_target file_static_type "d/" "" "gone" (Some "txt"))
                    ∅ ∅ in
  let r := path_rule_match (fun _ def _ => Some def) perform_update_action 0 w in
  r.1 = Ok false /\ path_ (targets r.2 0) = "d/gone.txt".
Proof. vm_compute. split; reflexivity. Qed.

(** ** perform_clean of fsdir_rule *)

(** C7.  [perform_clean] of [fsdir_rule] removes the directory of the
    target first and executes the prerequisites in the state that left (the
    other way round from [perform_update], which executes them in the
    state it is called in and looks at the directory afterwards).  Its
    result is [postponed] when the removal reports not-empty, [changed]
    when it removed the directory, and otherwise the state from the
    prerequisites ([unchanged] without any). *)
Theorem fsdir_rule_perform_clean_order
    (execute_prerequisites reverse_execute_prerequisites :
       action -> target_id -> world -> result diag target_state * world)
    (try_mkdir : dir_path -> world -> result diag () * world)
    (rmdir : dir_path -> target_id -> world -> result diag rmdir_status * world)
    (a : action) (id : target_id) (w : world) :
  let t := targets w id in
  let clean := fsdir_rule_perform_clean reverse_execute_prerequisites rmdir a id w in
  let update := fsdir_rule_perform_update execute_prerequisites try_mkdir a id w in
  (forall rs w1, rmdir (dir t) id w = (Ok rs, w1) ->
     let prerequisites :=
       if has_prerequisites t then reverse_execute_prerequisites a id w1
       else (Ok unchanged, w1) in
     clean.2 = prerequisites.2
     /\ (forall d, prerequisites.1 = Fail d -> clean.1 = Fail d)
     /\ (forall ts, prerequisites.1 = Ok ts ->
           clean.1 = Ok (match rs with
                         | rmdir_not_empty => postponed
                         | rmdir_success => changed
                         | rmdir_not_exist => ts
                         end)))
  /\ (forall d w1, rmdir (dir t) id w = (Fail d, w1) -> clean = (Fail d, w1))
  /\ (has_prerequisites t = true ->
      forall ts w1, execute_prerequisites a id w = (Ok ts, w1) ->
        update
        = if dir_exists (dir t) w1 then (Ok ts, w1)
          else match try_mkdir (dir t) w1 with
               | (Fail _, w2) => (Fail (unable_to_create_directory (dir t)), w2)
               | (Ok _, w2) => (Ok changed, w2)
               end).
Proof.
  intros t clean update. subst clean update.
  unfold fsdir_rule_perform_clean, fsdir_rule_perform_update. fold t.
  split; [|split].
  - intros rs w1 ->. simpl.
    destruct (if has_prerequisites t then _ else _) as [[ts|d] w2]; simpl.
    + split; [reflexivity|]. split; [discriminate|]. by intros ? [= <-].
    + split; [reflexivity|]. split; [by intros ? [= <-] | discriminate].
  - intros d w1 ->. reflexivity.
  - intros -> ts w1 ->. by destruct (dir_exists (dir t) w1).
Qed.

Lemma fsdir_rule_perform_clean_order_witness :
  (fsdir_rule_perform_clean no_prerequisites rmdir_empty
     (mk_action perform_id clean_id 0) 1 nested_dirs).1
  = Ok postponed.
Proof.
  refine (proj2 (proj2 (proj1 (fsdir_rule_perform_clean_order
                                 no_prerequisites no_prerequisites
                                 (fun _ w => (Ok (), w)) rmdir_empty
                                 (mk_action perform_id clean_id 0) 1 nested_dirs)
                          rmdir_not_empty nested_dirs _))
            unchanged _).
  - reflexivity.
  - reflexivity.
Defined.

Example fsdir_clean_chain :
  let r := fsdir_rule_perform_clean clean_prerequisites rmdir_empty
             (mk_action perform_id clean_id 0) 0 nested_dirs in
  r.1 = Ok changed /\ dirs r.2 = ∅.
Proof. vm_compute. split; reflexivity. Qed.

Example fsdir_clean_postponed :
  let r := fsdir_rule_perform_clean no_prerequisites rmdir_empty
             (mk_action perform_id clean_id 0) 1 nested_dirs in
  r.1 = Ok postponed /\ dirs r.2 = {[ "a/"; "a/b/" ]}.
Proof. vm_compute. split; reflexivity. Qed.

(** ** More about perform_update and apply *)

(** X13.  When [perform_update] of [path_rule] succeeds, the mtime of the
    target was read before any prerequisite was executed, every
    prerequisite target was executed successfully, in order, and at the
    test right after its execution none was ahead: the mtime of an
    mtime-based prerequisite was not later than that of the target, and a
    prerequisite without mtime was not [changed]. *)
Theorem path_rule_perform_update_not_older
    (execute : action -> target_id -> world -> result diag target_state * world)
    (a : action) (id : target_id) (w : world) (s : target_state) :
  outcome (path_rule_perform_update execute a id w) = Ok s ->
  exists mt w0,
    mtime id w = Ok (mt, w0)
    /\ forall l1 pt l2,
         prerequisite_targets (targets w id) = l1 ++ pt :: l2 ->
         let before := update_prerequisites execute a id mt l1 w0 [] in
         exists ts w1,
           outcome before = Ok unchanged
           /\ execute a pt (after before) = (Ok ts, w1)
           /\ if is_a (type (targets w1 pt)) mtime_target_static_type
              then exists mp w2, mtime pt w1 = Ok (mp, w2) /\ (mp <= mt)%Z
              else ts <> changed.
Proof.
  unfold path_rule_perform_update.
  destruct (negb _); [discriminate|].
  destruct (mtime id w) as [[mt w0]|dg]; [|discriminate].
  intros Hs. exists mt, w0. split; [reflexivity|].
  intros l1 pt l2 Hpts. rewrite Hpts in Hs.
  rewrite update_prerequisites_app in Hs. cbv zeta in Hs |- *.
  destruct (outcome (update_prerequisites execute a id mt l1 w0 [])) as [s1|d1] eqn:H1.
  - assert (s1 = unchanged) as ->.
    { by destruct (update_prerequisites_ok execute _ _ _ _ _ _ _ H1) as [-> _]. }
    simpl in Hs.
    destruct (execute a pt _) as [[ts|dg] w1]; [|discriminate].
    exists ts, w1. split; [reflexivity|]. split; [reflexivity|].
    unfold prerequisite_ahead in Hs.
    destruct (is_a (type (targets w1 pt)) mtime_target_static_type).
    + destruct (mtime pt w1) as [[mp w2]|dg]; [|discriminate].
      exists mp, w2. split; [reflexivity|].
      destruct (mt <? mp)%Z eqn:Hlt; [discriminate|]. by apply Z.ltb_ge.
    + case_bool_decide as Hch; [discriminate | exact Hch].
  - rewrite H1 in Hs. discriminate.
Qed.

(** X14.  With a [try_mkdir] that leaves the directory it made in place,
    a [perform_update] of [fsdir_rule] that succeeds leaves the directory
    of the target in place.  If the directory is there once the
    prerequisites are executed, nothing more is done and the result is the
    state of the prerequisites; if not, the directory is made and the
    result is [changed]. *)
Theorem fsdir_rule_perform_update_creates
    (execute_prerequisites : action -> target_id -> world -> result diag target_state * world)
    (try_mkdir : dir_path -> world -> result diag () * world)
    (a : action) (id : target_id) (w : world) (ts : target_state) (w' : world) :
  (forall d w0 w1, try_mkdir d w0 = (Ok (), w1) -> dir_exists d w1 = true) ->
  fsdir_rule_perform_update execute_prerequisites try_mkdir a id w = (Ok ts, w') ->
  let t := targets w id in
  let prerequisites :=
    if has_prerequisites t then execute_prerequisites a id w
    else (Ok unchanged, w) in
  dir_exists (dir t) w' = true
  /\ (dir_exists (dir t) prerequisites.2 = true ->
      w' = prerequisites.2 /\ prerequisites.1 = Ok ts)
  /\ (dir_exists (dir t) prerequisites.2 = false ->
      ts = changed /\ try_mkdir (dir t) prerequisites.2 = (Ok (), w')).
Proof.
  intros Hmkdir. unfold fsdir_rule_perform_update. cbv zeta.
  destruct (if has_prerequisites (targets w id) then _ else _) as [[ts1|d] w1];
    [|discriminate].
  simpl. destruct (dir_exists (dir (targets w id)) w1) eqn:Hex; simpl.
  - intros [= <- <-]. split; [exact Hex|]. split; [auto | discriminate].
  - destruct (try_mkdir (dir (targets w id)) w1) as [[[]|d] w2] eqn:Hmk;
      [|discriminate].
    intros [= <- <-]. split; [by eapply Hmkdir|].
    split; [discriminate | auto].
Qed.

(** X15.  [apply] of [dir_rule] and of [fsdir_rule] trip [assert (false)]
    for an operation other than default, update and clean, without
    matching any prerequisite.  When [fsdir_rule::apply] returns, the
    recipe is its [perform_update] for perform-update, its [perform_clean]
    for perform-clean and the default recipe for any other action, and the
    prerequisites were matched after the parent directory was injected,
    for clean only those in the parent directory of the target's directory
    (the directory itself if it is a root).  [dir_rule::apply] returns the
    default recipe, with the prerequisites matched, for clean only those in
    the directory of the target. *)
Theorem fsdir_rule_apply_recipe
    (search_and_match :
       action -> target_id -> option dir_path -> world -> result diag () * world)
    (inject_parent_fsdir : action -> target_id -> world -> result diag () * world)
    (root : dir_path -> bool) (directory : dir_path -> dir_path)
    (a : action) (id : target_id) (w : world) :
  let known :=
    N.eqb (operation a) default_id || N.eqb (operation a) update_id
    || N.eqb (operation a) clean_id in
  (known = false ->
   (forall w0, inject_parent_fsdir a id w = (Ok (), w0) ->
      fsdir_rule_apply search_and_match inject_parent_fsdir root directory a id w
      = (Fail (assertion "false"), w0))
   /\ dir_rule_apply search_and_match a id w = (Fail (assertion "false"), w))
  /\ (forall r w1,
        fsdir_rule_apply search_and_match inject_parent_fsdir root directory a id w
        = (Ok r, w1) ->
        known = true
        /\ r = (if bool_decide (to_action_id a = perform_update_id)
                then fsdir_rule_perform_update_recipe
                else if bool_decide (to_action_id a = perform_clean_id)
                     then fsdir_rule_perform_clean_recipe
                     else default_recipe)
        /\ exists w0,
             inject_parent_fsdir a id w = (Ok (), w0)
             /\ search_and_match a id
                  (if N.eqb (operation a) clean_id
                   then Some (if root (dir (targets w0 id)) then dir (targets w0 id)
                              else directory (dir (targets w0 id)))
                   else None) w0
                = (Ok (), w1))
  /\ (forall r w1,
        dir_rule_apply search_and_match a id w = (Ok r, w1) ->
        known = true /\ r = default_recipe
        /\ search_and_match a id
             (if N.eqb (operation a) clean_id then Some (dir (targets w id)) else None) w
           = (Ok (), w1)).
Proof.
  intros known. subst known.
  unfold fsdir_rule_apply, dir_rule_apply.
  split; [|split].
  - intros Hk. apply orb_false_iff in Hk as [Hk Hc]. rewrite Hk, Hc.
    split; [|reflexivity]. by intros w0 ->.
  - intros r w1.
    destruct (inject_parent_fsdir a id w) as [[[]|d] w0]; [|discriminate].
    destruct (N.eqb (operation a) default_id || N.eqb (operation a) update_id)
      eqn:Hdu; simpl.
    + assert (N.eqb (operation a) clean_id = false) as ->.
      { apply N.eqb_neq. apply orb_true_iff in Hdu as [H|H];
          apply N.eqb_eq in H; rewrite H; discriminate. }
      destruct (search_and_match a id None w0) as [[[]|d] w2] eqn:Hsm;
        [|discriminate].
      intros [= <- <-]. split; [reflexivity|]. split; [reflexivity|]. eauto.
    + destruct (N.eqb (operation a) clean_id) eqn:Hc; [|discriminate].
      destruct (search_and_match a id _ w0) as [[[]|d] w2] eqn:Hsm;
        [|discriminate].
      intros [= <- <-]. split; [reflexivity|]. split; [reflexivity|]. eauto.
  - intros r w1.
    destruct (N.eqb (operation a) default_id || N.eqb (operation a) update_id)
      eqn:Hdu; simpl.
    + assert (N.eqb (operation a) clean_id = false) as ->.
      { apply N.eqb_neq. apply orb_true_iff in Hdu as [H|H];
          apply N.eqb_eq in H; rewrite H; discriminate. }
      destruct (search_and_match a id None w) as [[[]|d] w2] eqn:Hsm;
        [|discriminate].
      intros [= <- <-]. auto.
    + destruct (N.eqb (operation a) clean_id) eqn:Hc; [|discriminate].
      destruct (search_and_match a id _ w) as [[[]|d] w2] eqn:Hsm;
        [|discriminate].
      intros [= <- <-]. auto.
Qed.

Lemma path_rule_perform_update_not_older_witness :
  exists mt w0,
    mtime 0 hello_newest = Ok (mt, w0)
    /\ forall l1 pt l2,
         prerequisite_targets (targets hello_newest 0) = l1 ++ pt :: l2 ->
         let before := update_prerequisites execute_unchanged perform_update_action
                         0 mt l1 w0 [] in
         exists ts w1,
           outcome before = Ok unchanged
           /\ execute_unchanged perform_update_action pt (after before) = (Ok ts, w1)
           /\ if is_a (type (targets w1 pt)) mtime_target_static_type
              then exists mp w2, mtime pt w1 = Ok (mp, w2) /\ (mp <= mt)%Z
              else ts <> changed.
Proof.
  apply (path_rule_perform_update_not_older execute_unchanged perform_update_action
           0 hello_newest unchanged).
  vm_compute. reflexivity.
Defined.

Lemma fsdir_rule_perform_update_creates_witness :
  let mkdir := fun (d : dir_path) (w : world) =>
                 (Ok (E:=diag) (), mk_world (targets w) (files w) ({[d]} ∪ dirs w)) in
  let w := mk_world (fun _ => a_fsdir "a/" []) ∅ ∅ in
  dir_exists "a/" (mk_world (targets w) ∅ {[ "a/" ]}) = true.
Proof.
  intros mkdir w.
  refine (proj1 (fsdir_rule_perform_update_creates no_prerequisites mkdir
                   (mk_action perform_id update_id 0) 0 w changed
                   (mk_world (targets w) ∅ {[ "a/" ]}) _ _)).
  - intros d w0 w1 [= <-]. unfold dir_exists. simpl.
    apply bool_decide_eq_true. apply elem_of_union. left. by apply elem_of_singleton.
  - vm_compute. reflexivity.
Defined.

End Rule.

(** * The project loader (build/file.cxx) *)

Module Loader.

(** ** Paths, names, values *)

(** Paths are lists of components here, since the loader takes them apart;
    an absolute path starts with the root component ["/"]. *)
Abbreviation dir_path := (list string) (only parsing).
Abbreviation path := (list string) (only parsing).

Definition absolute (p : path) : bool :=
  match p with
  | c :: _ => String.eqb c "/"
  | [] => false
  end.

Definition relative (p : path) : bool := negb (absolute p).

(** Modelled from the spec: paths are normalised (butl's [normalize], not
    part of the sources): a [.] goes, a [..] takes the component before it
    along unless there is none to take. *)
Definition normalize_step (seen : list string) (c : string) : list string :=
  if String.eqb c "." then seen
  else if String.eqb c ".." then
    match seen with
    | [] => [c]
    | x :: seen' =>
        if String.eqb x ".." then c :: seen
        else if String.eqb x "/" then seen
        else seen'
    end
  else c :: seen.

Definition normalize (p : path) : path := rev (fold_left normalize_step p []).

(** Modelled from the spec: [p.sub (d)] (butl), [p] is [d] or lies under
    it. *)
Definition sub (p d : dir_path) : bool := bool_decide (d `prefix_of` p).

(** Modelled from the spec: [p.leaf (d)] (butl), what is left of [p] under
    [d]. *)
Definition leaf (p d : dir_path) : dir_path := drop (length d) p.

(** Modelled from the spec: a name has an optional directory, an optional
    type and a value (the name header is not part of the sources); it is
    simple when it is a value only, a directory when it is a directory
    only. *)
Record name := mk_name {
  dir : dir_path;
  type : string;
  value : string
}.

Definition simple (n : name) : bool :=
  bool_decide (dir n = []) && String.eqb (type n) "".

Definition directory (n : name) : bool :=
  negb (bool_decide (dir n = [])) && String.eqb (type n) ""
  && String.eqb (value n) "".

Definition empty (n : name) : bool :=
  bool_decide (dir n = []) && String.eqb (type n) "" && String.eqb (value n) "".

(** Modelled from the spec: a value is typed (here: a directory path) or an
    untyped list of names; a variable that is set to no value holds NULL
    ([None] below). *)
Inductive value_type :=
| dir_path_value (d : dir_path)
| list_value (l : list name).

Definition as_dir_path (v : value_type) : option dir_path :=
  match v with
  | dir_path_value d => Some d
  | list_value _ => None
  end.

Definition as_list_value (v : value_type) : option (list name) :=
  match v with
  | list_value l => Some l
  | dir_path_value _ => None
  end.

(** ** Scopes *)

Record scope := mk_scope {
  vars : gmap string (option value_type);
  buildfiles : gset path;
  meta_operations : list string;
  operations : list string;
  src_path_ : option dir_path;
  root_ : bool
}.

Definition empty_scope : scope := mk_scope ∅ ∅ [] [] None false.

Definition set_vars (vs : gmap string (option value_type)) (s : scope) : scope :=
  mk_scope vs (buildfiles s) (meta_operations s) (operations s) (src_path_ s) (root_ s).

(** [s.assign (var) = v]. *)
Definition assign (var : string) (v : value_type) (s : scope) : scope :=
  set_vars (<[var := Some v]> (vars s)) s.

(** [s.assign (var)] that leaves the value NULL. *)
Definition assign_null (var : string) (s : scope) : scope :=
  set_vars (<[var := None]> (vars s)) s.

(** The value of a variable when it is set to one ([if (auto v = ...)]). *)
Definition defined (s : scope) (var : string) : option value_type :=
  match vars s !! var with
  | Some (Some v) => Some v
  | _ => None
  end.

(** The scope map, keyed by out path; the temporary scope of an import in
    progress, with the path of its parent; the files there are. *)
Record world := mk_world {
  scopes : gmap (list string) scope;
  temp : option (list string * scope);
  fs : gset (list string)
}.

(** A scope the code holds a reference to is in the map. *)
Definition scope_at (p : dir_path) (w : world) : scope :=
  match scopes w !! p with
  | Some s => s
  | None => empty_scope
  end.

Definition put_scope (p : dir_path) (s : scope) (w : world) : world :=
  mk_world (<[p := s]> (scopes w)) (temp w) (fs w).

(** What an assignment through a reference to the scope at [p] does. *)
Definition update_scope (p : dir_path) (f : scope -> scope) (w : world) : world :=
  put_scope p (f (scope_at p w)) w.

Definition file_exists (p : path) (w : world) : bool := bool_decide (p ∈ fs w).

(** The proper prefixes of a path, the longest first. *)
Definition outer_paths (p : dir_path) : list dir_path :=
  map (fun n => take n p) (rev (seq 0 (length p))).

Definition in_map (w : world) (p : dir_path) : bool :=
  bool_decide (is_Some (scopes w !! p)).

(** Modelled from the spec: [scopes.insert (out_dir, root?)] returns the
    scope of the directory, made if need be and marked as a root if asked;
    [parent_scope] is the nearest scope above, [root_scope] the nearest
    enclosing scope that is a root (the scope header is not part of the
    sources). *)
Definition mark_root (root : bool) (s : scope) : scope :=
  mk_scope (vars s) (buildfiles s) (meta_operations s) (operations s)
           (src_path_ s) (root_ s || root).

Definition scopes_insert (p : dir_path) (root : bool) (w : world) : world :=
  update_scope p (mark_root root) w.

Definition parent_scope (p : dir_path) (w : world) : option dir_path :=
  List.find (in_map w) (outer_paths p).

Definition root_scope (p : dir_path) (w : world) : option dir_path :=
  List.find (fun q => in_map w q && root_ (scope_at q w)) (p :: outer_paths p).

Definition global_scope : dir_path := ["/"].

(** Modelled from the spec: [s[var]] looks the variable up in the scope and
    then in its ancestors up to the global scope, and says where it found
    it. *)
Definition lookup (p : dir_path) (var : string) (w : world)
    : option (dir_path * option value_type) :=
  match List.find (fun q => in_map w q
                            && bool_decide (is_Some (vars (scope_at q w) !! var)))
                  (p :: outer_paths p) with
  | Some q =>
      match vars (scope_at q w) !! var with
      | Some v => Some (q, v)
      | None => None
      end
  | None => None
  end.

(** A reference to a scope: one of the map, or the temporary one. *)
Inductive scope_ref :=
| mapped (p : dir_path)
| temporary.

Inductive diag :=
| unable_to_open (p : path)
| failed_to_read (p : path)
| root_mismatch (var : string) (new existing : dir_path)
| bootstrapped_src_root_mismatch (with_ : string) (bootstrapped src_root : dir_path)
| project_name_expected (n : name)
| invalid_config_value (var : string)
| unable_to_find_out_root (project : string)
| unable_to_determine_src_root (project : string)
| parse_error (what : string)
| assertion (what : string)
| out_of_fuel.

(** Modelled from the spec: the operation tables give an entry its
    insertion position as id, the first being 1; entering a name that is
    there returns the id it has. *)
Fixpoint index_of (x : string) (l : list string) : option nat :=
  match l with
  | [] => None
  | y :: l' => if String.eqb x y then Some 0 else S <$> index_of x l'
  end.

Definition table_insert (x : string) (l : list string) : list string * N :=
  match index_of x l with
  | Some i => (l, N.of_nat (S i))
  | None => (l ++ [x], N.of_nat (S (length l)))
  end.

(** ** The loader's state and its monad *)

(** The world, and (for the statements only, there is nothing like it in
    the C++ code) the scopes of the map the call has worked on so far: the
    ones [create_root] was called for and the ones a buildfile was
    evaluated in. *)
Record state := mk_state {
  now : world;
  worked_on : list (list string)
}.

Definition M (A : Type) : Type := state -> result diag A * state.

#[global] Instance M_ret : MRet M := fun A a s => (Ok a, s).

#[global] Instance M_bind : MBind M := fun A B k m s =>
  match m s with
  | (Ok a, s') => k a s'
  | (Fail d, s') => (Fail d, s')
  end.

Definition fail {A : Type} (d : diag) : M A := fun s => (Fail d, s).
Definition get : M world := fun s => (Ok (now s), s).
Definition modify (f : world -> world) : M () :=
  fun s => (Ok (), mk_state (f (now s)) (worked_on s)).
Definition note (p : dir_path) : M () :=
  fun s => (Ok (), mk_state (now s) (worked_on s ++ [p])).
Definition when (b : bool) (m : M ()) : M () := if b then m else mret ().

Definition is_src_root (d : dir_path) (w : world) : bool :=
  file_exists (d ++ ["build"; "bootstrap.build"]) w
  || file_exists (d ++ ["build"; "root.build"]) w.

Definition is_out_root (d : dir_path) (w : world) : bool :=
  file_exists (d ++ ["build"; "bootstrap"; "src-root.build"]) w.

(** The first lines of [create_root]: the built-in meta-operation and
    operation names, entered under the ids they are known by. *)
Definition enter_operations (rs : scope) : result diag scope :=
  match meta_operations rs with
  | [] =>
      let '(ms, i) := table_insert "perform" (meta_operations rs) in
      if negb (N.eqb i Target.perform_id)
      then Fail (assertion "rs.meta_operations.insert (perform) == perform_id")
      else
        let '(os1, i1) := table_insert "default" (operations rs) in
        if negb (N.eqb i1 Target.default_id)
        then Fail (assertion "rs.operations.insert (default_) == default_id")
        else
          let '(os2, i2) := table_insert "update" os1 in
          if negb (N.eqb i2 Target.update_id)
          then Fail (assertion "rs.operations.insert (update) == update_id")
          else
            let '(os3, i3) := table_insert "clean" os2 in
            if negb (N.eqb i3 Target.clean_id)
            then Fail (assertion "rs.operations.insert (clean) == clean_id")
            else Ok (mk_scope (vars rs) (buildfiles rs) ms os3
                              (src_path_ rs) (root_ rs))
  | _ :: _ => Ok rs
  end.

(** One of the two blocks of [create_root] that assign [out_root] and
    [src_root]: set the variable if it has no value, else compare. *)
Definition assign_root (var : string) (new : dir_path) (rs : scope) : result diag scope :=
  match defined rs var with
  | None => Ok (assign var (dir_path_value new) rs)
  | Some v =>
      match as_dir_path v with
      | None => Fail (assertion "as<const dir_path&>")
      | Some p =>
          if bool_decide (p <> new) then Fail (root_mismatch var new p)
          else Ok rs
      end
  end.

(** [create_root (out_root, src_root)]; the reference to the scope is its
    out path. *)
Definition create_root (out_root src_root : dir_path) : M dir_path :=
  modify (scopes_insert out_root true);;
  note out_root;;
  w ← get;
  match enter_operations (scope_at out_root w) with
  | Fail d => fail d
  | Ok rs1 =>
      modify (put_scope out_root rs1);;
      match assign_root "out_root" out_root rs1 with
      | Fail d => fail d
      | Ok rs2 =>
          modify (put_scope out_root rs2);;
          if bool_decide (src_root = []) then mret out_root
          else
            match assign_root "src_root" src_root rs2 with
            | Fail d => fail d
            | Ok rs3 => modify (put_scope out_root rs3);; mret out_root
            end
      end
  end.

Section loader.

(** The parser (build/parser, not part of the sources): it evaluates the
    buildfile with the given root and base scopes and returns what the
    buildfile exports. *)
Variable parse_buildfile :
  path -> scope_ref -> scope_ref -> world -> result diag (list name) * world.

(** The working directory, and the conversion of a string to a directory
    path ([dir_path (n.value)]). *)
Variable work : dir_path.
Variable to_dir_path : string -> dir_path.

Definition run_parser (bf : path) (root base : scope_ref) : M (list name) :=
  fun s =>
    let '(r, w') := parse_buildfile bf root base (now s) in
    (r, mk_state w' (worked_on s)).

Definition note_ref (r : scope_ref) : M () :=
  match r with
  | mapped p => note p
  | temporary => mret ()
  end.

(** [source (bf, root, base)]. *)
Definition source (bf : path) (root base : scope_ref) : M () :=
  w ← get;
  if negb (file_exists bf w) then fail (unable_to_open bf)
  else note_ref base;; run_parser bf root base;; mret ().

Definition add_buildfile (bf : path) (s : scope) : scope :=
  mk_scope (vars s) ({[bf]} ∪ buildfiles s) (meta_operations s) (operations s)
           (src_path_ s) (root_ s).

(** [source_once (bf, root, base, once)]. *)
Definition source_once (bf : path) (root base : scope_ref) (once : dir_path) : M () :=
  w ← get;
  if bool_decide (bf ∈ buildfiles (scope_at once w)) then mret ()
  else
    modify (update_scope once (add_buildfile bf));;
    source bf root base.

(** [bootstrap_out (root)]. *)
Definition bootstrap_out (root : dir_path) : M () :=
  w ← get;
  let bf := root ++ ["build"; "bootstrap"; "src-root.build"] in
  if negb (file_exists bf w) then mret ()
  else source_once bf (mapped root) (mapped root) root.

(** [root.src_path ()]. *)
Definition src_path (root : dir_path) : M dir_path :=
  w ← get;
  match src_path_ (scope_at root w) with
  | Some p => mret p
  | None => fail (assertion "src_path_ != nullptr")
  end.

(** [bootstrap_src (root)]. *)
Definition bootstrap_src (root : dir_path) : M bool :=
  sp ← src_path root;
  w ← get;
  let bf := sp ++ ["build"; "bootstrap.build"] in
  if negb (file_exists bf w) then mret false
  else source_once bf (mapped root) (mapped root) root;; mret true.

Definition set_src_path (p : dir_path) (s : scope) : scope :=
  mk_scope (vars s) (buildfiles s) (meta_operations s) (operations s)
           (Some p) (root_ s).

(** [rs.vars["src_root"].as<const dir_path&> ()]. *)
Definition src_root_of (rs : dir_path) : M dir_path :=
  w ← get;
  match defined (scope_at rs w) "src_root" with
  | Some v =>
      match as_dir_path v with
      | Some p => mret p
      | None => fail (assertion "as<const dir_path&>")
      end
  | None => fail (assertion "as<const dir_path&>")
  end.

(** [create_bootstrap_outer (root)]; the amalgamations are followed for as
    long as the fuel lasts. *)
Fixpoint create_bootstrap_outer (fuel : nat) (root : dir_path) : M () :=
  match fuel with
  | 0 => fail out_of_fuel
  | S fuel' =>
      w ← get;
      match defined (scope_at root w) "amalgamation" with
      | None => mret ()
      | Some v =>
          match as_dir_path v with
          | None => fail (assertion "as<const dir_path&>")
          | Some d =>
              sp ← src_path root;
              let out_root := normalize (root ++ d) in
              let src_root := normalize (sp ++ d) in
              rs ← create_root out_root src_root;
              bootstrap_out rs;;
              p ← src_root_of rs;
              if bool_decide (src_root <> p)
              then fail (bootstrapped_src_root_mismatch "amalgamated" p src_root)
              else
                modify (update_scope rs (set_src_path p));;
                bootstrap_src rs;;
                create_bootstrap_outer fuel' rs
          end
      end
  end.

(** [load_root_pre (root)]. *)
Fixpoint load_root_pre (fuel : nat) (root : dir_path) : M () :=
  match fuel with
  | 0 => fail out_of_fuel
  | S fuel' =>
      w ← get;
      match parent_scope root w ≫= (fun p => root_scope p w) with
      | Some rs => load_root_pre fuel' rs
      | None => mret ()
      end;;
      sp ← src_path root;
      w1 ← get;
      let bf := sp ++ ["build"; "root.build"] in
      when (file_exists bf w1) (source_once bf (mapped root) (mapped root) root)
  end.

(** The first part of [import]: the name split into the project and the
    target. *)
Definition split_name (n : name) : result diag (string * name) :=
  match dir n with
  | [] =>
      if negb (simple n) then Fail (project_name_expected n)
      else Ok (value n, mk_name [] "" "")
  | project :: _ =>
      Ok (project, mk_name (leaf (dir n) [project]) (type n) (value n))
  end.

(** The second part: the [out_root] of the project from [config.<project>],
    which is left in the importing root scope, absolute and normalized,
    when it came from the global scope. *)
Definition find_out_root (iroot : dir_path) (project : string) : M dir_path :=
  let var := "config." +:+ project in
  w ← get;
  match lookup iroot var w with
  | Some (found_in, Some v) =>
      if negb (bool_decide (found_in = global_scope)) then
        match as_dir_path v with
        | Some p => mret p
        | None => fail (assertion "as<const dir_path&>")
        end
      else
        match as_list_value v with
        | None => fail (assertion "as<const list_value&>")
        | Some lv =>
            let out_root :=
              match lv with
              | [n] =>
                  if directory n then dir n
                  else if simple n then to_dir_path (value n)
                  else []
              | _ => []
              end in
            if bool_decide (out_root = []) then fail (invalid_config_value var)
            else
              let out_root := if relative out_root then work ++ out_root else out_root in
              let out_root := normalize out_root in
              modify (update_scope iroot (assign var (dir_path_value out_root)));;
              mret out_root
        end
  | _ => fail (unable_to_find_out_root project)
  end.

(** The temporary scope with the roots of the imported project and the
    target being imported. *)
Definition stub_scope (out_root src_root : dir_path) (target : name) : scope :=
  let ts := assign "out_root" (dir_path_value out_root) empty_scope in
  let ts := assign "src_root" (dir_path_value src_root) ts in
  if negb (empty target) then assign "target" (list_value [target]) ts
  else assign_null "target" ts.

Definition set_temp (t : option (dir_path * scope)) (w : world) : world :=
  mk_world (scopes w) t (fs w).

(** The parser run on the export stub with the temporary scope [ts] under
    [ibase] as its base; the temporary scope goes when this is left,
    whichever way. *)
Definition evaluate_stub (es : path) (iroot ibase : dir_path) (ts : scope)
    : M (list name) :=
  fun s =>
    let w := now s in
    let '(r, w') :=
      parse_buildfile es (mapped iroot) temporary (set_temp (Some (ibase, ts)) w) in
    (r, mk_state (set_temp (temp w) w') (worked_on s)).

(** The last part of [import]: the export stub, loaded in the context of
    the importing project. *)
Definition load_export_stub (ibase iroot root : dir_path)
    (out_root src_root : dir_path) (target : name) : M (list name) :=
  let ts := stub_scope out_root src_root target in
  sp ← src_path root;
  w ← get;
  let es := sp ++ ["build"; "export.build"] in
  if negb (file_exists es w) then fail (unable_to_open es)
  else evaluate_stub es iroot ibase ts.

(** [import (ibase, n, l)]. *)
Definition import (fuel : nat) (ibase : dir_path) (n : name) : M (list name) :=
  match split_name n with
  | Fail d => fail d
  | Ok (project, target) =>
      w ← get;
      match root_scope ibase w with
      | None => fail (assertion "ibase.root_scope () != nullptr")
      | Some iroot =>
          out_root ← find_out_root iroot project;
          w1 ← get;
          let src_root := if is_src_root out_root w1 then out_root else [] in
          root ← create_root out_root src_root;
          bootstrap_out root;;
          w2 ← get;
          match defined (scope_at root w2) "src_root" with
          | None => fail (unable_to_determine_src_root project)
          | Some v =>
              match as_dir_path v with
              | None => fail (assertion "as<const dir_path&>")
              | Some p =>
                  if negb (bool_decide (src_root = [])) && bool_decide (p <> src_root)
                  then fail (bootstrapped_src_root_mismatch "discovered" p src_root)
                  else
                    modify (update_scope root (set_src_path p));;
                    bootstrap_src root;;
                    create_bootstrap_outer fuel root;;
                    load_root_pre fuel root;;
                    load_export_stub ibase iroot root out_root src_root target
              end
          end
      end
  end.

End loader.

(** ** A sample project, and what it is for a call to leave a scope alone *)

(** A parser that finds nothing to do in any buildfile. *)
Definition quiet_parser (bf : path) (root base : scope_ref) (w : world)
    : result diag (list name) * world :=
  (Ok [], w).

(** The project [/a], bootstrapped, with [config.foo] given on the command
    line (it is in the global scope), and the project [/foo] on disk. *)
Definition importing : world :=
  mk_world
    {[ ["/"] :=
         assign "config.foo" (list_value [mk_name ["/"; "foo"] "" ""]) empty_scope;
       ["/"; "a"] :=
         mk_scope {[ "out_root" := Some (dir_path_value ["/"; "a"]);
                     "src_root" := Some (dir_path_value ["/"; "a"]) ]}
                  ∅ ["perform"] ["default"; "update"; "clean"]
                  (Some ["/"; "a"]) true;
       ["/"; "a"; "sub"] := empty_scope ]}
    None
    {[ ["/"; "foo"; "build"; "bootstrap.build"];
       ["/"; "foo"; "build"; "export.build"] ]}.


(** From [s] to [s'] the call has only added to the scopes it worked on,
    and the variables of the scope [q] are what they were unless it has
    worked on [q]. *)
Definition frame (q : dir_path) (s s' : state) : Prop :=
  (exists l, worked_on s' = worked_on s ++ l)
  /\ (q ∉ worked_on s' -> vars (scope_at q (now s')) = vars (scope_at q (now s))).

Definition framing {A : Type} (q : dir_path) (m : M A) : Prop :=
  forall s r s', m s = (r, s') -> frame q s s'.

(** The call does not end for want of fuel (the fuel is of the model, the
    diagnostic [out_of_fuel] is none of the code's). *)
Definition fuelled {A : Type} (m : M A) : Prop :=
  forall s, (m s).1 <> Fail out_of_fuel.

Definition whole_project (project : string) : name := mk_name [] "" project.

(** ** create_bootstrap_inner *)

(** [create_bootstrap_inner] has one diagnostic of its own beside those of
    the functions it calls. *)
Inductive inner_diag :=
| loader_failure (d : diag)
| expected_directory (n : name).

(** The loader's monad with these diagnostics, and the calls of the
    functions above in it. *)
Definition MI (A : Type) : Type := state -> result inner_diag A * state.

#[global] Instance MI_ret : MRet MI := fun A a s => (Ok a, s).

#[global] Instance MI_bind : MBind MI := fun A B k m s =>
  match m s with
  | (Ok a, s') => k a s'
  | (Fail d, s') => (Fail d, s')
  end.

Definition lift_diag {A : Type} (m : M A) : MI A := fun s =>
  match m s with
  | (Ok a, s') => (Ok a, s')
  | (Fail d, s') => (Fail (loader_failure d), s')
  end.

(** For the statements about [load_root_pre]: the root scopes from the
    outermost one down to [root], as the scope map [w] has them (each the
    root scope of the parent scope of the next). *)
Fixpoint root_chain (fuel : nat) (root : dir_path) (w : world) : list dir_path :=
  match fuel with
  | 0 => []
  | S fuel' =>
      match parent_scope root w ≫= (fun p => root_scope p w) with
      | Some rs => root_chain fuel' rs w
      | None => []
      end ++ [root]
  end.

Section inner.

Variable parse_buildfile :
  path -> scope_ref -> scope_ref -> world -> result diag (list name) * world.

(** The loop of [create_bootstrap_inner] over the names of the
    [subprojects] value still to go; [inner] is the recursive call on the
    subproject found. *)
Fixpoint subprojects_loop (inner : dir_path -> MI dir_path)
    (root out_base : dir_path) (l : list name) : MI dir_path :=
  match l with
  | [] => mret root
  | n :: l' =>
      if negb (String.eqb (type n) "") || negb (String.eqb (value n) "")
         || bool_decide (dir n = [])
      then fun s => (Fail (expected_directory n), s)
      else
        let out_root := root ++ dir n in
        if negb (sub out_base out_root) then subprojects_loop inner root out_base l'
        else
          sp ← lift_diag (src_path root);
          let src_root := sp ++ dir n in
          rs ← lift_diag (create_root out_root src_root);
          lift_diag (bootstrap_out parse_buildfile rs);;
          p ← lift_diag (src_root_of rs);
          if bool_decide (src_root <> p)
          then lift_diag (fail (bootstrapped_src_root_mismatch "subproject" p src_root))
          else
            lift_diag (modify (update_scope rs (set_src_path p)));;
            lift_diag (bootstrap_src parse_buildfile rs);;
            inner rs
  end.

(** [create_bootstrap_inner (root, out_base)]; the subprojects are
    descended into for as long as the fuel lasts. *)
Fixpoint create_bootstrap_inner (fuel : nat) (root out_base : dir_path)
    : MI dir_path :=
  match fuel with
  | 0 => lift_diag (fail out_of_fuel)
  | S fuel' =>
      w ← lift_diag get;
      match defined (scope_at root w) "subprojects" with
      | None => mret root
      | Some v =>
          match as_list_value v with
          | None => lift_diag (fail (assertion "as<const list_value&>"))
          | Some l =>
              subprojects_loop (fun rs => create_bootstrap_inner fuel' rs out_base)
                               root out_base l
          end
      end
  end.

End inner.

(** The project [/a] with the subproject [sub], which is bootstrapped. *)
Definition with_subproject : world :=
  mk_world
    {[ ["/"; "a"] :=
         mk_scope {[ "out_root" := Some (dir_path_value ["/"; "a"]);
                     "src_root" := Some (dir_path_value ["/"; "a"]);
                     "subprojects" := Some (list_value [mk_name ["sub"] "" ""]) ]}
                  ∅ ["perform"] ["default"; "update"; "clean"]
                  (Some ["/"; "a"]) true ]}
    None ∅.

(** ** Scopes of the map under updates *)

Lemma scope_at_put_eq (p : dir_path) (sc : scope) (w : world) :
  scope_at p (put_scope p sc w) = sc.
Proof. unfold scope_at, put_scope. simpl. by rewrite lookup_insert_eq. Qed.

Lemma scope_at_put_ne (p q : dir_path) (sc : scope) (w : world) :
  p <> q -> scope_at q (put_scope p sc w) = scope_at q w.
Proof.
  intros Hne. unfold scope_at, put_scope. simpl.
  by rewrite lookup_insert_ne by exact Hne.
Qed.

Lemma scopes_put_ne (p q : dir_path) (sc : scope) (w : world) :
  p <> q -> scopes (put_scope p sc w) !! q = scopes w !! q.
Proof. intros Hne. unfold put_scope. simpl. by apply lookup_insert_ne. Qed.

Lemma vars_update_scope (p q : dir_path) (f : scope -> scope) (w : world) :
  (forall sc, vars (f sc) = vars sc) ->
  vars (scope_at q (update_scope p f w)) = vars (scope_at q w).
Proof.
  intros Hf. unfold update_scope. destruct (decide (p = q)) as [->|Hne].
  - by rewrite scope_at_put_eq.
  - by rewrite scope_at_put_ne.
Qed.

(** ** create_root *)

Lemma enter_operations_ok (rs : scope) :
  (meta_operations rs = [] -> operations rs = []) ->
  exists rs1, enter_operations rs = Ok rs1
    /\ vars rs1 = vars rs /\ root_ rs1 = root_ rs /\ src_path_ rs1 = src_path_ rs
    /\ meta_operations rs1 <> [].
Proof.
  intros Htab. unfold enter_operations.
  destruct (meta_operations rs) as [|m ms] eqn:Hm.
  - rewrite (Htab eq_refl). simpl. eexists. repeat split. discriminate.
  - exists rs. rewrite Hm. repeat split. discriminate.
Qed.

Lemma enter_operations_vars (rs rs1 : scope) :
  enter_operations rs = Ok rs1 -> vars rs1 = vars rs.
Proof.
  unfold enter_operations. destruct (meta_operations rs); [|by intros [= <-]].
  destruct (table_insert "perform" []) as [ms i].
  destruct (negb _); [discriminate|].
  destruct (table_insert "default" _) as [os1 i1].
  destruct (negb _); [discriminate|].
  destruct (table_insert "update" _) as [os2 i2].
  destruct (negb _); [discriminate|].
  destruct (table_insert "clean" _) as [os3 i3].
  destruct (negb _); [discriminate|]. by intros [= <-].
Qed.

Lemma defined_assign_eq (var : string) (v : value_type) (s : scope) :
  defined (assign var v s) var = Some v.
Proof. unfold defined, assign. simpl. by rewrite lookup_insert_eq. Qed.

Lemma defined_assign_ne (var var' : string) (v : value_type) (s : scope) :
  var <> var' -> defined (assign var v s) var' = defined s var'.
Proof.
  intros Hne. unfold defined, assign. simpl.
  by rewrite lookup_insert_ne by exact Hne.
Qed.

(** What [create_root] comes to once the operation tables are entered. *)
Lemma create_root_run (out_root src_root : dir_path) (s : state) (rs1 : scope) :
  enter_operations (scope_at out_root (scopes_insert out_root true (now s))) = Ok rs1 ->
  let w1 := scopes_insert out_root true (now s) in
  let log := worked_on s ++ [out_root] in
  create_root out_root src_root s
  = match assign_root "out_root" out_root rs1 with
    | Fail d => (Fail d, mk_state (put_scope out_root rs1 w1) log)
    | Ok rs2 =>
        if bool_decide (src_root = [])
        then (Ok out_root,
              mk_state (put_scope out_root rs2 (put_scope out_root rs1 w1)) log)
        else
          match assign_root "src_root" src_root rs2 with
          | Fail d =>
              (Fail d, mk_state (put_scope out_root rs2 (put_scope out_root rs1 w1)) log)
          | Ok rs3 =>
              (Ok out_root,
               mk_state (put_scope out_root rs3
                           (put_scope out_root rs2 (put_scope out_root rs1 w1))) log)
          end
    end.
Proof.
  intros Henter w1 log. subst w1 log.
  unfold create_root, mbind, M_bind, modify, note, get. simpl.
  rewrite Henter. simpl.
  destruct (assign_root "out_root" out_root rs1) as [rs2|d]; [|reflexivity].
  simpl. destruct (bool_decide (src_root = [])); [reflexivity|].
  destruct (assign_root "src_root" src_root rs2) as [rs3|d]; reflexivity.
Qed.

(** C8.  On a scope whose operation tables are in order, [create_root]
    fails with the mismatch diagnostic when the scope carries an [out_root]
    other than the argument, or (the [src_root] argument not being empty
    and [out_root] being consistent) a [src_root] other than the argument;
    when each of the two is unset or equal to the argument the call
    succeeds, and the scope then carries the arguments ([src_root] if it
    was given), is a root with its operation tables in order, and is the
    only scope changed. *)
Theorem create_root_mismatch (out_root src_root : dir_path) (w : world)
    (log : list (list string)) :
  let rs := scope_at out_root w in
  let r := create_root out_root src_root (mk_state w log) in
  let out_ok := defined rs "out_root" = None
                \/ defined rs "out_root" = Some (dir_path_value out_root) in
  let src_ok := src_root = [] \/ defined rs "src_root" = None
                \/ defined rs "src_root" = Some (dir_path_value src_root) in
  (meta_operations rs = [] -> operations rs = []) ->
  (forall p, defined rs "out_root" = Some (dir_path_value p) -> p <> out_root ->
     r.1 = Fail (root_mismatch "out_root" out_root p))
  /\ (src_root <> [] -> out_ok ->
      forall p, defined rs "src_root" = Some (dir_path_value p) -> p <> src_root ->
        r.1 = Fail (root_mismatch "src_root" src_root p))
  /\ (out_ok -> src_ok ->
      r.1 = Ok out_root
      /\ defined (scope_at out_root (now r.2)) "out_root"
         = Some (dir_path_value out_root)
      /\ (src_root <> [] ->
          defined (scope_at out_root (now r.2)) "src_root"
          = Some (dir_path_value src_root))
      /\ root_ (scope_at out_root (now r.2)) = true
      /\ meta_operations (scope_at out_root (now r.2)) <> []
      /\ (forall q, q <> out_root -> scopes (now r.2) !! q = scopes w !! q)).
Proof.
  intros rs r out_ok src_ok Htab.
  set (w1 := scopes_insert out_root true w).
  assert (Hrs : scope_at out_root w1 = mark_root true rs).
  { unfold w1, scopes_insert, update_scope. apply scope_at_put_eq. }
  destruct (enter_operations_ok (mark_root true rs) Htab)
    as (rs1 & Henter & Hvars & Hroot & _ & Hmeta).
  rewrite <- Hrs in Henter.
  pose proof (create_root_run out_root src_root (mk_state w log) rs1 Henter) as Hrun.
  simpl in Hrun. fold w1 in Hrun. fold r in Hrun.
  assert (Hdef : forall var, defined rs1 var = defined rs var).
  { intros var. unfold defined. by rewrite Hvars. }
  split; [|split].
  - intros p Hp Hne. rewrite Hrun. unfold assign_root.
    rewrite Hdef, Hp. simpl. by rewrite bool_decide_eq_true_2 by exact Hne.
  - intros Hsrc Hout p Hp Hne. rewrite Hrun.
    assert (exists rs2, assign_root "out_root" out_root rs1 = Ok rs2
                        /\ defined rs2 "src_root" = defined rs "src_root")
      as (rs2 & -> & Hdef2).
    { unfold assign_root. rewrite Hdef. destruct Hout as [-> | ->]; simpl.
      - eexists. split; [reflexivity|].
        rewrite defined_assign_ne by discriminate. apply Hdef.
      - rewrite bool_decide_eq_false_2 by (intros Hn; by apply Hn).
        eexists. split; [reflexivity | apply Hdef]. }
    rewrite bool_decide_eq_false_2 by exact Hsrc.
    unfold assign_root. rewrite Hdef2, Hp. simpl.
    by rewrite bool_decide_eq_true_2 by exact Hne.
  - intros Hout Hsrc. rewrite Hrun.
    assert (exists rs2, assign_root "out_root" out_root rs1 = Ok rs2
                        /\ defined rs2 "out_root" = Some (dir_path_value out_root)
                        /\ defined rs2 "src_root" = defined rs "src_root"
                        /\ root_ rs2 = true
                        /\ meta_operations rs2 <> [])
      as (rs2 & -> & Hout2 & Hdef2 & Hroot2 & Hmeta2).
    { unfold assign_root. rewrite Hdef. destruct Hout as [-> | Hout]; simpl.
      - eexists. split; [reflexivity|]. split; [apply defined_assign_eq|].
        split; [|split; [simpl; rewrite Hroot; apply orb_true_r | exact Hmeta]].
        rewrite defined_assign_ne by discriminate. apply Hdef.
      - rewrite Hout. simpl.
        rewrite bool_decide_eq_false_2 by (intros Hn; by apply Hn).
        eexists. split; [reflexivity|]. split; [by rewrite Hdef|].
        split; [apply Hdef|].
        split; [rewrite Hroot; apply orb_true_r | exact Hmeta]. }
    assert (Hframe : forall (q : list string) sc1 sc2 sc3,
               q <> out_root ->
               scopes (put_scope out_root sc3
                         (put_scope out_root sc2 (put_scope out_root sc1 w1))) !! q
               = scopes w !! q
               /\ scopes (put_scope out_root sc2 (put_scope out_root sc1 w1)) !! q
                  = scopes w !! q).
    { intros q sc1 sc2 sc3 Hq.
      rewrite !scopes_put_ne by congruence.
      unfold w1, scopes_insert, update_scope.
      rewrite scopes_put_ne by congruence. auto. }
    destruct (decide (src_root = [])) as [Hnil|Hnil].
    + rewrite bool_decide_eq_true_2 by exact Hnil. simpl.
      rewrite scope_at_put_eq.
      split; [reflexivity|]. split; [exact Hout2|].
      split; [intros Hn; contradiction|]. split; [exact Hroot2|].
      split; [exact Hmeta2|].
      intros q Hq. apply (Hframe q rs1 rs2 rs2 Hq).
    + rewrite bool_decide_eq_false_2 by exact Hnil.
      assert (exists rs3, assign_root "src_root" src_root rs2 = Ok rs3
                          /\ defined rs3 "out_root" = Some (dir_path_value out_root)
                          /\ defined rs3 "src_root" = Some (dir_path_value src_root)
                          /\ root_ rs3 = true
                          /\ meta_operations rs3 <> [])
        as (rs3 & -> & Hout3 & Hsrc3 & Hroot3 & Hmeta3).
      { unfold assign_root. rewrite Hdef2.
        destruct Hsrc as [?|[-> | Hsrc]]; [contradiction| |]; simpl.
        - eexists. split; [reflexivity|].
          rewrite defined_assign_ne by discriminate.
          rewrite defined_assign_eq. auto.
        - rewrite Hsrc. simpl.
          rewrite bool_decide_eq_false_2 by (intros Hn; by apply Hn).
          eexists. split; [reflexivity|]. rewrite Hdef2. auto. }
      simpl. rewrite scope_at_put_eq.
      split; [reflexivity|]. split; [exact Hout3|].
      split; [intros _; exact Hsrc3|]. split; [exact Hroot3|].
      split; [exact Hmeta3|].
      intros q Hq. apply (Hframe q rs1 rs2 rs3 Hq).
Qed.

(** Property 8 of the specification: bootstrapping a root again with
    another [src_root] fails. *)
Lemma create_root_mismatch_witness :
  (create_root ["/"; "a"] ["/"; "b"] (mk_state importing [])).1
  = Fail (root_mismatch "src_root" ["/"; "b"] ["/"; "a"]).
Proof.
  refine (proj1 (proj2 (create_root_mismatch ["/"; "a"] ["/"; "b"] importing [] _))
            _ _ ["/"; "a"] _ _).
  - intros H. vm_compute in H. discriminate H.
  - discriminate.
  - right. reflexivity.
  - reflexivity.
  - discriminate.
Defined.

Example create_root_again :
  let r := create_root ["/"; "a"] ["/"; "a"] (mk_state importing []) in
  r.1 = Ok ["/"; "a"] /\ now r.2 = importing.
Proof. vm_compute. split; reflexivity. Qed.

Example create_root_fresh :
  let r := create_root ["/"; "b"] [] (mk_state importing []) in
  r.1 = Ok ["/"; "b"]
  /\ scope_at ["/"; "b"] (now r.2)
     = mk_scope {[ "out_root" := Some (dir_path_value ["/"; "b"]) ]} ∅
                ["perform"] ["default"; "update"; "clean"] None true.
Proof. vm_compute. split; reflexivity. Qed.

(** ** What a call leaves alone *)

Lemma frame_refl (q : dir_path) (s : state) : frame q s s.
Proof. split; [exists []; by rewrite app_nil_r | reflexivity]. Qed.

Lemma frame_trans (q : dir_path) (s1 s2 s3 : state) :
  frame q s1 s2 -> frame q s2 s3 -> frame q s1 s3.
Proof.
  intros [[l1 Hl1] H1] [[l2 Hl2] H2]. split.
  - exists (l1 ++ l2). by rewrite Hl2, Hl1, app_assoc.
  - intros Hq. rewrite H2 by exact Hq. apply H1.
    rewrite Hl2 in Hq. intros Hin. apply Hq. apply elem_of_app. by left.
Qed.

Lemma framing_ret {A : Type} (q : dir_path) (a : A) : framing q (mret a).
Proof. intros s r s' [= <- <-]. apply frame_refl. Qed.

Lemma framing_fail {A : Type} (q : dir_path) (d : diag) : framing q (@fail A d).
Proof. intros s r s' [= <- <-]. apply frame_refl. Qed.

Lemma framing_get (q : dir_path) : framing q get.
Proof. intros s r s' [= <- <-]. apply frame_refl. Qed.

Lemma framing_bind {A B : Type} (q : dir_path) (m : M A) (k : A -> M B) :
  framing q m -> (forall a, framing q (k a)) -> framing q (m ≫= k).
Proof.
  intros Hm Hk s r s'. unfold mbind, M_bind.
  destruct (m s) as [[a|d] s1] eqn:Hms.
  - intros Hks. eapply frame_trans; [by eapply Hm | by eapply Hk].
  - intros [= <- <-]. by eapply Hm.
Qed.

Lemma framing_note (q p : dir_path) : framing q (note p).
Proof.
  intros s r s' [= <- <-]. split; simpl; [by eexists | reflexivity].
Qed.

Lemma framing_modify (q : dir_path) (f : world -> world) :
  (forall w, vars (scope_at q (f w)) = vars (scope_at q w)) ->
  framing q (modify f).
Proof.
  intros Hf s r s' [= <- <-]. split; simpl.
  - exists []. by rewrite app_nil_r.
  - intros _. apply Hf.
Qed.

Lemma framing_update_scope (q p : dir_path) (f : scope -> scope) :
  (forall sc, vars (f sc) = vars sc) -> framing q (modify (update_scope p f)).
Proof. intros Hf. apply framing_modify. intros w. by apply vars_update_scope. Qed.

Lemma framing_when (q : dir_path) (b : bool) (m : M ()) :
  framing q m -> framing q (when b m).
Proof. intros Hm. destruct b; [exact Hm | apply framing_ret]. Qed.

Lemma framing_create_root (q out_root src_root : dir_path) :
  framing q (create_root out_root src_root).
Proof.
  intros s r s' Hrun.
  assert (Hinsert : forall p, p <> out_root ->
            scope_at p (scopes_insert out_root true (now s)) = scope_at p (now s)).
  { intros p Hp. unfold scopes_insert, update_scope. by apply scope_at_put_ne. }
  destruct (enter_operations (scope_at out_root (scopes_insert out_root true (now s))))
    as [rs1|d] eqn:Henter.
  - rewrite (create_root_run _ _ _ _ Henter) in Hrun. simpl in Hrun.
    assert (Hlog : forall w', frame q s (mk_state w' (worked_on s ++ [out_root]))
                              \/ exists p, p <> out_root /\ p = q).
    { intros w'. destruct (decide (q = out_root)) as [->|Hq]; [left|right; eauto].
      split; simpl; [by eexists|]. intros Hin. exfalso. apply Hin.
      apply elem_of_app. right. by apply list_elem_of_singleton. }
    assert (Hall : forall w',
              (forall p, p <> out_root -> scope_at p w' = scope_at p (now s)) ->
              frame q s (mk_state w' (worked_on s ++ [out_root]))).
    { intros w' Hw'. destruct (Hlog w') as [?|(p & Hp & <-)]; [assumption|].
      split; simpl; [by eexists|]. intros _. by rewrite Hw'. }
    destruct (assign_root "out_root" out_root rs1) as [rs2|d].
    + destruct (bool_decide (src_root = [])).
      * injection Hrun as <- <-. apply Hall. intros p Hp.
        rewrite !scope_at_put_ne by congruence. by apply Hinsert.
      * destruct (assign_root "src_root" src_root rs2) as [rs3|d];
          injection Hrun as <- <-; apply Hall; intros p Hp;
          rewrite !scope_at_put_ne by congruence; by apply Hinsert.
    + injection Hrun as <- <-. apply Hall. intros p Hp.
      rewrite !scope_at_put_ne by congruence. by apply Hinsert.
  - unfold create_root, mbind, M_bind, modify, note, get in Hrun. simpl in Hrun.
    rewrite Henter in Hrun. injection Hrun as <- <-.
    destruct (decide (q = out_root)) as [->|Hq].
    + split; simpl; [by eexists|]. intros Hin. exfalso. apply Hin.
      apply elem_of_app. right. by apply list_elem_of_singleton.
    + split; simpl; [by eexists|]. intros _. by rewrite Hinsert.
Qed.

Ltac framing_step :=
  first
    [ apply framing_ret
    | apply framing_fail
    | apply framing_get
    | apply framing_note
    | apply framing_create_root
    | apply framing_update_scope; intros ?; reflexivity
    | apply framing_when
    | assumption
    | apply framing_bind; [|intros ?]
    | match goal with
      | |- framing _ (match ?x with _ => _ end) => destruct x
      end ].

Ltac framing := repeat framing_step.

(** ** Calls that succeed, step by step *)




Section isolation.

Variable parse_buildfile :
  path -> scope_ref -> scope_ref -> world -> result diag (list name) * world.
Variable work : dir_path.
Variable to_dir_path : string -> dir_path.

(** What the specification expects of the parser: the buildfile is
    evaluated in the base scope, and the variables of no other scope of the
    map change. *)
Hypothesis parser_writes_base :
  forall bf root base w r w',
    parse_buildfile bf root base w = (r, w') ->
    forall q, base <> mapped q -> vars (scope_at q w') = vars (scope_at q w).















End isolation.




Example import_worked_on :
  worked_on (import quiet_parser ["/"] (fun x => [x]) 3 ["/"; "a"]
                    (whole_project "foo") (mk_state importing [])).2
  = [["/"; "foo"]; ["/"; "foo"]].
Proof. vm_compute. reflexivity. Qed.

(** ** More about create_root, sourcing and the inner and outer roots *)

Lemma put_scope_id (p : dir_path) (sc : scope) (w : world) :
  scopes w !! p = Some sc -> put_scope p sc w = w.
Proof.
  intros H. unfold put_scope. rewrite (insert_id _ _ _ H). by destruct w.
Qed.

Lemma assign_root_ok (var : string) (new : dir_path) (rs rs' : scope) :
  assign_root var new rs = Ok rs' ->
  defined rs' var = Some (dir_path_value new)
  /\ root_ rs' = root_ rs
  /\ meta_operations rs' = meta_operations rs
  /\ (forall var', var <> var' -> defined rs' var' = defined rs var')
  /\ (defined rs var = Some (dir_path_value new) -> rs' = rs).
Proof.
  unfold assign_root. destruct (defined rs var) as [v|] eqn:Hdef.
  - destruct v as [p|l]; simpl; [|discriminate].
    case_bool_decide as Hne; [discriminate|]. intros [= <-].
    assert (p = new) as -> by (destruct (decide (p = new)); [assumption|contradiction]).
    auto.
  - intros [= <-]. split; [apply defined_assign_eq|].
    split; [reflexivity|]. split; [reflexivity|].
    split; [intros var' Hne; by apply defined_assign_ne | discriminate].
Qed.

Lemma enter_operations_post (rs rs1 : scope) :
  enter_operations rs = Ok rs1 ->
  vars rs1 = vars rs /\ root_ rs1 = root_ rs /\ meta_operations rs1 <> []
  /\ (meta_operations rs <> [] -> rs1 = rs).
Proof.
  unfold enter_operations. destruct (meta_operations rs) as [|m ms] eqn:Hm.
  - destruct (table_insert "perform" []) as [ms i] eqn:Hperform.
    destruct (negb _); [discriminate|].
    destruct (table_insert "default" _) as [os1 i1].
    destruct (negb _); [discriminate|].
    destruct (table_insert "update" _) as [os2 i2].
    destruct (negb _); [discriminate|].
    destruct (table_insert "clean" _) as [os3 i3].
    destruct (negb _); [discriminate|]. intros [= <-]. simpl.
    split; [reflexivity|]. split; [reflexivity|].
    split; [|intros H; exfalso; by apply H].
    injection Hperform as <- _. discriminate.
  - intros [= <-]. rewrite Hm. repeat split. discriminate.
Qed.

(** What a successful [create_root] leaves in the scope map. *)
Lemma create_root_post (out_root src_root : dir_path) (s : state)
    (r : dir_path) (s1 : state) :
  create_root out_root src_root s = (Ok r, s1) ->
  r = out_root
  /\ worked_on s1 = worked_on s ++ [out_root]
  /\ exists rs,
       scopes (now s1) !! out_root = Some rs
       /\ root_ rs = true
       /\ meta_operations rs <> []
       /\ defined rs "out_root" = Some (dir_path_value out_root)
       /\ (src_root <> [] -> defined rs "src_root" = Some (dir_path_value src_root)).
Proof.
  destruct (enter_operations (scope_at out_root (scopes_insert out_root true (now s))))
    as [rs1|d] eqn:Henter.
  - rewrite (create_root_run _ _ _ _ Henter). cbv zeta.
    apply enter_operations_post in Henter as (_ & Hroot1 & Hmeta1 & _).
    assert (Hroot : root_ rs1 = true).
    { rewrite Hroot1. unfold scopes_insert, update_scope.
      rewrite scope_at_put_eq. simpl. apply orb_true_r. }
    destruct (assign_root "out_root" out_root rs1) as [rs2|d] eqn:H2; [|discriminate].
    apply assign_root_ok in H2 as (Hout2 & Hroot2 & Hmeta2 & Hother2 & _).
    destruct (bool_decide (src_root = [])) eqn:Hsrc.
    + apply bool_decide_eq_true in Hsrc. intros [= <- <-]. simpl.
      split; [reflexivity|]. split; [reflexivity|]. exists rs2.
      split; [apply lookup_insert_eq|]. split; [congruence|].
      split; [congruence|]. split; [exact Hout2 | contradiction].
    + destruct (assign_root "src_root" src_root rs2) as [rs3|d] eqn:H3; [|discriminate].
      apply assign_root_ok in H3 as (Hsrc3 & Hroot3 & Hmeta3 & Hother3 & _).
      intros [= <- <-]. simpl.
      split; [reflexivity|]. split; [reflexivity|]. exists rs3.
      split; [apply lookup_insert_eq|]. split; [congruence|].
      split; [congruence|].
      split; [rewrite Hother3 by discriminate; exact Hout2 | auto].
  - unfold create_root, mbind, M_bind, modify, note, get. simpl.
    rewrite Henter. discriminate.
Qed.

(** [create_root] on a scope that is set up already changes nothing. *)
Lemma create_root_settled (out_root src_root : dir_path) (w : world)
    (log : list dir_path) (rs : scope) :
  scopes w !! out_root = Some rs ->
  root_ rs = true ->
  meta_operations rs <> [] ->
  defined rs "out_root" = Some (dir_path_value out_root) ->
  (src_root <> [] -> defined rs "src_root" = Some (dir_path_value src_root)) ->
  create_root out_root src_root (mk_state w log)
  = (Ok out_root, mk_state w (log ++ [out_root])).
Proof.
  intros Hrs Hroot Hmeta Hout Hsrc.
  assert (Hat : scope_at out_root w = rs) by (unfold scope_at; by rewrite Hrs).
  assert (Hmark : mark_root true rs = rs).
  { destruct rs. simpl in *. unfold mark_root. simpl. by rewrite Hroot. }
  assert (Hw1 : scopes_insert out_root true w = w).
  { unfold scopes_insert, update_scope. rewrite Hat, Hmark. by apply put_scope_id. }
  assert (Henter : enter_operations rs = Ok rs).
  { unfold enter_operations. destruct (meta_operations rs); [contradiction|reflexivity]. }
  pose proof (create_root_run out_root src_root (mk_state w log) rs) as Hrun.
  simpl in Hrun. rewrite Hw1, Hat in Hrun. rewrite (Hrun Henter).
  assert (H2 : assign_root "out_root" out_root rs = Ok rs).
  { unfold assign_root. rewrite Hout. simpl.
    rewrite bool_decide_eq_false_2; [reflexivity|]. intros H. by apply H. }
  rewrite H2. rewrite !(put_scope_id _ _ _ Hrs).
  case_bool_decide as Hnil; [reflexivity|].
  assert (H3 : assign_root "src_root" src_root rs = Ok rs).
  { unfold assign_root. rewrite (Hsrc Hnil). simpl.
    rewrite bool_decide_eq_false_2; [reflexivity|]. intros H. by apply H. }
  rewrite H3. by rewrite (put_scope_id _ _ _ Hrs).
Qed.

(** X16.  [create_root] is idempotent: after a call that succeeded, the
    same call, and the call with the same [out_root] and no [src_root],
    succeed and leave every scope as it is; the scope returned is the one
    at [out_root], and it is its own root scope. *)
Theorem create_root_idempotent (out_root src_root : dir_path) (s : state)
    (r : dir_path) (s1 : state) :
  create_root out_root src_root s = (Ok r, s1) ->
  r = out_root
  /\ create_root out_root src_root s1
     = (Ok out_root, mk_state (now s1) (worked_on s1 ++ [out_root]))
  /\ create_root out_root [] s1
     = (Ok out_root, mk_state (now s1) (worked_on s1 ++ [out_root]))
  /\ root_scope out_root (now s1) = Some out_root.
Proof.
  intros H. apply create_root_post in H
    as (-> & _ & rs & Hrs & Hroot & Hmeta & Hout & Hsrc).
  split; [reflexivity|].
  destruct s1 as [w1 log1]. simpl in *.
  split; [by eapply create_root_settled|].
  split; [eapply create_root_settled; eauto; intros Hn; contradiction|].
  unfold root_scope. simpl. unfold in_map, scope_at. rewrite Hrs.
  rewrite bool_decide_eq_true_2 by (eexists; reflexivity).
  simpl. by rewrite Hroot.
Qed.

Section once.

Variable parse_buildfile :
  path -> scope_ref -> scope_ref -> world -> result diag (list name) * world.

(** The parser does not take back the record of what was sourced. *)
Hypothesis parser_keeps_buildfiles :
  forall bf root base w r w',
    parse_buildfile bf root base w = (r, w') ->
    forall p bf', bf' ∈ buildfiles (scope_at p w) -> bf' ∈ buildfiles (scope_at p w').

(** X17.  With a parser that does not take back what a scope has recorded
    as sourced, every call of [source_once] leaves the buildfile recorded
    in the [once] scope, whether it succeeded or failed, so every later
    call for that buildfile and scope does nothing and succeeds; a first
    call for a buildfile that does not exist fails with unable-to-open
    (and is not tried again). *)
Theorem source_once_at_most_once (bf : path) (root base root' base' : scope_ref)
    (once : dir_path) (s : state) (r : result diag ()) (s1 : state) :
  source_once parse_buildfile bf root base once s = (r, s1) ->
  bf ∈ buildfiles (scope_at once (now s1))
  /\ source_once parse_buildfile bf root' base' once s1 = (Ok (), s1)
  /\ (bf ∉ buildfiles (scope_at once (now s)) -> file_exists bf (now s) = false ->
      r = Fail (unable_to_open bf)).
Proof.
  intros H.
  assert (Hin : bf ∈ buildfiles (scope_at once (now s1))
                /\ (bf ∉ buildfiles (scope_at once (now s)) ->
                    file_exists bf (now s) = false ->
                    r = Fail (unable_to_open bf))).
  { revert H. unfold source_once, mbind, M_bind, get.
    case_bool_decide as Hseen.
    - intros [= <- <-]. split; [exact Hseen | contradiction].
    - unfold modify. cbn [now worked_on].
      assert (Hadded : bf ∈ buildfiles
                (scope_at once (update_scope once (add_buildfile bf) (now s)))).
      { unfold update_scope. rewrite scope_at_put_eq. simpl.
        apply elem_of_union. left. by apply elem_of_singleton. }
      unfold source, mbind, M_bind, get. cbn [now worked_on].
      assert (Hfs : file_exists bf (update_scope once (add_buildfile bf) (now s))
                    = file_exists bf (now s)) by reflexivity.
      rewrite Hfs.
      destruct (file_exists bf (now s)) eqn:Hex; simpl.
      + unfold run_parser.
        destruct (note_ref base _) as [[[]|d] s2] eqn:Hnote.
        * assert (now s2 = update_scope once (add_buildfile bf) (now s)) as Hs2.
          { destruct base; simpl in Hnote; injection Hnote as <-; reflexivity. }
          destruct (parse_buildfile bf root base (now s2)) as [r0 w'] eqn:Hp.
          rewrite Hs2 in Hp.
          destruct r0 as [v|d]; intros [= <- <-]; simpl;
            (split; [by eapply parser_keeps_buildfiles | discriminate]).
        * destruct base; simpl in Hnote; discriminate.
      + intros [= <- <-]. split; [exact Hadded | auto]. }
  split; [apply Hin|]. split; [|apply Hin].
  unfold source_once, mbind, M_bind, get.
  by rewrite bool_decide_eq_true_2 by apply Hin.
Qed.

End once.

Section cached.

Variable work : dir_path.
Variable to_dir_path : string -> dir_path.

(** X18.  Once [import] has worked out the [out_root] of a project from
    [config.<project>] in a root scope other than the global one, working
    it out again gives the same directory and changes nothing.  The first
    time either nothing changes, or the value came from the global scope
    and the only change is the directory assigned to [config.<project>] in
    the importing root scope. *)
Theorem find_out_root_cached (iroot : dir_path) (project : string) (s : state)
    (out_root : dir_path) (s1 : state) :
  iroot <> global_scope ->
  find_out_root work to_dir_path iroot project s = (Ok out_root, s1) ->
  find_out_root work to_dir_path iroot project s1 = (Ok out_root, s1)
  /\ (now s1 = now s
      \/ (exists l, lookup iroot ("config." +:+ project) (now s)
                    = Some (global_scope, Some (list_value l)))
         /\ now s1 = update_scope iroot
                       (assign ("config." +:+ project) (dir_path_value out_root))
                       (now s)).
Proof.
  intros Hglobal. unfold find_out_root at 1.
  unfold mbind, M_bind, get, modify, fail, mret, M_ret. cbn [now worked_on].
  destruct (lookup iroot ("config." +:+ project) (now s)) as [[found [v|]]|] eqn:Hlook;
    try discriminate.
  destruct (negb (bool_decide (found = global_scope))) eqn:Hfound.
  - destruct (as_dir_path v) as [p|] eqn:Hv; [|discriminate].
    intros [= <- <-]. split; [|by left].
    unfold find_out_root, mbind, M_bind, get, mret, M_ret. cbn [now worked_on].
    by rewrite Hlook, Hfound, Hv.
  - apply negb_false_iff, bool_decide_eq_true in Hfound. subst found.
    destruct (as_list_value v) as [lv|] eqn:Hlv; [|discriminate].
    destruct v as [|l]; [discriminate|]. injection Hlv as ->.
    case_bool_decide as Hempty; [discriminate|].
    intros [= <- <-]. cbn [now worked_on]. split; [|right; eauto].
    set (out := normalize _).
    set (w' := update_scope iroot (assign ("config." +:+ project) (dir_path_value out))
                            (now s)).
    assert (Hlook' : lookup iroot ("config." +:+ project) w'
                     = Some (iroot, Some (dir_path_value out))).
    { unfold lookup. cbn [List.find].
      assert (Hvars : vars (scope_at iroot w') !! ("config." +:+ project)
                      = Some (Some (dir_path_value out))).
      { unfold w', update_scope. rewrite scope_at_put_eq. simpl.
        apply lookup_insert_eq. }
      assert (Hmap : in_map w' iroot = true).
      { unfold in_map, w', update_scope, put_scope. simpl.
        rewrite lookup_insert_eq. apply bool_decide_eq_true. by eexists. }
      rewrite Hmap.
      rewrite (bool_decide_eq_true_2
                 (is_Some (vars (scope_at iroot w') !! ("config." +:+ project))))
        by (rewrite Hvars; by eexists).
      cbn [andb]. by rewrite Hvars. }
    unfold find_out_root, mbind, M_bind, get, mret, M_ret. cbn [now worked_on].
    rewrite Hlook'.
    rewrite (bool_decide_eq_false_2 (iroot = global_scope)) by exact Hglobal.
    reflexivity.
Qed.

End cached.

(** ** Calls that do not run out of fuel *)

Lemma fuelled_ret {A : Type} (a : A) : fuelled (mret a).
Proof. intros s. discriminate. Qed.

Lemma fuelled_fail {A : Type} (d : diag) : d <> out_of_fuel -> fuelled (@fail A d).
Proof. intros Hd s. simpl. congruence. Qed.

Lemma fuelled_get : fuelled get.
Proof. intros s. discriminate. Qed.

Lemma fuelled_modify (f : world -> world) : fuelled (modify f).
Proof. intros s. discriminate. Qed.

Lemma fuelled_note (p : dir_path) : fuelled (note p).
Proof. intros s. discriminate. Qed.

Lemma fuelled_bind {A B : Type} (m : M A) (k : A -> M B) :
  fuelled m -> (forall a, fuelled (k a)) -> fuelled (m ≫= k).
Proof.
  intros Hm Hk s. unfold mbind, M_bind. specialize (Hm s).
  destruct (m s) as [[a|d] s1]; [apply Hk | simpl in *; congruence].
Qed.

Lemma fuelled_when (b : bool) (m : M ()) : fuelled m -> fuelled (when b m).
Proof. intros Hm. destruct b; [exact Hm | apply fuelled_ret]. Qed.

Lemma enter_operations_fuelled (rs : scope) (d : diag) :
  enter_operations rs = Fail d -> d <> out_of_fuel.
Proof.
  unfold enter_operations. destruct (meta_operations rs); [|discriminate].
  destruct (table_insert "perform" []) as [ms i].
  destruct (negb _); [by intros [= <-]|].
  destruct (table_insert "default" _) as [os1 i1].
  destruct (negb _); [by intros [= <-]|].
  destruct (table_insert "update" _) as [os2 i2].
  destruct (negb _); [by intros [= <-]|].
  destruct (table_insert "clean" _) as [os3 i3].
  destruct (negb _); [by intros [= <-] | discriminate].
Qed.

Lemma assign_root_fuelled (var : string) (new : dir_path) (rs : scope) (d : diag) :
  assign_root var new rs = Fail d -> d <> out_of_fuel.
Proof.
  unfold assign_root. destruct (defined rs var) as [v|]; [|discriminate].
  destruct (as_dir_path v) as [p|]; [|by intros [= <-]].
  destruct (bool_decide (p <> new)); [by intros [= <-] | discriminate].
Qed.

Ltac fuelled_step :=
  first
    [ apply fuelled_ret
    | apply fuelled_get
    | apply fuelled_modify
    | apply fuelled_note
    | apply fuelled_when
    | assumption
    | apply fuelled_fail;
      first [ discriminate
            | by eapply enter_operations_fuelled
            | by eapply assign_root_fuelled ]
    | apply fuelled_bind; [|intros ?]
    | match goal with
      | |- fuelled (match ?x with _ => _ end) => destruct x eqn:?
      end ].

Ltac fuelled := repeat fuelled_step.

Lemma fuelled_create_root (out_root src_root : dir_path) :
  fuelled (create_root out_root src_root).
Proof. unfold create_root. fuelled. Qed.

Lemma fuelled_src_path (root : dir_path) : fuelled (src_path root).
Proof. unfold src_path. fuelled. Qed.

Lemma fuelled_src_root_of (rs : dir_path) : fuelled (src_root_of rs).
Proof. unfold src_root_of. fuelled. Qed.

Section fuel.

Variable parse_buildfile :
  path -> scope_ref -> scope_ref -> world -> result diag (list name) * world.

(** The fuel is the model's: no parser fails for want of it. *)
Hypothesis parser_fuelled :
  forall bf root base w, (parse_buildfile bf root base w).1 <> Fail out_of_fuel.

Lemma fuelled_run_parser (bf : path) (root base : scope_ref) :
  fuelled (run_parser parse_buildfile bf root base).
Proof.
  intros s. unfold run_parser.
  pose proof (parser_fuelled bf root base (now s)) as H.
  by destruct (parse_buildfile bf root base (now s)).
Qed.

Lemma fuelled_source (bf : path) (root base : scope_ref) :
  fuelled (source parse_buildfile bf root base).
Proof.
  pose proof (fuelled_run_parser bf root base).
  unfold source, note_ref. fuelled.
Qed.

Lemma fuelled_source_once (bf : path) (root base : scope_ref) (once : dir_path) :
  fuelled (source_once parse_buildfile bf root base once).
Proof.
  pose proof (fuelled_source bf root base). unfold source_once. fuelled.
Qed.

Lemma fuelled_bootstrap_out (root : dir_path) :
  fuelled (bootstrap_out parse_buildfile root).
Proof.
  pose proof (fuelled_source_once
                (root ++ ["build"; "bootstrap"; "src-root.build"])
                (mapped root) (mapped root) root).
  unfold bootstrap_out. fuelled.
Qed.

Lemma fuelled_bootstrap_src (root : dir_path) :
  fuelled (bootstrap_src parse_buildfile root).
Proof.
  pose proof (fuelled_src_path root).
  unfold bootstrap_src. apply fuelled_bind; [assumption|]. intros sp.
  apply fuelled_bind; [apply fuelled_get|]. intros w.
  destruct (negb _); [apply fuelled_ret|].
  apply fuelled_bind; [apply fuelled_source_once | intros ?; apply fuelled_ret].
Qed.

End fuel.

Lemma lift_fuelled {A : Type} (m : M A) (s : state) :
  fuelled m -> (lift_diag m s).1 <> Fail (loader_failure out_of_fuel).
Proof.
  intros Hm. unfold lift_diag. specialize (Hm s).
  destruct (m s) as [[a|d] s1]; simpl in *; congruence.
Qed.

Section inner_facts.

Variable parse_buildfile :
  path -> scope_ref -> scope_ref -> world -> result diag (list name) * world.

Lemma lift_create_root (out_root src_root : dir_path) (s : state)
    (rs : dir_path) (s' : state) :
  lift_diag (create_root out_root src_root) s = (Ok rs, s') -> rs = out_root.
Proof.
  unfold lift_diag.
  destruct (create_root out_root src_root s) as [[r|d] s1] eqn:H; [|discriminate].
  intros [= <- <-]. by apply create_root_post in H as [-> _].
Qed.

(** What the loop over the subprojects comes to: the root itself, or the
    inner call on the first subproject that holds [out_base]. *)
Lemma subprojects_loop_result (inner : dir_path -> MI dir_path)
    (root out_base : dir_path) (l : list name) (s : state)
    (r : dir_path) (s' : state) :
  subprojects_loop parse_buildfile inner root out_base l s = (Ok r, s') ->
  (r = root /\ s' = s)
  \/ exists n s1,
       n ∈ l /\ dir n <> [] /\ (root ++ dir n) `prefix_of` out_base
       /\ inner (root ++ dir n) s1 = (Ok r, s').
Proof.
  induction l as [|n l IH]; simpl.
  - intros [= <- <-]. by left.
  - destruct (_ || bool_decide (dir n = [])) eqn:Hdir; [discriminate|].
    apply orb_false_iff in Hdir as [_ Hdir]. apply bool_decide_eq_false in Hdir.
    destruct (negb (sub out_base (root ++ dir n))) eqn:Hsub.
    + intros H. destruct (IH H) as [?|(n' & s1 & Hn' & ?)]; [by left|].
      right. exists n', s1. split; [by right | assumption].
    + apply negb_false_iff, bool_decide_eq_true in Hsub.
      unfold mbind, MI_bind.
      destruct (lift_diag (src_path root) s) as [[sp|d] s1]; [|discriminate].
      destruct (lift_diag (create_root _ _) s1) as [[rs|d] s2] eqn:Hcreate;
        [|discriminate].
      apply lift_create_root in Hcreate. subst rs.
      destruct (lift_diag (bootstrap_out parse_buildfile _) s2) as [[[]|d] s3];
        [|discriminate].
      destruct (lift_diag (src_root_of _) s3) as [[p|d] s4]; [|discriminate].
      destruct (bool_decide (sp ++ dir n <> p)).
      { unfold lift_diag, fail. discriminate. }
      destruct (lift_diag (modify _) s4) as [[[]|d] s5]; [|discriminate].
      destruct (lift_diag (bootstrap_src parse_buildfile _) s5) as [[b|d] s6];
        [|discriminate].
      intros H. right. exists n, s6.
      split; [by left|]. split; [exact Hdir|]. split; [exact Hsub | exact H].
Qed.

(** The names of the [subprojects] value the loop passes over: directories
    that do not hold [out_base]. *)
Lemma subprojects_loop_skip (inner : dir_path -> MI dir_path)
    (root out_base : dir_path) (l1 l2 : list name) (s : state) :
  (forall m, m ∈ l1 ->
     type m = "" /\ value m = "" /\ dir m <> []
     /\ ~ (root ++ dir m) `prefix_of` out_base) ->
  subprojects_loop parse_buildfile inner root out_base (l1 ++ l2) s
  = subprojects_loop parse_buildfile inner root out_base l2 s.
Proof.
  induction l1 as [|m l1 IH]; intros Hskip; simpl; [reflexivity|].
  destruct (Hskip m) as (Ht & Hv & Hd & Hsub); [constructor|].
  rewrite Ht, Hv. simpl.
  rewrite bool_decide_eq_false_2 by exact Hd. simpl.
  unfold sub. rewrite bool_decide_eq_false_2 by exact Hsub. simpl.
  apply IH. intros m' Hm'. apply Hskip. by constructor.
Qed.

Lemma create_bootstrap_inner_under (fuel : nat) (root out_base : dir_path)
    (s : state) (rs : dir_path) (s' : state) :
  create_bootstrap_inner parse_buildfile fuel root out_base s = (Ok rs, s') ->
  root `prefix_of` rs
  /\ ((rs = root /\ s' = s) \/ (rs <> root /\ rs `prefix_of` out_base)).
Proof.
  revert root s; induction fuel as [|fuel IH]; intros root s; simpl.
  - unfold lift_diag, fail. discriminate.
  - unfold mbind at 1, MI_bind at 1, lift_diag at 1, get at 1.
    destruct (defined (scope_at root (now s)) "subprojects") as [v|].
    + destruct (as_list_value v) as [l|]; [|unfold lift_diag, fail; discriminate].
      intros H. apply subprojects_loop_result in H
        as [[-> ->]|(n & s1 & _ & Hdir & Hsub & Hinner)].
      * split; [reflexivity | by left].
      * apply IH in Hinner as [Hpre Hcase].
        assert (Hroot : root `prefix_of` rs).
        { etrans; [|exact Hpre]. by apply prefix_app_r. }
        split; [exact Hroot|]. right.
        assert (Hlen : length root < length rs).
        { apply prefix_length in Hpre. rewrite length_app in Hpre.
          destruct (dir n); [contradiction | simpl in Hpre; lia]. }
        split; [intros ->; lia|].
        destruct Hcase as [[-> _]|[_ ?]]; assumption.
    + intros [= <- <-]. split; [reflexivity | by left].
Qed.

(** X19.  [create_bootstrap_inner] goes through the names of the
    [subprojects] value of [root] in order.  With no such value, or with
    every name a directory that does not hold [out_base], it returns [root]
    and changes nothing.  A name that is not a directory only, met before
    any subproject that holds [out_base], makes it fail with the
    expected-directory diagnostic.  At the first subproject that holds
    [out_base] it descends: what it returns then is what the call for that
    subproject returns, a scope at or under the subproject (so not [root])
    that holds [out_base].  Whatever it returns is [root] or lies under
    it. *)
Theorem create_bootstrap_inner_contains (fuel : nat) (root out_base : dir_path)
    (s : state) :
  let skipped (m : name) :=
    type m = "" /\ value m = "" /\ dir m <> []
    /\ ~ (root ++ dir m) `prefix_of` out_base in
  let run := create_bootstrap_inner parse_buildfile (S fuel) root out_base s in
  (defined (scope_at root (now s)) "subprojects" = None -> run = (Ok root, s))
  /\ (forall l,
        defined (scope_at root (now s)) "subprojects" = Some (list_value l) ->
        ((forall m, m ∈ l -> skipped m) -> run = (Ok root, s))
        /\ (forall l1 n l2,
              l = l1 ++ n :: l2 ->
              (forall m, m ∈ l1 -> skipped m) ->
              (type n <> "" \/ value n <> "" \/ dir n = [] ->
               run = (Fail (expected_directory n), s))
              /\ (type n = "" -> value n = "" -> dir n <> [] ->
                  (root ++ dir n) `prefix_of` out_base ->
                  forall rs s',
                    run = (Ok rs, s') ->
                    (root ++ dir n) `prefix_of` rs
                    /\ rs `prefix_of` out_base
                    /\ rs <> root
                    /\ exists s1,
                         create_bootstrap_inner parse_buildfile fuel
                           (root ++ dir n) out_base s1 = (Ok rs, s'))))
  /\ (forall rs s',
        run = (Ok rs, s') ->
        root `prefix_of` rs
        /\ ((rs = root /\ s' = s) \/ (rs <> root /\ rs `prefix_of` out_base))).
Proof.
  intros skipped run. split; [|split].
  - intros Hnone. subst run. simpl.
    unfold mbind, MI_bind, lift_diag, get. by rewrite Hnone.
  - intros l Hl.
    assert (Hrun : run = subprojects_loop parse_buildfile
                           (fun rs => create_bootstrap_inner parse_buildfile fuel
                                        rs out_base)
                           root out_base l s).
    { subst run. simpl. unfold mbind, MI_bind, lift_diag, get. by rewrite Hl. }
    split.
    + intros Hall. rewrite Hrun. rewrite <- (app_nil_r l).
      by rewrite subprojects_loop_skip.
    + intros l1 n l2 -> Hskip. rewrite Hrun.
      rewrite subprojects_loop_skip by exact Hskip. split.
      * intros Hn. simpl.
        assert (negb (String.eqb (type n) "") || negb (String.eqb (value n) "")
                || bool_decide (dir n = []) = true) as ->; [|reflexivity].
        destruct Hn as [Hn|[Hn|Hn]].
        -- apply String.eqb_neq in Hn. by rewrite Hn.
        -- apply String.eqb_neq in Hn. rewrite Hn. simpl.
           by rewrite orb_true_r.
        -- rewrite (bool_decide_eq_true_2 _ Hn). apply orb_true_r.
      * intros Ht Hv Hd Hsub rs s'. simpl. rewrite Ht, Hv. simpl.
        rewrite bool_decide_eq_false_2 by exact Hd. simpl.
        unfold sub. rewrite bool_decide_eq_true_2 by exact Hsub. simpl.
        unfold mbind, MI_bind.
        destruct (lift_diag (src_path root) s) as [[sp|d] s1]; [|discriminate].
        destruct (lift_diag (create_root _ _) s1) as [[r0|d] s2] eqn:Hcreate;
          [|discriminate].
        apply lift_create_root in Hcreate. subst r0.
        destruct (lift_diag (bootstrap_out parse_buildfile _) s2) as [[[]|d] s3];
          [|discriminate].
        destruct (lift_diag (src_root_of _) s3) as [[p|d] s4]; [|discriminate].
        destruct (bool_decide (sp ++ dir n <> p)).
        { unfold lift_diag, fail. discriminate. }
        destruct (lift_diag (modify _) s4) as [[[]|d] s5]; [|discriminate].
        destruct (lift_diag (bootstrap_src parse_buildfile _) s5) as [[b|d] s6];
          [|discriminate].
        intros Hinner.
        pose proof (create_bootstrap_inner_under _ _ _ _ _ _ Hinner) as [Hpre Hcase].
        split; [exact Hpre|]. split.
        { destruct Hcase as [[-> _]|[_ ?]]; assumption. }
        split; [|by exists s6].
        intros ->. apply prefix_length in Hpre. rewrite length_app in Hpre.
        destruct (dir n); [contradiction | simpl in Hpre; lia].
  - intros rs s'. apply create_bootstrap_inner_under.
Qed.

Lemma subprojects_loop_ext (inner1 inner2 : dir_path -> MI dir_path)
    (root out_base : dir_path) (l : list name) (s : state) :
  (forall rs s1, length root < length rs -> rs `prefix_of` out_base ->
     inner1 rs s1 = inner2 rs s1) ->
  subprojects_loop parse_buildfile inner1 root out_base l s
  = subprojects_loop parse_buildfile inner2 root out_base l s.
Proof.
  intros Hsame. induction l as [|n l IH]; simpl; [reflexivity|].
  destruct (_ || bool_decide (dir n = [])) eqn:Hdir; [reflexivity|].
  apply orb_false_iff in Hdir as [_ Hdir]. apply bool_decide_eq_false in Hdir.
  destruct (negb (sub out_base (root ++ dir n))) eqn:Hsub; [exact IH|].
  apply negb_false_iff, bool_decide_eq_true in Hsub.
  unfold mbind, MI_bind.
  destruct (lift_diag (src_path root) s) as [[sp|d] s1]; [|reflexivity].
  destruct (lift_diag (create_root _ _) s1) as [[rs|d] s2] eqn:Hcreate;
    [|reflexivity].
  apply lift_create_root in Hcreate. subst rs.
  destruct (lift_diag (bootstrap_out parse_buildfile _) s2) as [[[]|d] s3];
    [|reflexivity].
  destruct (lift_diag (src_root_of _) s3) as [[p|d] s4]; [|reflexivity].
  destruct (bool_decide (sp ++ dir n <> p)); [reflexivity|].
  destruct (lift_diag (modify _) s4) as [[[]|d] s5]; [|reflexivity].
  destruct (lift_diag (bootstrap_src parse_buildfile _) s5) as [[b|d] s6];
    [|reflexivity].
  apply Hsame; [|exact Hsub].
  rewrite length_app. destruct (dir n); [contradiction | simpl; lia].
Qed.

(** The parser, as any code, has no way to run out of the fuel of the
    model. *)
Hypothesis parser_fuelled :
  forall bf root base w, (parse_buildfile bf root base w).1 <> Fail out_of_fuel.

Lemma subprojects_loop_fuelled (inner : dir_path -> MI dir_path)
    (root out_base : dir_path) (l : list name) (s : state) :
  (forall rs s1, length root < length rs -> rs `prefix_of` out_base ->
     (inner rs s1).1 <> Fail (loader_failure out_of_fuel)) ->
  (subprojects_loop parse_buildfile inner root out_base l s).1
  <> Fail (loader_failure out_of_fuel).
Proof.
  intros Hinner. induction l as [|n l IH]; simpl; [discriminate|].
  destruct (_ || bool_decide (dir n = [])) eqn:Hdir; [discriminate|].
  apply orb_false_iff in Hdir as [_ Hdir]. apply bool_decide_eq_false in Hdir.
  destruct (negb (sub out_base (root ++ dir n))) eqn:Hsub; [exact IH|].
  apply negb_false_iff, bool_decide_eq_true in Hsub.
  unfold mbind, MI_bind.
  pose proof (lift_fuelled _ s (fuelled_src_path root)) as H1.
  destruct (lift_diag (src_path root) s) as [[sp|d] s1]; [|simpl in *; congruence].
  pose proof (lift_fuelled _ s1 (fuelled_create_root (root ++ dir n) (sp ++ dir n)))
    as H2.
  destruct (lift_diag (create_root _ _) s1) as [[rs|d] s2] eqn:Hcreate; [|simpl in *; congruence].
  apply lift_create_root in Hcreate. subst rs.
  pose proof (lift_fuelled _ s2
                (fuelled_bootstrap_out parse_buildfile parser_fuelled (root ++ dir n)))
    as H3.
  destruct (lift_diag (bootstrap_out parse_buildfile _) s2) as [[[]|d] s3];
    [|simpl in *; congruence].
  pose proof (lift_fuelled _ s3 (fuelled_src_root_of (root ++ dir n))) as H4.
  destruct (lift_diag (src_root_of _) s3) as [[p|d] s4]; [|simpl in *; congruence].
  destruct (bool_decide (sp ++ dir n <> p)).
  { unfold lift_diag, fail. discriminate. }
  destruct (lift_diag (modify _) s4) as [[[]|d] s5] eqn:H5.
  2:{ unfold lift_diag, modify in H5. discriminate. }
  pose proof (lift_fuelled _ s5
                (fuelled_bootstrap_src parse_buildfile parser_fuelled (root ++ dir n)))
    as H6.
  destruct (lift_diag (bootstrap_src parse_buildfile _) s5) as [[b|d] s6];
    [|simpl in *; congruence].
  apply Hinner; [|exact Hsub].
  rewrite length_app. destruct (dir n); [contradiction | simpl; lia].
Qed.

(** X20.  [create_bootstrap_inner] terminates: every subproject it
    descends into is a longer path that still holds [out_base], so the
    depth of the recursion is at most the number of components [out_base]
    has more than [root], plus one.  With any fuel above that number (so
    with any fuel above the length of [out_base]) the call does not run out
    of fuel: it returns a scope or fails with a diagnostic of the code, and
    the result is the same for all such amounts of fuel. *)
Theorem create_bootstrap_inner_terminates (fuel1 fuel2 : nat)
    (root out_base : dir_path) (s : state) :
  length out_base - length root < fuel1 ->
  length out_base - length root < fuel2 ->
  (create_bootstrap_inner parse_buildfile fuel1 root out_base s).1
  <> Fail (loader_failure out_of_fuel)
  /\ create_bootstrap_inner parse_buildfile fuel1 root out_base s
     = create_bootstrap_inner parse_buildfile fuel2 root out_base s.
Proof.
  intros H1 H2. split.
  - clear fuel2 H2. revert root s H1.
    induction fuel1 as [|n IH]; intros root s Hn; [lia|]. simpl.
    unfold mbind at 1, MI_bind at 1, lift_diag at 1, get at 1.
    destruct (defined (scope_at root (now s)) "subprojects") as [v|]; [|discriminate].
    destruct (as_list_value v) as [l|]; [|discriminate].
    apply subprojects_loop_fuelled. intros rs s1 Hlen Hpre.
    apply IH. apply prefix_length in Hpre. lia.
  - revert fuel2 root s H1 H2.
    induction fuel1 as [|n IH]; intros m root s Hn Hm; [lia|].
    destruct m as [|m]; [lia|]. simpl.
    unfold mbind, MI_bind, lift_diag, get.
    destruct (defined (scope_at root (now s)) "subprojects") as [v|]; [|reflexivity].
    destruct (as_list_value v) as [l|]; [|reflexivity].
    apply subprojects_loop_ext. intros rs s1 Hlen Hpre.
    apply prefix_length in Hpre. apply IH; lia.
Qed.

End inner_facts.

Lemma outer_paths_shorter (p q : dir_path) :
  In q (outer_paths p) -> length q < length p.
Proof.
  unfold outer_paths. rewrite in_map_iff. intros (n & <- & Hn).
  apply in_rev, in_seq in Hn. rewrite length_take. lia.
Qed.

Lemma parent_scope_shorter (p q : dir_path) (w : world) :
  parent_scope p w = Some q -> length q < length p.
Proof.
  unfold parent_scope. intros H. apply find_some in H as [H _].
  by apply outer_paths_shorter.
Qed.

Lemma root_scope_not_longer (p q : dir_path) (w : world) :
  root_scope p w = Some q -> length q <= length p.
Proof.
  unfold root_scope. intros H. apply find_some in H as [[<-|H] _]; [lia|].
  apply outer_paths_shorter in H. lia.
Qed.

Lemma outer_root_shorter (root rs : dir_path) (w : world) :
  parent_scope root w ≫= (fun p => root_scope p w) = Some rs ->
  length rs < length root.
Proof.
  destruct (parent_scope root w) as [p|] eqn:Hp; simpl; [|discriminate].
  intros Hrs. apply parent_scope_shorter in Hp.
  apply root_scope_not_longer in Hrs. lia.
Qed.

Lemma root_chain_bound (fuel : nat) (root : dir_path) (w : world) (q : dir_path) :
  q ∈ root_chain fuel root w -> length q <= length root.
Proof.
  revert root; induction fuel as [|fuel IH]; intros root; simpl.
  - intros H. by apply elem_of_nil in H.
  - intros H. apply elem_of_app in H as [H|H].
    + destruct (parent_scope root w ≫= (fun p => root_scope p w)) as [rs|] eqn:Hrs;
        [|by apply elem_of_nil in H].
      apply IH in H. apply outer_root_shorter in Hrs. lia.
    + apply list_elem_of_singleton in H. by subst q.
Qed.

Lemma root_chain_increasing (fuel : nat) (root : dir_path) (w : world)
    (i j : nat) (p q : dir_path) :
  root_chain fuel root w !! i = Some p ->
  root_chain fuel root w !! j = Some q ->
  i < j -> length p < length q.
Proof.
  revert root i j p q; induction fuel as [|fuel IH]; intros root i j p q; simpl.
  - intros H. discriminate H.
  - set (outer := match parent_scope root w ≫= (fun p => root_scope p w) with
                  | Some rs => root_chain fuel rs w
                  | None => []
                  end).
    intros Hi Hj Hlt.
    assert (Hbound : forall x, x ∈ outer -> length x < length root).
    { intros x Hx. subst outer.
      destruct (parent_scope root w ≫= (fun p => root_scope p w)) as [rs|] eqn:Hrs;
        [|by apply elem_of_nil in Hx].
      apply root_chain_bound in Hx. apply outer_root_shorter in Hrs. lia. }
    apply lookup_app_Some in Hj as [Hj|[Hlen Hj]].
    + assert (Hi' : outer !! i = Some p).
      { apply lookup_lt_Some in Hj.
        rewrite lookup_app_l in Hi by lia. exact Hi. }
      subst outer.
      destruct (parent_scope root w ≫= (fun p => root_scope p w)) as [rs|];
        [by eapply IH | discriminate Hj].
    + apply list_lookup_singleton_Some in Hj as [Hj <-].
      rewrite lookup_app_l in Hi by lia.
      apply Hbound. by eapply list_elem_of_lookup_2.
Qed.

Section root_pre.

Variable parse_buildfile :
  path -> scope_ref -> scope_ref -> world -> result diag (list name) * world.

Lemma source_once_log (bf : path) (root : scope_ref) (base once : dir_path)
    (s : state) (r : result diag ()) (s' : state) :
  source_once parse_buildfile bf root (mapped base) once s = (r, s') ->
  worked_on s' = worked_on s \/ worked_on s' = worked_on s ++ [base].
Proof.
  unfold source_once, mbind, M_bind, get.
  case_bool_decide; [intros [= <- <-]; by left|].
  unfold modify, source, mbind, M_bind, get. cbn [now worked_on].
  destruct (negb (file_exists bf _)); [intros [= <- <-]; by left|].
  unfold note_ref, note, run_parser. cbn [now worked_on].
  destruct (parse_buildfile bf root (mapped base) _) as [[v|d] w'];
    intros [= <- <-]; by right.
Qed.

(** X21.  [load_root_pre] terminates: the outer root of a root is a
    shorter path, so the depth of the recursion is at most the length of
    the path of [root].  With any fuel above that length the call does not
    run out of fuel (it succeeds or fails with a diagnostic of the code,
    given a parser that does), and the result is the same for all such
    amounts of fuel. *)
Theorem load_root_pre_terminates (fuel1 fuel2 : nat) (root : dir_path) (s : state) :
  (forall bf root base w, (parse_buildfile bf root base w).1 <> Fail out_of_fuel) ->
  length root < fuel1 -> length root < fuel2 ->
  (load_root_pre parse_buildfile fuel1 root s).1 <> Fail out_of_fuel
  /\ load_root_pre parse_buildfile fuel1 root s
     = load_root_pre parse_buildfile fuel2 root s.
Proof.
  intros Hparser H1 H2. split.
  - clear fuel2 H2. revert root s H1.
    induction fuel1 as [|n IH]; intros root s Hn; [lia|]. simpl.
    unfold mbind at 1, M_bind at 1, get at 1.
    unfold mbind at 1, M_bind at 1.
    destruct (parent_scope root (now s) ≫= (fun p => root_scope p (now s)))
      as [rs|] eqn:Hrs.
    + apply outer_root_shorter in Hrs.
      assert (Hlt : length rs < n) by lia.
      pose proof (IH rs s Hlt) as Hout.
      destruct (load_root_pre parse_buildfile n rs s) as [[[]|d] s1];
        [|simpl in *; congruence].
      apply fuelled_bind; [apply fuelled_src_path|]. intros sp.
      apply fuelled_bind; [apply fuelled_get|]. intros w1.
      by apply fuelled_when, fuelled_source_once.
    + unfold mret at 1, M_ret at 1.
      apply fuelled_bind; [apply fuelled_src_path|]. intros sp.
      apply fuelled_bind; [apply fuelled_get|]. intros w1.
      by apply fuelled_when, fuelled_source_once.
  - revert fuel2 root s H1 H2.
    induction fuel1 as [|n IH]; intros m root s Hn Hm; [lia|].
    destruct m as [|m]; [lia|]. simpl.
    unfold mbind, M_bind, get.
    destruct (option_bind _ _ _ (parent_scope root (now s))) as [rs|] eqn:Hrs;
      [|reflexivity].
    change (parent_scope root (now s) ≫= (fun p => root_scope p (now s)) = Some rs)
      in Hrs.
    apply outer_root_shorter in Hrs.
    rewrite (IH m rs s) by lia. reflexivity.
Qed.

(** X22.  [load_root_pre] evaluates buildfiles only in the scopes of
    [root] and of its outer roots as they are when it is called, and the
    outer ones first: the scopes it has evaluated a buildfile in are, in
    that order, some of the root scopes from the outermost one down to
    [root], which are pairwise distinct (each a longer path than the one
    before), so none is gone through twice. *)
Theorem load_root_pre_outer_first (fuel : nat) (root : dir_path) (s : state)
    (r : result diag ()) (s' : state) :
  load_root_pre parse_buildfile fuel root s = (r, s') ->
  exists l,
    worked_on s' = worked_on s ++ l
    /\ l `sublist_of` root_chain fuel root (now s)
    /\ (forall i j p q,
          root_chain fuel root (now s) !! i = Some p ->
          root_chain fuel root (now s) !! j = Some q ->
          i < j -> length p < length q).
Proof.
  assert (Hlog : forall fuel root s r s',
            load_root_pre parse_buildfile fuel root s = (r, s') ->
            exists l,
              worked_on s' = worked_on s ++ l
              /\ l `sublist_of` root_chain fuel root (now s)).
  { clear fuel root s r s'.
    intros fuel; induction fuel as [|fuel IH]; intros root s r s'; simpl.
    - intros [= <- <-]. exists []. rewrite app_nil_r.
      split; [reflexivity | constructor].
    - unfold mbind at 1, M_bind at 1, get at 1.
      unfold mbind at 1, M_bind at 1.
      set (outer := parent_scope root (now s) ≫= (fun p => root_scope p (now s))).
      assert (Houter : exists r1 s1 l1,
                match outer with
                | Some rs => load_root_pre parse_buildfile fuel rs
                | None => mret ()
                end s = (r1, s1)
                /\ worked_on s1 = worked_on s ++ l1
                /\ l1 `sublist_of` match outer with
                                   | Some rs => root_chain fuel rs (now s)
                                   | None => []
                                   end).
      { destruct outer as [rs|].
        - destruct (load_root_pre parse_buildfile fuel rs s) as [r1 s1] eqn:H1.
          destruct (IH _ _ _ _ H1) as (l1 & Hlog & Hsub).
          exists r1, s1, l1. auto.
        - exists (Ok ()), s, []. split; [reflexivity|].
          split; [by rewrite app_nil_r | constructor]. }
      destruct Houter as (r1 & s1 & l1 & -> & Hlog1 & Hsub1).
      destruct r1 as [[]|d].
      + unfold src_path, mbind, M_bind, get.
        destruct (src_path_ (scope_at root (now s1))) as [sp|].
        * unfold mret, M_ret, when.
          destruct (file_exists _ (now s1)).
          -- intros H. apply source_once_log in H as [Hlog|Hlog].
             ++ exists l1. split; [congruence | by apply sublist_inserts_r].
             ++ exists (l1 ++ [root]). split; [by rewrite Hlog, Hlog1, app_assoc|].
                by apply sublist_app.
          -- intros [= <- <-]. exists l1.
             split; [exact Hlog1 | by apply sublist_inserts_r].
        * intros [= <- <-]. exists l1.
          split; [exact Hlog1 | by apply sublist_inserts_r].
      + intros [= <- <-]. exists l1.
        split; [exact Hlog1 | by apply sublist_inserts_r].
  }
  intros H. destruct (Hlog _ _ _ _ _ H) as (l & Hl & Hsub).
  exists l. split; [exact Hl|]. split; [exact Hsub|].
  intros i j p q. apply root_chain_increasing.
Qed.

End root_pre.

Lemma create_root_idempotent_witness :
  let s1 := (create_root ["/"; "b"] [] (mk_state importing [])).2 in
  create_root ["/"; "b"] [] s1
  = (Ok ["/"; "b"], mk_state (now s1) (worked_on s1 ++ [["/"; "b"]])).
Proof.
  intros s1.
  refine (proj1 (proj2 (create_root_idempotent ["/"; "b"] [] (mk_state importing [])
                          ["/"; "b"] s1 _))).
  vm_compute. reflexivity.
Defined.

Lemma quiet_parser_keeps_buildfiles :
  forall bf root base w r w',
    quiet_parser bf root base w = (r, w') ->
    forall p bf', bf' ∈ buildfiles (scope_at p w) -> bf' ∈ buildfiles (scope_at p w').
Proof. by intros bf root base w r w' [= <- <-]. Qed.

Lemma source_once_at_most_once_witness :
  let bf := ["/"; "foo"; "build"; "missing.build"] in
  let s1 := (source_once quiet_parser bf (mapped ["/"; "a"]) (mapped ["/"; "a"])
               ["/"; "a"] (mk_state importing [])).2 in
  source_once quiet_parser bf (mapped ["/"; "a"]) (mapped ["/"; "a"]) ["/"; "a"] s1
  = (Ok (), s1).
Proof.
  intros bf s1.
  refine (proj1 (proj2 (source_once_at_most_once quiet_parser
                          quiet_parser_keeps_buildfiles bf
                          (mapped ["/"; "a"]) (mapped ["/"; "a"])
                          (mapped ["/"; "a"]) (mapped ["/"; "a"]) ["/"; "a"]
                          (mk_state importing [])
                          (Fail (unable_to_open bf)) s1 _))).
  vm_compute. reflexivity.
Defined.

Lemma find_out_root_cached_witness :
  let s1 := (find_out_root ["/"] (fun x => [x]) ["/"; "a"] "foo"
               (mk_state importing [])).2 in
  find_out_root ["/"] (fun x => [x]) ["/"; "a"] "foo" s1 = (Ok ["/"; "foo"], s1).
Proof.
  intros s1.
  refine (proj1 (find_out_root_cached ["/"] (fun x => [x]) ["/"; "a"] "foo"
                   (mk_state importing []) ["/"; "foo"] s1 _ _)).
  - discriminate.
  - vm_compute. reflexivity.
Defined.

Lemma quiet_parser_fuelled :
  forall bf root base w, (quiet_parser bf root base w).1 <> Fail out_of_fuel.
Proof. intros bf root base w. discriminate. Qed.

Lemma create_bootstrap_inner_contains_witness :
  let out_base := ["/"; "a"; "sub"; "x"] in
  let r := create_bootstrap_inner quiet_parser 4 ["/"; "a"] out_base
             (mk_state with_subproject []) in
  (["/"; "a"] ++ ["sub"]) `prefix_of` ["/"; "a"; "sub"]
  /\ ["/"; "a"; "sub"] `prefix_of` out_base
  /\ ["/"; "a"; "sub"] <> ["/"; "a"]
  /\ exists s1,
       create_bootstrap_inner quiet_parser 3 (["/"; "a"] ++ ["sub"]) out_base s1
       = (Ok ["/"; "a"; "sub"], r.2).
Proof.
  intros out_base r.
  refine (proj2 (proj2 (proj1 (proj2 (create_bootstrap_inner_contains quiet_parser 3
                                        ["/"; "a"] out_base
                                        (mk_state with_subproject [])))
                          [mk_name ["sub"] "" ""] _)
                   [] (mk_name ["sub"] "" "") [] eq_refl _)
            eq_refl eq_refl _ _ ["/"; "a"; "sub"] r.2 _).
  - vm_compute. reflexivity.
  - intros m Hm. by apply elem_of_nil in Hm.
  - discriminate.
  - exists ["x"]. reflexivity.
  - vm_compute. reflexivity.
Defined.

Lemma create_bootstrap_inner_terminates_witness :
  (create_bootstrap_inner quiet_parser 5 ["/"; "a"] ["/"; "a"; "sub"; "x"]
     (mk_state with_subproject [])).1
  <> Fail (loader_failure out_of_fuel)
  /\ create_bootstrap_inner quiet_parser 5 ["/"; "a"] ["/"; "a"; "sub"; "x"]
       (mk_state with_subproject [])
     = create_bootstrap_inner quiet_parser 9 ["/"; "a"] ["/"; "a"; "sub"; "x"]
         (mk_state with_subproject []).
Proof.
  apply (create_bootstrap_inner_terminates quiet_parser quiet_parser_fuelled 5 9);
    simpl; lia.
Defined.

Lemma load_root_pre_terminates_witness :
  (load_root_pre quiet_parser 3 ["/"; "a"] (mk_state importing [])).1
  <> Fail out_of_fuel
  /\ load_root_pre quiet_parser 3 ["/"; "a"] (mk_state importing [])
     = load_root_pre quiet_parser 7 ["/"; "a"] (mk_state importing []).
Proof.
  apply (load_root_pre_terminates quiet_parser 3 7);
    [apply quiet_parser_fuelled | simpl; lia | simpl; lia].
Defined.

Lemma load_root_pre_outer_first_witness :
  let r := load_root_pre quiet_parser 3 ["/"; "a"] (mk_state importing []) in
  exists l,
    worked_on r.2 = [] ++ l
    /\ l `sublist_of` root_chain 3 ["/"; "a"] importing
    /\ (forall i j p q,
          root_chain 3 ["/"; "a"] importing !! i = Some p ->
          root_chain 3 ["/"; "a"] importing !! j = Some q ->
          i < j -> length p < length q).
Proof.
  intros r.
  apply (load_root_pre_outer_first quiet_parser 3 ["/"; "a"] (mk_state importing [])
           r.1 r.2).
  apply surjective_pairing.
Defined.

(** X23.  [import] fails before it changes anything when the name to
    import has a type but no project directory (project name expected),
    and when [config.<project>] has no value in the importing root scope
    nor above it (unable to find [out_root]). *)
Theorem import_fails_early
    (parse_buildfile :
       path -> scope_ref -> scope_ref -> world -> result diag (list name) * world)
    (work : dir_path) (to_dir_path : string -> dir_path)
    (fuel : nat) (ibase : dir_path) (n : name) (s : state) :
  (dir n = [] -> type n <> "" ->
   import parse_buildfile work to_dir_path fuel ibase n s
   = (Fail (project_name_expected n), s))
  /\ (forall project target iroot,
        split_name n = Ok (project, target) ->
        root_scope ibase (now s) = Some iroot ->
        (lookup iroot ("config." +:+ project) (now s) = None
         \/ exists q, lookup iroot ("config." +:+ project) (now s) = Some (q, None)) ->
        import parse_buildfile work to_dir_path fuel ibase n s
        = (Fail (unable_to_find_out_root project), s)).
Proof.
  split.
  - intros Hdir Htype. unfold import, split_name, simple. rewrite Hdir.
    apply String.eqb_neq in Htype. rewrite Htype, andb_false_r. reflexivity.
  - intros project target iroot Hsplit Hroot Hlook.
    unfold import. rewrite Hsplit.
    unfold mbind at 1, M_bind at 1, get at 1. rewrite Hroot.
    unfold mbind at 1, M_bind at 1.
    assert (Hfind : find_out_root work to_dir_path iroot project s
                    = (Fail (unable_to_find_out_root project), s)).
    { unfold find_out_root, mbind, M_bind, get, fail.
      destruct Hlook as [-> | [q ->]]; reflexivity. }
    by rewrite Hfind.
Qed.

End Loader.
